(** * Unitary Fourier transforms of [skimage/restoration/uft.py]

    A shallow embedding of the module [uft.py] (unitary Fourier transform
    and utilities) together with the part of NumPy it calls, and the
    properties of the natural-language specification stated against it.

    Conventions of the embedding:
    - [float64] samples are the real numbers [R], [complex128] samples are
      pairs of reals; rounding is not modelled;
    - an [ndarray] is a shape and a dense C-order buffer, as in NumPy;
    - a Python exception is a value [Raise e] of the [result] type, and
      code that can raise is written in the [result] monad;
    - [np.fft] is the discrete Fourier transform written as its defining
      sum, with NumPy's argument checking and axis order. *)

From Stdlib Require Import Reals Lra Lia List ZArith Bool Arith.
Import ListNotations.

Open Scope R_scope.

(* ================================================================= *)
(** ** Python exceptions *)

Module Py.

Inductive exn : Type :=
| IndexError
| ValueError.

Inductive result (A : Type) : Type :=
| Ok (a : A)
| Raise (e : exn).

Arguments Ok {A} a.
Arguments Raise {A} e.

Definition bind {A B : Type} (m : result A) (k : A -> result B) : result B :=
  match m with
  | Ok a => k a
  | Raise e => Raise e
  end.

Definition raises {A : Type} (m : result A) : Prop :=
  exists e, m = Raise e.

(** [range(a, b)] over the integers. *)
Definition range (a b : Z) : list Z :=
  map (fun i => (a + Z.of_nat i)%Z) (seq 0 (Z.to_nat (b - a))).

(** [l[start:]] with Python's treatment of a negative or too large start. *)
Definition slice_from {A : Type} (start : Z) (l : list A) : list A :=
  let len := Z.of_nat (length l) in
  let s := if (start <? 0)%Z then Z.max (start + len) 0 else Z.min start len in
  skipn (Z.to_nat s) l.

(** [l[i]] for a possibly negative [i]: the position, when there is one. *)
Definition index (len : nat) (i : Z) : option nat :=
  if ((0 <=? i) && (i <? Z.of_nat len))%Z then Some (Z.to_nat i)
  else if ((i <? 0) && (- Z.of_nat len <=? i))%Z then Some (Z.to_nat (i + Z.of_nat len))
  else None.

End Py.

Import Py.

Notation "x <- m ;; k" := (Py.bind m (fun x => k))
  (at level 61, m at next level, right associativity).

(* ================================================================= *)
(** ** Complex samples *)

Definition C : Type := (R * R)%type.

Definition Cre (z : C) : R := fst z.
Definition Cim (z : C) : R := snd z.
Definition RtoC (x : R) : C := (x, 0).
Definition Cadd (a b : C) : C := (Cre a + Cre b, Cim a + Cim b).
Definition Cmul (a b : C) : C :=
  (Cre a * Cre b - Cim a * Cim b, Cre a * Cim b + Cim a * Cre b).
Definition Cconj (z : C) : C := (Cre z, - Cim z).
(** A complex sample times and over a real scalar. *)
Definition Cscale (z : C) (r : R) : C := (Cre z * r, Cim z * r).
Definition Cdiv (z : C) (r : R) : C := (Cre z / r, Cim z / r).
(** [np.abs] of a complex sample. *)
Definition Cabs (z : C) : R := sqrt (Cre z * Cre z + Cim z * Cim z).
(** [exp(i * theta)]. *)
Definition Cexp (theta : R) : C := (cos theta, sin theta).

(** The sample a fresh or padded buffer is filled with. *)
Class Zero (A : Type) := zero : A.
#[export] Instance Zero_R : Zero R := 0.
#[export] Instance Zero_C : Zero C := (0, 0).

Definition Rsum (n : nat) (f : nat -> R) : R :=
  fold_right Rplus 0 (map f (seq 0 n)).

Definition Csum (n : nat) (f : nat -> C) : C :=
  fold_right Cadd zero (map f (seq 0 n)).

(* ================================================================= *)
(** ** Dense arrays in C order *)

Record ndarray (A : Type) : Type := mk_ndarray {
  shape : list nat;
  data : list A
}.

Arguments mk_ndarray {A} shape data.
Arguments shape {A} n.
Arguments data {A} n.

(** [np.prod] of a shape. *)
Definition prod (s : list nat) : nat := fold_right Nat.mul 1%nat s.

Definition ndim {A} (a : ndarray A) : nat := length (shape a).
Definition size {A} (a : ndarray A) : nat := prod (shape a).

(** The invariant of every NumPy array: the buffer has one sample per
    index. *)
Definition wf {A} (a : ndarray A) : Prop := length (data a) = size a.

(** The offset of a multi-index in the buffer. *)
Fixpoint ravel (s idx : list nat) : nat :=
  match s, idx with
  | n :: s', i :: idx' => (i * prod s' + ravel s' idx')%nat
  | _, _ => 0%nat
  end.

(** All multi-indices of a shape, in buffer order. *)
Fixpoint indices (s : list nat) : list (list nat) :=
  match s with
  | [] => [[]]
  | n :: s' => flat_map (fun i => map (cons i) (indices s')) (seq 0 n)
  end.

Definition valid_index (s idx : list nat) : Prop := Forall2 lt idx s.

Definition get {A} `{Zero A} (a : ndarray A) (idx : list nat) : A :=
  nth (ravel (shape a) idx) (data a) zero.

(** The array of a given shape whose sample at [idx] is [f idx]. *)
Definition tabulate {A} (s : list nat) (f : list nat -> A) : ndarray A :=
  mk_ndarray s (map f (indices s)).

(** Elementwise application, as a NumPy ufunc does it. *)
Definition amap {A B} (f : A -> B) (a : ndarray A) : ndarray B :=
  mk_ndarray (shape a) (map f (data a)).

(** [idx] with its [k]-th component replaced by [j]. *)
Fixpoint upd (idx : list nat) (k j : nat) : list nat :=
  match idx, k with
  | [], _ => []
  | _ :: t, O => j :: t
  | i :: t, S k' => i :: upd t k' j
  end.

(* ================================================================= *)
(** ** The NumPy operations the module calls *)

Module Np.

(** [np.zeros(shape)]: a [float64] buffer. *)
Definition zeros (s : list nat) : ndarray R := tabulate s (fun _ => 0).

(** [a.astype(complex)], which [np.fft] applies to a real input. *)
Definition astype_complex (a : ndarray R) : ndarray C := amap RtoC a.

(** The real part kept when a complex value is stored in a [float64]
    buffer (NumPy warns and discards the imaginary part). *)
Definition astype_float (a : ndarray C) : ndarray R := amap Cre a.

(** [a / r] and [a * r] for a scalar [r]. *)
Definition div_scalar (a : ndarray C) (r : R) : ndarray C :=
  amap (fun z => Cdiv z r) a.
Definition mul_scalar (a : ndarray C) (r : R) : ndarray C :=
  amap (fun z => Cscale z r) a.
Definition rmul_scalar (a : ndarray R) (r : R) : ndarray R :=
  amap (fun x => x * r) a.
(** [r * a] for a scalar [r]. *)
Definition scalar_rmul (r : R) (a : ndarray R) : ndarray R :=
  amap (fun x => r * x) a.

(** [np.ones(shape)]. *)
Definition ones (s : list nat) : ndarray R := tabulate s (fun _ => 1).

(** [np.sum(a)] over all samples. *)
Definition sum (a : ndarray C) : C := fold_right Cadd zero (data a).

(** [np.abs(a)] and [a ** 2]. *)
Definition abs (a : ndarray C) : ndarray R := amap Cabs a.
Definition square (a : ndarray R) : ndarray R := amap (fun x => x * x) a.

(** [a.shape[i]]. *)
Definition shape_at {A} (a : ndarray A) (i : Z) : result nat :=
  match Py.index (ndim a) i with
  | Some k => Ok (nth k (shape a) 0%nat)
  | None => Raise IndexError
  end.

(** [np.sum(a, axis=-1)]. *)
Definition sum_last (a : ndarray R) : result (ndarray R) :=
  match rev (shape a) with
  | [] => Raise ValueError
  | n :: _ =>
      Ok (tabulate (removelast (shape a))
            (fun idx => Rsum n (fun j => get a (idx ++ [j]))))
  end.

(** [a[..., 0]]. *)
Definition getitem_last0 {A} `{Zero A} (a : ndarray A) : result (ndarray A) :=
  match rev (shape a) with
  | [] => Raise IndexError
  | O :: _ => Raise IndexError
  | S _ :: _ => Ok (tabulate (removelast (shape a)) (fun idx => get a (idx ++ [0%nat])))
  end.

(** [a - b] for two arrays of one shape, as the two operands of
    [image_quad_norm] are; broadcasting between different shapes is not
    modelled, such a pair is a [ValueError]. *)
Definition sub (a b : ndarray R) : result (ndarray R) :=
  if list_eq_dec Nat.eq_dec (shape a) (shape b)
  then Ok (mk_ndarray (shape a) (map (fun p => fst p - snd p) (combine (data a) (data b))))
  else Raise ValueError.

(** The shape of the view [a[0:s0, 0:s1, ...]] of an array of shape [t]. *)
Fixpoint region (stops t : list nat) : list nat :=
  match stops, t with
  | s :: stops', n :: t' => Nat.min s n :: region stops' t'
  | _, _ => t
  end.

(** Whether a value of shape [vs] broadcasts to a view of shape [rs] (of
    at least the same rank): the shapes are aligned at the last axis and
    an axis of the value has the view's length or length one. *)
Fixpoint broadcast_aligned (vs rs : list nat) : bool :=
  match vs, rs with
  | [], [] => true
  | v :: vs', r :: rs' => ((v =? r)%nat || (v =? 1)%nat) && broadcast_aligned vs' rs'
  | _, _ => false
  end.

Definition broadcastable (vs rs : list nat) : bool :=
  (length vs <=? length rs)%nat
  && broadcast_aligned vs (skipn (length rs - length vs) rs).

(** The index of the value's sample that lands at index [idx] of the view. *)
Fixpoint broadcast_aligned_index (vs idx : list nat) : list nat :=
  match vs, idx with
  | v :: vs', i :: idx' =>
      (if (v =? 1)%nat then 0%nat else i) :: broadcast_aligned_index vs' idx'
  | _, _ => []
  end.

Definition broadcast_index (vs idx : list nat) : list nat :=
  broadcast_aligned_index vs (skipn (length idx - length vs) idx).

(** Whether [idx] lies in a view of shape [rs]. *)
Fixpoint inside (rs idx : list nat) : bool :=
  match rs, idx with
  | [], [] => true
  | r :: rs', i :: idx' => (i <? r)%nat && inside rs' idx'
  | _, _ => false
  end.

(** [a[tuple([slice(0, s) for s in stops])] = v]: too many slices are
    an [IndexError], a value that does not broadcast to the view is a
    [ValueError]. *)
Definition setitem_corner (a : ndarray R) (stops : list nat) (v : ndarray R)
  : result (ndarray R) :=
  if (ndim a <? length stops)%nat then Raise IndexError
  else
    let rs := region stops (shape a) in
    if broadcastable (shape v) rs
    then Ok (tabulate (shape a)
               (fun idx => if inside rs idx
                           then get v (broadcast_index (shape v) idx)
                           else get a idx))
    else Raise ValueError.

(** [np.roll(a, shift, axis)] for a given axis: sample [i] of the result
    is sample [(i - shift) mod n] of [a]. *)
Definition roll {A} `{Zero A} (a : ndarray A) (shift : Z) (axis : nat)
  : result (ndarray A) :=
  match nth_error (shape a) axis with
  | None => Raise ValueError
  | Some n =>
      if (n =? 0)%nat then Ok a
      else
        let sh := Z.to_nat (shift mod Z.of_nat n) in
        Ok (tabulate (shape a)
              (fun idx => get a (upd idx axis ((nth axis idx 0 + (n - sh)) mod n)%nat)))
  end.

(** [np.sum(a)] over all samples of a real array. *)
Definition rsum (a : ndarray R) : R := fold_right Rplus 0 (data a).

(** A slice of an index: [slice(start, stop)] with bounds that are not
    negative, or [slice(None)]. *)
Inductive slice : Type :=
| Slice (start stop : nat)
| SliceAll.

(** The first position and the number of positions a slice selects on an
    axis of length [n]. *)
Definition slice_start (sl : slice) (n : nat) : nat :=
  match sl with
  | Slice start _ => Nat.min start n
  | SliceAll => 0%nat
  end.

Definition slice_length (sl : slice) (n : nat) : nat :=
  match sl with
  | Slice start stop => (Nat.min stop n - Nat.min start n)%nat
  | SliceAll => n
  end.

(** The shape of the view [a[tuple(sls)]] of an array of shape [t]: the
    axes beyond the slices are taken whole. *)
Fixpoint view_shape (sls : list slice) (t : list nat) : list nat :=
  match sls, t with
  | sl :: sls', n :: t' => slice_length sl n :: view_shape sls' t'
  | _, _ => t
  end.

(** The index in the view of the sample at [idx] of the array, when the
    view holds it. *)
Fixpoint view_index (sls : list slice) (t idx : list nat) : option (list nat) :=
  match sls, t, idx with
  | sl :: sls', n :: t', i :: idx' =>
      if ((slice_start sl n <=? i) && (i <? slice_start sl n + slice_length sl n))%nat
      then option_map (cons (i - slice_start sl n)%nat) (view_index sls' t' idx')
      else None
  | _, _, _ => Some idx
  end.

(** [a[tuple(sls)] = v]. *)
Definition setitem_slices (a : ndarray R) (sls : list slice) (v : ndarray R)
  : result (ndarray R) :=
  if (ndim a <? length sls)%nat then Raise IndexError
  else
    if broadcastable (shape v) (view_shape sls (shape a))
    then Ok (tabulate (shape a)
               (fun idx => match view_index sls (shape a) idx with
                           | Some j => get v (broadcast_index (shape v) j)
                           | None => get a idx
                           end))
    else Raise ValueError.

(** [a[sls] = v] for a list [sls]: a list that holds a slice indexes as
    the tuple of its items does (the NumPy releases before 1.23, which
    the module was written for); the empty list is an empty array of
    integer indices, one index too many for an array without axes and an
    empty selection of the first axis otherwise. *)
Definition setitem_list (a : ndarray R) (sls : list slice) (v : ndarray R)
  : result (ndarray R) :=
  match sls with
  | [] =>
      if (ndim a <? 1)%nat then Raise IndexError
      else if broadcastable (shape v) (0%nat :: tl (shape a)) then Ok a
           else Raise ValueError
  | _ => setitem_slices a sls v
  end.

(** A Python float used as an array: no axis, one sample. *)
Definition scalar (x : R) : ndarray R := mk_ndarray [] [x].

(** [a.reshape(s)]: at most one entry of [s] is negative and stands for
    the length that keeps the number of samples. *)
Definition reshape {A} (a : ndarray A) (s : list Z) : result (ndarray A) :=
  let known := fold_right Z.mul 1%Z (filter (fun d => negb (d <? 0)%Z) s) in
  match filter (fun d => (d <? 0)%Z) s with
  | [] =>
      if (known =? Z.of_nat (size a))%Z
      then Ok (mk_ndarray (map Z.to_nat s) (data a))
      else Raise ValueError
  | [_] =>
      if ((known =? 0) || negb (Z.of_nat (size a) mod known =? 0))%Z
      then Raise ValueError
      else Ok (mk_ndarray
                 (map (fun d => if (d <? 0)%Z
                                then Z.to_nat (Z.of_nat (size a) / known)
                                else Z.to_nat d) s)
                 (data a))
  | _ => Raise ValueError
  end.

End Np.

(* ================================================================= *)
(** ** [np.fft] *)

Module Fft.

(** [exp(sgn * 2 * pi * i * m / n)]. *)
Definition twiddle (sgn : R) (n m : nat) : C :=
  Cexp (sgn * (2 * PI * INR m / INR n)).

(** Sample [j] of the line through [idx] along axis [k], zero beyond the
    end of the axis (the padding of a transform longer than the axis). *)
Definition along {A} `{Zero A} (a : ndarray A) (k : nat) (idx : list nat) (j : nat) : A :=
  if (j <? nth k (shape a) 0%nat)%nat then get a (upd idx k j) else zero.

(** Coefficient [idx] of the length-[n] transform along axis [k]. *)
Definition dft_at (sgn : R) (a : ndarray C) (n k : nat) (idx : list nat) : C :=
  Csum n (fun j => Cmul (along a k idx j) (twiddle sgn n (j * nth k idx 0%nat))).

Definition dft (sgn : R) (a : ndarray C) (n k : nat) : ndarray C :=
  tabulate (upd (shape a) k n) (dft_at sgn a n k).

(** The Hermitian completion of a half spectrum of a length-[n] signal. *)
Definition hermitian (a : ndarray C) (n k : nat) (idx : list nat) (m : nat) : C :=
  if (m <=? n / 2)%nat then along a k idx m else Cconj (along a k idx (n - m)).

Definition idft_real_at (a : ndarray C) (n k : nat) (idx : list nat) : R :=
  Rsum n (fun m => Cre (Cmul (hermitian a n k idx m) (twiddle 1 n (m * nth k idx 0%nat))))
  / INR n.

(** The argument checks of a one-dimensional transform. *)
Definition checked {A B} (a : ndarray A) (n : nat) (axis : Z) (f : nat -> B) : result B :=
  if (n <? 1)%nat then Raise ValueError
  else match Py.index (ndim a) axis with
       | None => Raise IndexError
       | Some k => Ok (f k)
       end.

Definition fft (a : ndarray C) (n : nat) (axis : Z) : result (ndarray C) :=
  checked a n axis (dft (-1) a n).

Definition ifft (a : ndarray C) (n : nat) (axis : Z) : result (ndarray C) :=
  checked a n axis (fun k => Np.div_scalar (dft 1 a n k) (INR n)).

(** The first [n / 2 + 1] coefficients of the transform of a real array. *)
Definition rdft (a : ndarray R) (n k : nat) : ndarray C :=
  tabulate (upd (shape a) k (n / 2 + 1)) (dft_at (-1) (Np.astype_complex a) n k).

Definition rfft (a : ndarray R) (n : nat) (axis : Z) : result (ndarray C) :=
  checked a n axis (rdft a n).

Definition irfft (a : ndarray C) (n : nat) (axis : Z) : result (ndarray R) :=
  checked a n axis (fun k => tabulate (upd (shape a) k n) (idft_real_at a n k)).

(** [take(a.shape, axes)]. *)
Fixpoint take (s : list nat) (axes : list Z) : result (list nat) :=
  match axes with
  | [] => Ok []
  | ax :: axes' =>
      match Py.index (length s) ax with
      | None => Raise IndexError
      | Some k => r <- take s axes' ;; Ok (nth k s 0%nat :: r)
      end
  end.

(** [_cook_nd_args(a, s, axes, invreal)] with [axes] given. *)
Definition cook_nd_args {A} (a : ndarray A) (s : option (list nat)) (axes : list Z)
    (invreal : bool) : result (list nat) :=
  match s with
  | Some s =>
      if (length s =? length axes)%nat then Ok s else Raise ValueError
  | None =>
      s <- take (shape a) axes ;;
      if invreal then
        match rev s with
        | [] => Raise IndexError
        | n :: front => Ok (rev front ++ [((n - 1) * 2)%nat])
        end
      else Ok s
  end.

(** One-dimensional transforms applied in turn. *)
Fixpoint iterate (f : ndarray C -> nat -> Z -> result (ndarray C))
    (todo : list (nat * Z)) (a : ndarray C) : result (ndarray C) :=
  match todo with
  | [] => Ok a
  | (n, ax) :: todo' => a' <- f a n ax ;; iterate f todo' a'
  end.

(** [np.fft.fftn(a, axes=axes)]: the last axis first. *)
Definition fftn (a : ndarray C) (axes : list Z) : result (ndarray C) :=
  s <- cook_nd_args a None axes false ;;
  iterate fft (rev (combine s axes)) a.

Definition ifftn (a : ndarray C) (axes : list Z) : result (ndarray C) :=
  s <- cook_nd_args a None axes false ;;
  iterate ifft (rev (combine s axes)) a.

(** [np.fft.rfftn(a, axes=axes)]: the real transform along the last of
    [axes], then complex transforms along the others. *)
Definition rfftn (a : ndarray R) (axes : list Z) : result (ndarray C) :=
  s <- cook_nd_args a None axes false ;;
  match rev (combine s axes) with
  | [] => Raise IndexError
  | (n, ax) :: front => a' <- rfft a n ax ;; iterate fft (rev front) a'
  end.

(** [np.fft.irfftn(a, s, axes=axes)]. *)
Definition irfftn (a : ndarray C) (s : option (list nat)) (axes : list Z)
  : result (ndarray R) :=
  s <- cook_nd_args a s axes true ;;
  match rev (combine s axes) with
  | [] => Raise IndexError
  | (n, ax) :: front => a' <- iterate ifft (rev front) a ;; irfft a' n ax
  end.

End Fft.

(* ================================================================= *)
(** ** The module [uft.py] *)

Definition default_dim {A} (inarray : ndarray A) (dim : option Z) : Z :=
  match dim with
  | None => Z.of_nat (ndim inarray)
  | Some d => d
  end.

(** [np.sqrt(np.prod(shape[-dim:]))]. *)
Definition norm_factor (s : list nat) (dim : Z) : R :=
  sqrt (INR (prod (Py.slice_from (- dim) s))).

(** Every axis among the last [dim] ones holds at least one sample. *)
Definition axes_nonempty (s : list nat) (dim : Z) : Prop :=
  Forall (fun n => (1 <= n)%nat) (Py.slice_from (- dim) s).

Definition ufftn (inarray : ndarray C) (dim : option Z) : result (ndarray C) :=
  let dim := default_dim inarray dim in
  outarray <- Fft.fftn inarray (Py.range (- dim) 0) ;;
  Ok (Np.div_scalar outarray (norm_factor (shape inarray) dim)).

Definition uifftn (inarray : ndarray C) (dim : option Z) : result (ndarray C) :=
  let dim := default_dim inarray dim in
  outarray <- Fft.ifftn inarray (Py.range (- dim) 0) ;;
  Ok (Np.mul_scalar outarray (norm_factor (shape inarray) dim)).

Definition urfftn (inarray : ndarray R) (dim : option Z) : result (ndarray C) :=
  let dim := default_dim inarray dim in
  outarray <- Fft.rfftn inarray (Py.range (- dim) 0) ;;
  Ok (Np.div_scalar outarray (norm_factor (shape inarray) dim)).

Definition uirfftn (inarray : ndarray C) (dim : option Z) (shape_ : option (list nat))
  : result (ndarray R) :=
  let dim := default_dim inarray dim in
  outarray <- Fft.irfftn inarray shape_ (Py.range (- dim) 0) ;;
  Ok (Np.rmul_scalar outarray (norm_factor (shape outarray) dim)).

Definition ufft2 (inarray : ndarray C) : result (ndarray C) :=
  ufftn inarray (Some 2%Z).

Definition uifft2 (inarray : ndarray C) : result (ndarray C) :=
  uifftn inarray (Some 2%Z).

Definition urfft2 (inarray : ndarray R) : result (ndarray C) :=
  urfftn inarray (Some 2%Z).

Definition uirfft2 (inarray : ndarray C) (shape_ : option (list nat))
  : result (ndarray R) :=
  uirfftn inarray (Some 2%Z) shape_.

Definition image_quad_norm (inarray : ndarray C) : result (ndarray R) :=
  n1 <- Np.shape_at inarray (-1) ;;
  n2 <- Np.shape_at inarray (-2) ;;
  if negb (n1 =? n2)%nat then
    rows <- Np.sum_last (Np.square (Np.abs inarray)) ;;
    total <- Np.sum_last rows ;;
    first <- Np.getitem_last0 inarray ;;
    column <- Np.sum_last (Np.square (Np.abs first)) ;;
    Np.sub (Np.scalar_rmul 2 total) column
  else
    rows <- Np.sum_last (Np.square (Np.abs inarray)) ;;
    Np.sum_last rows.

(** The loop of [ir2tf] over [enumerate(imp_resp.shape)], from position
    [axis] on; [first] is [imp_resp.ndim - dim]. *)
Fixpoint roll_axes (first : Z) (axis : nat) (sizes : list nat) (irpadded : ndarray R)
  : result (ndarray R) :=
  match sizes with
  | [] => Ok irpadded
  | axis_size :: sizes' =>
      irpadded' <- (if (first <=? Z.of_nat axis)%Z
                    then Np.roll irpadded (- Z.of_nat (axis_size / 2)) axis
                    else Ok irpadded) ;;
      roll_axes first (S axis) sizes' irpadded'
  end.

(** The array [ir2tf] transforms: [imp_resp] stored at the origin of a
    zero buffer, then rolled. *)
Definition ir_padded_rolled (imp_resp : ndarray C) (shape_ : list nat) (dim : Z)
  : result (ndarray R) :=
  irpadded <- Np.setitem_corner (Np.zeros shape_) (shape imp_resp)
                (Np.astype_float imp_resp) ;;
  roll_axes (Z.of_nat (ndim imp_resp) - dim) 0 (shape imp_resp) irpadded.

(** [if not dim: dim = imp_resp.ndim]: a missing [dim] and the [dim] 0
    both stand for the rank. *)
Definition ir2tf_dim (imp_resp : ndarray C) (dim : option Z) : Z :=
  match dim with
  | None => Z.of_nat (ndim imp_resp)
  | Some d => if (d =? 0)%Z then Z.of_nat (ndim imp_resp) else d
  end.

Definition ir2tf (imp_resp : ndarray C) (shape_ : list nat) (dim : option Z)
    (is_real : bool) : result (ndarray C) :=
  let dim := ir2tf_dim imp_resp dim in
  irpadded <- ir_padded_rolled imp_resp shape_ dim ;;
  if is_real
  then Fft.rfftn irpadded (Py.range (- dim) 0)
  else Fft.fftn (Np.astype_complex irpadded) (Py.range (- dim) 0).

(** The index of the line through the centre along axis [dim]:
    [[slice(1, 2)] * dim + [slice(None)] + [slice(1, 2)] * (ndim - dim - 1)]. *)
Definition laplacian_index (ndim dim : Z) : list Np.slice :=
  repeat (Np.Slice 1 2) (Z.to_nat dim) ++ [Np.SliceAll]
  ++ repeat (Np.Slice 1 2) (Z.to_nat (ndim - dim - 1)).

(** [[-1 if i == dim else 1 for i in range(ndim)]]. *)
Definition laplacian_line_shape (ndim dim : Z) : list Z :=
  map (fun i => if (i =? dim)%Z then (-1)%Z else 1%Z) (Py.range 0 ndim).

(** The loop of [laplacian] over the axes [dims]. *)
Fixpoint laplacian_loop (ndim : Z) (dims : list Z) (impr : ndarray R)
  : result (ndarray R) :=
  match dims with
  | [] => Ok impr
  | dim :: dims' =>
      line <- Np.reshape (mk_ndarray [3%nat] [-1; 0; -1])
                (laplacian_line_shape ndim dim) ;;
      impr' <- Np.setitem_slices impr (laplacian_index ndim dim) line ;;
      laplacian_loop ndim dims' impr'
  end.

(** [laplacian(ndim, shape, is_real)]: the pair of the transfer function
    and of the impulse response. *)
Definition laplacian (ndim : Z) (shape_ : list nat) (is_real : bool)
  : result (ndarray C * ndarray R) :=
  impr <- laplacian_loop ndim (Py.range 0 ndim)
            (Np.zeros (repeat 3%nat (Z.to_nat ndim))) ;;
  impr <- Np.setitem_list impr (repeat (Np.Slice 1 2) (Z.to_nat ndim))
            (Np.scalar (2 * IZR ndim)) ;;
  tf <- ir2tf (Np.astype_complex impr) shape_ None is_real ;;
  Ok (tf, impr).

(* ================================================================= *)
(** ** The specification's reading of the operations

    Definitions that follow the words of the specification, to be
    compared with the code above. *)

Module Spec.

(** [ir2tf] as the specification describes its last step: the unitary
    transform ([urfftn] or [ufftn]) of the padded and rolled array. *)
Definition ir2tf_unitary (imp_resp : ndarray C) (shape_ : list nat) (dim : option Z)
    (is_real : bool) : result (ndarray C) :=
  let dim := ir2tf_dim imp_resp dim in
  irpadded <- ir_padded_rolled imp_resp shape_ dim ;;
  if is_real
  then urfftn irpadded (Some dim)
  else ufftn (Np.astype_complex irpadded) (Some dim).

(** The impulse response stored at the origin corner of a zero array:
    its real sample inside its own extent, zero outside. *)
Definition corner (imp_resp : ndarray C) (idx : list nat) : R :=
  if Np.inside (shape imp_resp) idx then Cre (get imp_resp idx) else 0.

(** The index a circular shift by [- floor(extent / 2)] along every axis
    reads from: component [i] of an axis of original extent [sz] and
    padded extent [n] becomes [(i + sz / 2) mod n]. *)
Fixpoint shifted (sizes t idx : list nat) : list nat :=
  match sizes, t, idx with
  | sz :: sizes', n :: t', i :: idx' => ((i + sz / 2) mod n)%nat :: shifted sizes' t' idx'
  | _, _, _ => idx
  end.

(** The padded and rolled array of a call without batch axes. *)
Definition padded_rolled (imp_resp : ndarray C) (t : list nat) : ndarray R :=
  tabulate t (fun idx => corner imp_resp (shifted (shape imp_resp) t idx)).

(** One-dimensional transforms [g] along the axes [ks] of [a], each of the
    length of its axis, the last of [ks] first. *)
Definition transform_axes (g : ndarray C -> nat -> nat -> ndarray C)
    (a : ndarray C) (ks : list nat) : ndarray C :=
  fold_right (fun k acc => g acc (nth k (shape a) 0%nat) k) a ks.

(** The unnormalized forward transform and the inverse transform along
    the axes [ks]. *)
Definition dft_axes (a : ndarray C) (ks : list nat) : ndarray C :=
  transform_axes (Fft.dft (-1)) a ks.

Definition idft_step (a : ndarray C) (n k : nat) : ndarray C :=
  Np.div_scalar (Fft.dft 1 a n k) (INR n).

Definition idft_axes (a : ndarray C) (ks : list nat) : ndarray C :=
  transform_axes idft_step a ks.

(** Coefficient [(i, j)] of the two-dimensional transform of the [m] by [n]
    real image at index [b] of the batch axes: the sum over the samples
    [(i', j')] of the sample times [exp(-2 pi i (i i' / m + j j' / n))],
    the last axis first. *)
Definition dft2_at (x : ndarray R) (m n : nat) (b : list nat) (i j : nat) : C :=
  Csum m (fun i' =>
    Cmul (Csum n (fun j' =>
            Cmul (RtoC (get x (b ++ [i'; j']))) (Fft.twiddle (-1) n (j' * j))))
         (Fft.twiddle (-1) m (i' * i))).

(** The frequency opposite to [k] among [n]. *)
Definition mirror (n k : nat) : nat := (n - k) mod n.

(** The last [d] axes of an array of rank [len]. *)
Definition last_axes (len d : nat) : list nat := seq (len - d) d.

(** The number of components of an index that are off the centre of a
    stencil of side 3. *)
Definition off_centre (idx : list nat) : nat :=
  length (filter (fun i => negb (i =? 1)%nat) idx).


End Spec.

(** The arrays of the examples. *)
Definition ones22 : ndarray C := Np.astype_complex (Np.ones [2; 2]%nat).


(* ================================================================= *)
(** ** Properties of the array model *)

Lemma length_flat_map_blocks {A B} (f : A -> list B) (l : list A) (m : nat) :
  (forall x, length (f x) = m) -> length (flat_map f l) = (length l * m)%nat.
Proof.
  intros Hf. induction l as [|x l IH]; simpl.
  - reflexivity.
  - rewrite length_app, Hf, IH. reflexivity.
Qed.

Lemma nth_flat_map_blocks {A B} (f : A -> list B) (l : list A) (m i r : nat) dA dB :
  (forall x, length (f x) = m) -> (r < m)%nat -> (i < length l)%nat ->
  nth (i * m + r) (flat_map f l) dB = nth r (f (nth i l dA)) dB.
Proof.
  intros Hf Hr. revert i. induction l as [|x l IH]; intros i Hi; simpl in Hi.
  - lia.
  - destruct i as [|i]; simpl.
    + rewrite app_nth1 by (rewrite Hf; exact Hr). reflexivity.
    + rewrite app_nth2 by (rewrite Hf; lia).
      rewrite Hf. replace (m + i * m + r - m)%nat with (i * m + r)%nat by lia.
      apply IH. lia.
Qed.

Lemma map_flat_map_blocks {A B D} (g : B -> D) (f : A -> list B) (l : list A) :
  map g (flat_map f l) = flat_map (fun x => map g (f x)) l.
Proof.
  induction l as [|x l IH]; simpl.
  - reflexivity.
  - rewrite map_app, IH. reflexivity.
Qed.

Lemma length_indices (s : list nat) : length (indices s) = prod s.
Proof.
  induction s as [|n s IH]; simpl.
  - reflexivity.
  - rewrite (length_flat_map_blocks _ _ (prod s)).
    + rewrite length_seq. reflexivity.
    + intros i. rewrite length_map. exact IH.
Qed.

Lemma In_indices (s idx : list nat) : In idx (indices s) <-> valid_index s idx.
Proof.
  unfold valid_index. revert idx. induction s as [|n s IH]; intros idx; simpl.
  - split.
    + intros [<-|[]]. constructor.
    + intros H. inversion H. now left.
  - rewrite in_flat_map. split.
    + intros (i & Hi & Hin). apply in_seq in Hi. apply in_map_iff in Hin.
      destruct Hin as (t & <- & Ht). constructor; [lia | now apply IH].
    + intros H. inversion H as [|i n' t s' Hlt Ht]; subst.
      exists i. split; [apply in_seq; lia|].
      apply in_map. now apply IH.
Qed.

Lemma valid_index_length (s idx : list nat) :
  valid_index s idx -> length idx = length s.
Proof. unfold valid_index. induction 1; simpl; congruence. Qed.

Lemma ravel_lt (s idx : list nat) : valid_index s idx -> (ravel s idx < prod s)%nat.
Proof.
  unfold valid_index. induction 1 as [|i n idx s Hlt _ IH]; simpl.
  - lia.
  - nia.
Qed.

Lemma nth_ravel_map_indices {A} (f : list nat -> A) (s idx : list nat) (d : A) :
  valid_index s idx -> nth (ravel s idx) (map f (indices s)) d = f idx.
Proof.
  unfold valid_index. intros H. revert f.
  induction H as [|i n idx s Hlt Hv IH]; intros f; simpl.
  - reflexivity.
  - rewrite map_flat_map_blocks.
    rewrite (nth_flat_map_blocks _ _ (prod s) i (ravel s idx) 0%nat).
    + rewrite seq_nth by exact Hlt. simpl. rewrite map_map. apply IH.
    + intros x. rewrite !length_map. apply length_indices.
    + now apply ravel_lt.
    + rewrite length_seq. exact Hlt.
Qed.

Lemma ravel_nth_indices (s : list nat) (p : nat) :
  (p < prod s)%nat -> ravel s (nth p (indices s) []) = p /\ valid_index s (nth p (indices s) []).
Proof.
  revert p. induction s as [|n s IH]; intros p Hp; simpl in *.
  - assert (p = 0)%nat as -> by lia. simpl. split; [reflexivity | constructor].
  - assert (HP : (0 < prod s)%nat) by (destruct (prod s); lia).
    pose proof (Nat.div_mod_eq p (prod s)) as Hdm.
    pose proof (Nat.mod_upper_bound p (prod s) ltac:(lia)) as Hr.
    assert (Hq : (p / prod s < n)%nat).
    { apply Nat.Div0.div_lt_upper_bound. lia. }
    set (q := (p / prod s)%nat) in *. set (r := (p mod prod s)%nat) in *.
    replace p with (q * prod s + r)%nat at 1 3 by lia.
    rewrite (nth_flat_map_blocks _ _ (prod s) q r 0%nat);
      [| intros x; rewrite length_map; apply length_indices | exact Hr
       | rewrite length_seq; exact Hq].
    rewrite seq_nth by exact Hq. simpl.
    rewrite (nth_indep _ [] (q :: [])) by (rewrite length_map, length_indices; exact Hr).
    rewrite (map_nth (cons q)). simpl.
    destruct (IH r Hr) as [E V]. split.
    + rewrite E. lia.
    + constructor; assumption.
Qed.

Section ArrayFacts.
Context {A : Type} `{Zero A}.

Lemma wf_tabulate (s : list nat) (f : list nat -> A) : wf (tabulate s f).
Proof. unfold wf, size, tabulate. simpl. rewrite length_map. apply length_indices. Qed.

Lemma shape_tabulate (s : list nat) (f : list nat -> A) : shape (tabulate s f) = s.
Proof. reflexivity. Qed.

Lemma get_tabulate (s idx : list nat) (f : list nat -> A) :
  valid_index s idx -> get (tabulate s f) idx = f idx.
Proof. intros Hv. unfold get, tabulate. simpl. now apply nth_ravel_map_indices. Qed.

Lemma tabulate_ext (s : list nat) (f g : list nat -> A) :
  (forall idx, valid_index s idx -> f idx = g idx) -> tabulate s f = tabulate s g.
Proof.
  intros Hfg. unfold tabulate. f_equal. apply map_ext_in.
  intros idx Hin. apply Hfg. now apply In_indices.
Qed.

Lemma tabulate_get (a : ndarray A) : wf a -> tabulate (shape a) (get a) = a.
Proof.
  destruct a as [s l]. unfold wf, size, tabulate, get. simpl. intros Hl. f_equal.
  apply (nth_ext _ _ zero zero).
  - rewrite length_map, length_indices. symmetry. exact Hl.
  - intros p Hp. rewrite length_map, length_indices in Hp.
    rewrite (nth_indep _ zero (nth (ravel s []) l zero))
      by (rewrite length_map, length_indices; exact Hp).
    rewrite (map_nth (fun idx => nth (ravel s idx) l zero)).
    destruct (ravel_nth_indices s p Hp) as [-> _]. reflexivity.
Qed.

Lemma array_ext (a b : ndarray A) :
  wf a -> wf b -> shape a = shape b ->
  (forall idx, valid_index (shape a) idx -> get a idx = get b idx) ->
  a = b.
Proof.
  intros Ha Hb Hs Hg.
  rewrite <- (tabulate_get a Ha), <- (tabulate_get b Hb), <- Hs.
  now apply tabulate_ext.
Qed.

End ArrayFacts.

Lemma wf_amap {A B} (f : A -> B) (a : ndarray A) : wf a -> wf (amap f a).
Proof. unfold wf, size, amap. simpl. now rewrite length_map. Qed.

Lemma get_amap {A B} `{Zero A} `{Zero B} (f : A -> B) (a : ndarray A) (idx : list nat) :
  wf a -> valid_index (shape a) idx -> get (amap f a) idx = f (get a idx).
Proof.
  intros Hw Hv. unfold get, amap. simpl.
  assert (Hlt : (ravel (shape a) idx < length (data a))%nat).
  { rewrite Hw. now apply ravel_lt. }
  rewrite (nth_indep _ zero (f zero)) by (now rewrite length_map).
  apply map_nth.
Qed.

Lemma amap_tabulate {A B} (g : A -> B) (s : list nat) (f : list nat -> A) :
  amap g (tabulate s f) = tabulate s (fun idx => g (f idx)).
Proof. unfold amap, tabulate. simpl. now rewrite map_map. Qed.

Lemma amap_amap {A B D} (g : B -> D) (f : A -> B) (a : ndarray A) :
  amap g (amap f a) = amap (fun x => g (f x)) a.
Proof. unfold amap. simpl. now rewrite map_map. Qed.

(* ================================================================= *)
(** ** Arithmetic of the samples *)

Lemma twiddle_0 (sgn : R) (n : nat) : Fft.twiddle sgn n 0 = (1, 0).
Proof.
  unfold Fft.twiddle, Cexp. simpl INR.
  replace (sgn * (2 * PI * 0 / INR n)) with 0 by (unfold Rdiv; ring).
  now rewrite cos_0, sin_0.
Qed.

Lemma twiddle_fwd_2_1 : Fft.twiddle (-1) 2 1 = (-1, 0).
Proof.
  unfold Fft.twiddle, Cexp. simpl INR.
  replace (-1 * (2 * PI * 1 / (1 + 1))) with (- PI) by field.
  rewrite cos_neg, sin_neg, cos_PI, sin_PI. f_equal. lra.
Qed.

Lemma sqrt_INR_4 : sqrt (INR 4) = 2.
Proof.
  replace (INR 4) with (2 * 2) by (simpl; ring).
  apply sqrt_square. lra.
Qed.

(** Evaluation of the model on a concrete input: everything but the
    arithmetic of the samples is computed. *)
Ltac run :=
  cbv -[Rplus Rmult Rminus Ropp Rinv Rdiv cos sin PI sqrt IZR INR Fft.twiddle
        Cmul Cadd Cre Cim Cdiv Cscale Cabs Cconj RtoC].
Ltac run_in H :=
  cbv -[Rplus Rmult Rminus Ropp Rinv Rdiv cos sin PI sqrt IZR INR Fft.twiddle
        Cmul Cadd Cre Cim Cdiv Cscale Cabs Cconj RtoC] in H.
Ltac crunch :=
  cbv [Cmul Cadd Cre Cim Cdiv Cscale Cconj RtoC fst snd zero Zero_C Zero_R].
Ltac crunch_in H :=
  cbv [Cmul Cadd Cre Cim Cdiv Cscale Cconj RtoC fst snd zero Zero_C Zero_R] in H.

(** ** Python ranges, indices and slices *)

Lemma range_nonpos (d : Z) : (d <= 0)%Z -> Py.range (- d) 0 = [].
Proof.
  intros Hd. unfold Py.range. replace (Z.to_nat (0 - - d)) with 0%nat by lia. reflexivity.
Qed.

Lemma range_pos (d : Z) :
  (1 <= d)%Z -> Py.range (- d) 0 = map (fun i => (- d + Z.of_nat i)%Z) (seq 0 (Z.to_nat d)).
Proof.
  intros Hd. unfold Py.range. replace (0 - - d)%Z with d by lia. reflexivity.
Qed.

Lemma index_negative (len : nat) (ax : Z) :
  (- Z.of_nat len <= ax < 0)%Z -> Py.index len ax = Some (Z.to_nat (ax + Z.of_nat len)).
Proof.
  intros Hax. unfold Py.index.
  destruct (0 <=? ax)%Z eqn:E1; [apply Z.leb_le in E1; lia|]. simpl.
  destruct (ax <? 0)%Z eqn:E2; [|apply Z.ltb_ge in E2; lia].
  destruct (- Z.of_nat len <=? ax)%Z eqn:E3; [|apply Z.leb_gt in E3; lia].
  reflexivity.
Qed.

Lemma index_below (len : nat) (ax : Z) :
  (ax < - Z.of_nat len)%Z -> Py.index len ax = None.
Proof.
  intros Hax. unfold Py.index.
  destruct (0 <=? ax)%Z eqn:E1; [apply Z.leb_le in E1; lia|]. simpl.
  destruct (ax <? 0)%Z eqn:E2; [|apply Z.ltb_ge in E2; lia].
  destruct (- Z.of_nat len <=? ax)%Z eqn:E3; [apply Z.leb_le in E3; lia|].
  reflexivity.
Qed.

Lemma index_range_last_axes (len : nat) (d : Z) :
  (1 <= d <= Z.of_nat len)%Z ->
  Forall2 (fun ax k => Py.index len ax = Some k)
    (Py.range (- d) 0) (Spec.last_axes len (Z.to_nat d)).
Proof.
  intros Hd. rewrite range_pos by lia. unfold Spec.last_axes.
  set (dn := Z.to_nat d).
  assert (G : forall m b, (b + m <= dn)%nat ->
    Forall2 (fun ax k => Py.index len ax = Some k)
      (map (fun i => (- d + Z.of_nat i)%Z) (seq b m)) (seq (len - dn + b) m)).
  { induction m as [|m IH]; intros b Hb; simpl.
    - constructor.
    - constructor.
      + rewrite index_negative by lia. f_equal. lia.
      + replace (S (len - dn + b)) with (len - dn + S b)%nat by lia.
        apply IH. lia. }
  specialize (G dn 0%nat ltac:(lia)). now rewrite Nat.add_0_r in G.
Qed.

Lemma slice_from_last (A : Type) (l : list A) (d : Z) :
  (1 <= d <= Z.of_nat (length l))%Z ->
  Py.slice_from (- d) l = skipn (length l - Z.to_nat d) l.
Proof.
  intros Hd. unfold Py.slice_from.
  destruct (- d <? 0)%Z eqn:E; [|apply Z.ltb_ge in E; lia].
  f_equal. lia.
Qed.

Lemma slice_from_all (A : Type) (l : list A) :
  Py.slice_from (- Z.of_nat (length l)) l = l.
Proof.
  unfold Py.slice_from.
  destruct (- Z.of_nat (length l) <? 0)%Z.
  - replace (Z.to_nat _) with 0%nat by lia. reflexivity.
  - replace (Z.to_nat _) with 0%nat by lia. reflexivity.
Qed.

(** ** The structure of the transforms over several axes *)

Lemma upd_same (l : list nat) (k : nat) : upd l k (nth k l 0%nat) = l.
Proof.
  revert k. induction l as [|x l IH]; intros [|k]; simpl; try reflexivity.
  now rewrite IH.
Qed.

Lemma length_upd (l : list nat) (k v : nat) : length (upd l k v) = length l.
Proof.
  revert k. induction l as [|x l IH]; intros [|k]; simpl; try reflexivity.
  now rewrite IH.
Qed.

Lemma nth_upd (l : list nat) (k p v : nat) :
  (k < length l)%nat -> nth p (upd l k v) 0%nat = if (p =? k)%nat then v else nth p l 0%nat.
Proof.
  revert k p. induction l as [|x l IH]; intros [|k] [|p] Hk; simpl in *; try lia; try reflexivity.
  apply IH. lia.
Qed.

Lemma nth_upd_other (l : list nat) (k p v : nat) :
  p <> k -> nth p (upd l k v) 0%nat = nth p l 0%nat.
Proof.
  revert k p. induction l as [|x l IH]; intros [|k] [|p] Hk; simpl in *; try lia; try reflexivity.
  apply IH. lia.
Qed.

Lemma index_lt (len : nat) (ax : Z) (k : nat) : Py.index len ax = Some k -> (k < len)%nat.
Proof.
  unfold Py.index.
  destruct ((0 <=? ax)%Z && (ax <? Z.of_nat len)%Z) eqn:E1.
  - apply andb_true_iff in E1 as [E1 E2]. apply Z.leb_le in E1. apply Z.ltb_lt in E2.
    intros [= <-]. lia.
  - destruct ((ax <? 0)%Z && (- Z.of_nat len <=? ax)%Z) eqn:E2; [|discriminate].
    apply andb_true_iff in E2 as [E2 E3]. apply Z.ltb_lt in E2. apply Z.leb_le in E3.
    intros [= <-]. lia.
Qed.

Lemma iterate_app f (l1 l2 : list (nat * Z)) (a : ndarray C) :
  Fft.iterate f (l1 ++ l2) a = (a' <- Fft.iterate f l1 a ;; Fft.iterate f l2 a').
Proof.
  revert a. induction l1 as [|[n ax] l1 IH]; intros a; simpl.
  - reflexivity.
  - destruct (f a n ax); simpl; [apply IH | reflexivity].
Qed.

Lemma take_axes (s : list nat) (axes : list Z) (ks : list nat) :
  Forall2 (fun ax k => Py.index (length s) ax = Some k) axes ks ->
  Fft.take s axes = Ok (map (fun k => nth k s 0%nat) ks).
Proof.
  induction 1 as [|ax k axes ks Hk _ IH]; simpl.
  - reflexivity.
  - rewrite Hk, IH. reflexivity.
Qed.

Section Iterate.
(** A one-dimensional transform: the argument checks, then a function of
    the array, the length and the axis. *)
Variable g : ndarray C -> nat -> nat -> ndarray C.
Hypothesis shape_g : forall a n k, shape (g a n k) = upd (shape a) k n.

Let f (a : ndarray C) (n : nat) (ax : Z) : result (ndarray C) :=
  Fft.checked a n ax (g a n).

Lemma shape_transform_axes (a : ndarray C) (ks : list nat) :
  shape (Spec.transform_axes g a ks) = shape a.
Proof.
  induction ks as [|k ks IH]; simpl.
  - reflexivity.
  - rewrite shape_g, IH. apply upd_same.
Qed.

Lemma iterate_transform_axes (a : ndarray C) (axes : list Z) (ks : list nat) :
  Forall2 (fun ax k => Py.index (ndim a) ax = Some k) axes ks ->
  Forall (fun k => 1 <= nth k (shape a) 0)%nat ks ->
  Fft.iterate f (rev (combine (map (fun k => nth k (shape a) 0%nat) ks) axes)) a
  = Ok (Spec.transform_axes g a ks).
Proof.
  induction 1 as [|ax k axes ks Hk _ IH]; intros Hn; simpl.
  - reflexivity.
  - inversion Hn as [|? ? Hk1 Hks]; subst.
    rewrite iterate_app, IH by assumption. simpl.
    unfold f, Fft.checked.
    destruct (nth k (shape a) 0 <? 1)%nat eqn:E; [apply Nat.ltb_lt in E; lia|].
    unfold ndim. rewrite shape_transform_axes. fold (ndim a). rewrite Hk.
    reflexivity.
Qed.
End Iterate.

Lemma shape_dft (sgn : R) (a : ndarray C) (n k : nat) :
  shape (Fft.dft sgn a n k) = upd (shape a) k n.
Proof. reflexivity. Qed.

Lemma shape_idft_step (a : ndarray C) (n k : nat) :
  shape (Spec.idft_step a n k) = upd (shape a) k n.
Proof. reflexivity. Qed.

Lemma Forall_skipn_nth {A} (P : A -> Prop) (l : list A) (p : nat) (d : A) :
  Forall P (skipn p l) -> Forall (fun k => P (nth k l d)) (seq p (length l - p)).
Proof.
  intros HP. apply Forall_forall. intros k Hk. apply in_seq in Hk.
  rewrite Forall_forall in HP. apply HP.
  replace k with (p + (k - p))%nat by lia. rewrite <- nth_skipn.
  apply nth_In. rewrite length_skipn. lia.
Qed.

Lemma axes_nonempty_nth (s : list nat) (d : Z) :
  (1 <= d <= Z.of_nat (length s))%Z -> axes_nonempty s d ->
  Forall (fun k => 1 <= nth k s 0)%nat (Spec.last_axes (length s) (Z.to_nat d)).
Proof.
  intros Hd. unfold axes_nonempty. rewrite slice_from_last by exact Hd. intros HF.
  apply (Forall_skipn_nth _ _ _ 0%nat) in HF. unfold Spec.last_axes.
  replace (length s - (length s - Z.to_nat d))%nat with (Z.to_nat d) in HF by lia.
  exact HF.
Qed.

Lemma map_nth_last_axes (s : list nat) (dn : nat) :
  (dn <= length s)%nat ->
  map (fun k => nth k s 0%nat) (Spec.last_axes (length s) dn) = skipn (length s - dn) s.
Proof.
  intros Hd. unfold Spec.last_axes.
  apply (nth_ext _ _ 0%nat 0%nat).
  - rewrite length_map, length_seq, length_skipn. lia.
  - intros i Hi. rewrite length_map, length_seq in Hi.
    rewrite (nth_indep _ 0%nat (nth 0 s 0%nat)) by (rewrite length_map, length_seq; exact Hi).
    rewrite (map_nth (fun k => nth k s 0%nat)), seq_nth by exact Hi.
    now rewrite nth_skipn.
Qed.

(** [fftn] and [ifftn] over the last [d] axes of an array that has them,
    none of them empty. *)
Lemma fftn_last_axes (a : ndarray C) (d : Z) :
  (1 <= d <= Z.of_nat (ndim a))%Z -> axes_nonempty (shape a) d ->
  Fft.fftn a (Py.range (- d) 0)
  = Ok (Spec.dft_axes a (Spec.last_axes (ndim a) (Z.to_nat d))).
Proof.
  intros Hd Hne. unfold Fft.fftn, Fft.cook_nd_args.
  pose proof (index_range_last_axes (ndim a) d Hd) as HF.
  rewrite (take_axes _ _ _ HF). simpl.
  apply (iterate_transform_axes (Fft.dft (-1)) (shape_dft (-1)) a _ _ HF).
  now apply axes_nonempty_nth.
Qed.

Lemma ifftn_last_axes (a : ndarray C) (d : Z) :
  (1 <= d <= Z.of_nat (ndim a))%Z -> axes_nonempty (shape a) d ->
  Fft.ifftn a (Py.range (- d) 0)
  = Ok (Spec.idft_axes a (Spec.last_axes (ndim a) (Z.to_nat d))).
Proof.
  intros Hd Hne. unfold Fft.ifftn, Fft.cook_nd_args.
  pose proof (index_range_last_axes (ndim a) d Hd) as HF.
  rewrite (take_axes _ _ _ HF). simpl.
  apply (iterate_transform_axes Spec.idft_step shape_idft_step a _ _ HF).
  now apply axes_nonempty_nth.
Qed.

(** No axis is transformed when [dim] is not positive. *)
Lemma fftn_no_axes (a : ndarray C) (d : Z) :
  (d <= 0)%Z -> Fft.fftn a (Py.range (- d) 0) = Ok a.
Proof. intros Hd. now rewrite range_nonpos. Qed.

Lemma ifftn_no_axes (a : ndarray C) (d : Z) :
  (d <= 0)%Z -> Fft.ifftn a (Py.range (- d) 0) = Ok a.
Proof. intros Hd. now rewrite range_nonpos. Qed.

Lemma rfftn_no_axes (a : ndarray R) (d : Z) :
  (d <= 0)%Z -> Fft.rfftn a (Py.range (- d) 0) = Raise IndexError.
Proof. intros Hd. now rewrite range_nonpos. Qed.

Lemma irfftn_no_axes (a : ndarray C) (d : Z) (s : option (list nat)) :
  (d <= 0)%Z -> raises (Fft.irfftn a s (Py.range (- d) 0)).
Proof.
  intros Hd. rewrite range_nonpos by exact Hd. unfold Fft.irfftn, Fft.cook_nd_args.
  destruct s as [[|n s]|]; simpl.
  - now exists IndexError.
  - now exists ValueError.
  - now exists IndexError.
Qed.

(** More axes than the array has: the first of them is refused. *)
Lemma range_first (d : Z) :
  (1 <= d)%Z -> exists rest, Py.range (- d) 0 = (- d)%Z :: rest.
Proof.
  intros Hd. rewrite range_pos by exact Hd.
  destruct (Z.to_nat d) as [|m] eqn:E; [lia|].
  simpl. rewrite Z.add_0_r. eauto.
Qed.

Lemma take_too_many (s : list nat) (d : Z) :
  (Z.of_nat (length s) < d)%Z -> Fft.take s (Py.range (- d) 0) = Raise IndexError.
Proof.
  intros Hd. destruct (range_first d ltac:(lia)) as [rest ->]. simpl.
  now rewrite index_below by lia.
Qed.

Lemma checked_bad_axis {A B} (a : ndarray A) (n : nat) (ax : Z) (f : nat -> B) :
  Py.index (ndim a) ax = None -> raises (Fft.checked a n ax f).
Proof.
  intros Hax. unfold Fft.checked. destruct (n <? 1)%nat.
  - now exists ValueError.
  - rewrite Hax. now exists IndexError.
Qed.

Lemma irfftn_too_many (a : ndarray C) (d : Z) (s : option (list nat)) :
  (Z.of_nat (ndim a) < d)%Z -> raises (Fft.irfftn a s (Py.range (- d) 0)).
Proof.
  intros Hd. unfold Fft.irfftn, Fft.cook_nd_args. destruct s as [s|].
  - destruct (range_first d ltac:(lia)) as [rest ->].
    destruct (length s =? length (- d :: rest)%Z)%nat eqn:E; [|now exists ValueError].
    apply Nat.eqb_eq in E. destruct s as [|s0 s]; [discriminate|]. simpl.
    assert (Hbad : Py.index (ndim a) (- d) = None) by (apply index_below; lia).
    destruct (rev (combine s rest)) as [|[n ax] front] eqn:Er; simpl.
    + apply (checked_bad_axis a s0 (- d)%Z _ Hbad).
    + rewrite rev_app_distr. simpl.
      destruct (checked_bad_axis a s0 (- d)%Z
                  (fun k => Np.div_scalar (Fft.dft 1 a s0 k) (INR s0)) Hbad) as [e He].
      unfold Fft.ifft. rewrite He. simpl. now exists e.
  - unfold ndim in Hd. rewrite take_too_many by exact Hd. now exists IndexError.
Qed.

(* ================================================================= *)
(** ** The documented example of [ir2tf] *)

Lemma Ok_head_inj {A} (s s' : list nat) (u v : A) (l l' : list A) :
  Ok (mk_ndarray s (u :: l)) = Ok (mk_ndarray s' (v :: l')) -> u = v.
Proof. intros H. injection H as _ H _. exact H. Qed.

(** C2: [ir2tf(np.ones((2, 2)), (2, 2))], with the default [is_real], is
    exactly the array [[4, 0], [0, 0]]. *)
Theorem ir2tf_ones_2x2 :
  ir2tf ones22 [2; 2]%nat None true
  = Ok (mk_ndarray [2; 2]%nat [(4, 0); (0, 0); (0, 0); (0, 0)]).
Proof.
  run. rewrite !twiddle_0, !twiddle_fwd_2_1. crunch.
  repeat (f_equal; try lra).
Qed.

(** C1, as stated, fails: on the documented example the transfer function
    that [ir2tf] returns is not the unitary transform of the padded and
    rolled array (its first coefficient is 4, the unitary one is 2). *)
Lemma ir2tf_not_unitary :
  ir2tf ones22 [2; 2]%nat None true <> Spec.ir2tf_unitary ones22 [2; 2]%nat None true.
Proof.
  intros H. run_in H.
  rewrite !twiddle_0, !twiddle_fwd_2_1, sqrt_INR_4 in H. crunch_in H.
  apply Ok_head_inj in H. apply (f_equal fst) in H. simpl in H. lra.
Qed.

(* ================================================================= *)
(** ** The transforms on an invalid [dim] *)

(** C5, as stated, fails: [ufftn] accepts a [dim] that is not positive. *)
Lemma nonpositive_dim_accepted :
  ~ (forall (x : ndarray C) (dim : Z),
        (Z.of_nat (ndim x) < dim \/ dim <= 0)%Z -> raises (ufftn x (Some dim))).
Proof.
  intros H.
  destruct (H (mk_ndarray [1%nat] [(1, 0)]) 0%Z (or_intror (Z.le_refl 0))) as [e He].
  discriminate He.
Qed.

(** C5, amended: a [dim] larger than the rank makes the four transforms
    fail in the argument checks of [np.fft], before any sample is
    computed; a [dim] that is not positive makes the real transforms fail
    in the same place, while [ufftn] and [uifftn] transform no axis and
    only scale their input. *)
Theorem invalid_dim (x : ndarray C) (xr : ndarray R) (dim : Z)
    (shape_ : option (list nat)) :
  ((Z.of_nat (ndim x) < dim)%Z ->
     ufftn x (Some dim) = Raise IndexError
     /\ uifftn x (Some dim) = Raise IndexError
     /\ raises (uirfftn x (Some dim) shape_))
  /\ ((Z.of_nat (ndim xr) < dim)%Z -> urfftn xr (Some dim) = Raise IndexError)
  /\ ((dim <= 0)%Z ->
        ufftn x (Some dim) = Ok (Np.div_scalar x (norm_factor (shape x) dim))
        /\ uifftn x (Some dim) = Ok (Np.mul_scalar x (norm_factor (shape x) dim))
        /\ urfftn xr (Some dim) = Raise IndexError
        /\ raises (uirfftn x (Some dim) shape_)).
Proof.
  split; [|split].
  - intros Hd. unfold ufftn, uifftn, uirfftn, Fft.fftn, Fft.ifftn, Fft.cook_nd_args.
    simpl default_dim. unfold ndim in Hd. rewrite take_too_many by exact Hd.
    split; [reflexivity | split; [reflexivity|]].
    destruct (irfftn_too_many x dim shape_ Hd) as [e He]. rewrite He. now exists e.
  - intros Hd. unfold urfftn, Fft.rfftn, Fft.cook_nd_args. simpl default_dim.
    unfold ndim in Hd. now rewrite take_too_many by exact Hd.
  - intros Hd. unfold ufftn, uifftn, urfftn, uirfftn. simpl default_dim.
    rewrite fftn_no_axes, ifftn_no_axes, rfftn_no_axes by exact Hd.
    repeat split; try reflexivity.
    destruct (irfftn_no_axes x dim shape_ Hd) as [e He]. rewrite He. now exists e.
Qed.

Lemma invalid_dim_witness :
  (ufftn (mk_ndarray [1%nat] [(1, 0)]) (Some 2%Z) = Raise IndexError
   /\ uifftn (mk_ndarray [1%nat] [(1, 0)]) (Some 2%Z) = Raise IndexError
   /\ raises (uirfftn (mk_ndarray [1%nat] [(1, 0)]) (Some 2%Z) None))
  /\ urfftn (mk_ndarray [1%nat] [1]) (Some 2%Z) = Raise IndexError.
Proof.
  pose proof (invalid_dim (mk_ndarray [1%nat] [(1, 0)]) (mk_ndarray [1%nat] [1]) 2 None)
    as (H1 & H2 & _).
  split; [apply H1 | apply H2]; simpl; lia.
Defined.

(* ================================================================= *)
(** ** The buffer [ir2tf] transforms is real *)

(** C10: the transfer function depends on the real part of the impulse
    response only, also when [is_real] is false: two impulse responses
    with the same real parts have the same transfer function. *)
Theorem ir2tf_real_part_only (imp1 imp2 : ndarray C) (shape_ : list nat)
    (dim : option Z) (is_real : bool) :
  Np.astype_float imp1 = Np.astype_float imp2 ->
  ir2tf imp1 shape_ dim is_real = ir2tf imp2 shape_ dim is_real.
Proof.
  intros Hre.
  assert (Hs : shape imp1 = shape imp2) by exact (f_equal shape Hre).
  unfold ir2tf, ir2tf_dim, ir_padded_rolled, ndim. now rewrite Hre, Hs.
Qed.

Lemma ir2tf_real_part_only_witness :
  ir2tf (mk_ndarray [1%nat] [(1, 2)]) [1%nat] None false
  = ir2tf (mk_ndarray [1%nat] [(1, 5)]) [1%nat] None false.
Proof.
  apply (ir2tf_real_part_only (mk_ndarray [1%nat] [(1, 2)]) (mk_ndarray [1%nat] [(1, 5)])).
  reflexivity.
Defined.

(* ================================================================= *)
(** ** Zero padding and rolling *)

Lemma roll_source (i h n : nat) :
  (0 < n)%nat ->
  ((i + (n - Z.to_nat ((- Z.of_nat h) mod Z.of_nat n))) mod n
   = (i + h) mod n)%nat.
Proof.
  intros Hn.
  pose proof (Z.mod_pos_bound (- Z.of_nat h) (Z.of_nat n) ltac:(lia)) as Hr.
  set (r := Z.to_nat ((- Z.of_nat h) mod Z.of_nat n)).
  assert (Er : Z.of_nat r = ((- Z.of_nat h) mod Z.of_nat n)%Z) by (unfold r; lia).
  assert (E0 : ((Z.of_nat r + Z.of_nat h) mod Z.of_nat n = 0)%Z).
  { rewrite Er, Z.add_mod_idemp_l by lia.
    replace (- Z.of_nat h + Z.of_nat h)%Z with 0%Z by lia. apply Z.mod_0_l. lia. }
  apply Z.div_exact in E0; [|lia].
  set (q := ((Z.of_nat r + Z.of_nat h) / Z.of_nat n)%Z) in E0.
  assert (Hq : (0 <= q)%Z) by (apply Z.div_pos; lia).
  assert (E : (r + h = Z.to_nat q * n)%nat) by nia.
  rewrite <- (Nat.Div0.mod_add (i + (n - r)) (Z.to_nat q) n).
  rewrite <- (Nat.Div0.mod_add (i + h) 1 n).
  f_equal. lia.
Qed.

Lemma valid_index_nth (s idx : list nat) (k : nat) :
  valid_index s idx -> (k < length s)%nat -> (nth k idx 0 < nth k s 0)%nat.
Proof.
  unfold valid_index. intros H. revert k.
  induction H as [|i n idx s Hlt _ IH]; intros [|k] Hk; simpl in *; try lia.
  apply IH. lia.
Qed.

Lemma valid_index_upd (s idx : list nat) (k v : nat) :
  valid_index s idx -> (v < nth k s 0)%nat -> valid_index s (upd idx k v).
Proof.
  unfold valid_index. intros H. revert k.
  induction H as [|i n idx s Hlt Hv IH]; intros [|k] Hk; simpl in *.
  - constructor.
  - constructor.
  - constructor; assumption.
  - constructor; [assumption | now apply IH].
Qed.

Lemma tabulate_empty_axis {A} (s : list nat) (k : nat) (f g : list nat -> A) :
  (k < length s)%nat -> nth k s 0%nat = 0%nat -> tabulate s f = tabulate s g.
Proof.
  intros Hk Hz. apply tabulate_ext. intros idx Hv.
  pose proof (valid_index_nth s idx k Hv Hk). lia.
Qed.

(** [np.roll] along an axis of the array, as a function of the index. *)
Lemma roll_tabulate {A} `{Zero A} (s : list nat) (f : list nat -> A) (h k : nat) :
  (k < length s)%nat ->
  Np.roll (tabulate s f) (- Z.of_nat h) k
  = Ok (tabulate s (fun idx => f (upd idx k ((nth k idx 0 + h) mod nth k s 0)%nat))).
Proof.
  intros Hk. unfold Np.roll. rewrite shape_tabulate.
  rewrite (nth_error_nth' s 0%nat Hk).
  destruct (nth k s 0 =? 0)%nat eqn:E.
  - apply Nat.eqb_eq in E. f_equal. now apply (tabulate_empty_axis s k).
  - apply Nat.eqb_neq in E. f_equal. apply tabulate_ext. intros idx Hv.
    rewrite roll_source by lia.
    apply get_tabulate. apply valid_index_upd; [exact Hv|].
    apply Nat.mod_upper_bound. exact E.
Qed.

Lemma shifted_step (sizes t idx : list nat) (k : nat) :
  (k < length sizes)%nat -> (k < length t)%nat -> (k < length idx)%nat ->
  Spec.shifted (firstn k sizes) t
    (upd idx k ((nth k idx 0 + nth k sizes 0 / 2) mod nth k t 0)%nat)
  = Spec.shifted (firstn (S k) sizes) t idx.
Proof.
  revert sizes t idx.
  induction k as [|k IH]; intros [|sz sizes] [|n t] [|i idx] Hs Ht Hi;
    simpl in *; try lia.
  - destruct t; reflexivity.
  - f_equal. apply IH; lia.
Qed.

Lemma shifted_nil (t idx : list nat) : Spec.shifted [] t idx = idx.
Proof. reflexivity. Qed.

(** The loop of [ir2tf] when every axis is rolled. *)
Lemma roll_axes_all (s t : list nat) (P : list nat -> R) :
  length s = length t ->
  forall sizes k, skipn k s = sizes ->
    roll_axes 0 k sizes (tabulate t (fun idx => P (Spec.shifted (firstn k s) t idx)))
    = Ok (tabulate t (fun idx => P (Spec.shifted s t idx))).
Proof.
  intros Hlen. induction sizes as [|sz sizes IH]; intros k Hk; simpl.
  - assert (length s <= k)%nat.
    { apply (f_equal (@length nat)) in Hk. rewrite length_skipn in Hk. simpl in Hk. lia. }
    now rewrite firstn_all2 by assumption.
  - assert (Hlt : (k < length s)%nat).
    { apply (f_equal (@length nat)) in Hk. rewrite length_skipn in Hk. simpl in Hk. lia. }
    assert (Hsz : nth k s 0%nat = sz).
    { rewrite <- (Nat.add_0_r k), <- nth_skipn, Hk. reflexivity. }
    assert (Hrest : skipn (S k) s = sizes).
    { replace (S k) with (1 + k)%nat by lia. rewrite <- skipn_skipn, Hk. reflexivity. }
    destruct (0 <=? Z.of_nat k)%Z eqn:E; [|apply Z.leb_gt in E; lia].
    rewrite roll_tabulate by lia. simpl.
    rewrite <- (IH (S k) Hrest). f_equal. apply tabulate_ext. intros idx Hv.
    rewrite <- Hsz. f_equal. apply shifted_step; try lia.
    rewrite (valid_index_length _ _ Hv). lia.
Qed.

Lemma region_fit (s t : list nat) : Forall2 le s t -> Np.region s t = s.
Proof.
  induction 1 as [|a b s t Hab _ IH]; simpl.
  - reflexivity.
  - rewrite IH. f_equal. lia.
Qed.

Lemma broadcast_aligned_refl (s : list nat) : Np.broadcast_aligned s s = true.
Proof.
  induction s as [|v s IH]; simpl.
  - reflexivity.
  - now rewrite Nat.eqb_refl, IH.
Qed.

Lemma inside_valid (s idx : list nat) : Np.inside s idx = true -> valid_index s idx.
Proof.
  unfold valid_index. revert idx.
  induction s as [|n s IH]; intros [|i idx] Hin; simpl in *; try discriminate.
  - constructor.
  - apply andb_true_iff in Hin as [Hi Hin]. apply Nat.ltb_lt in Hi.
    constructor; [exact Hi | now apply IH].
Qed.

Lemma broadcast_aligned_index_inside (s idx : list nat) :
  Np.inside s idx = true -> Np.broadcast_aligned_index s idx = idx.
Proof.
  revert idx.
  induction s as [|n s IH]; intros [|i idx] Hin; simpl in *; try discriminate.
  - reflexivity.
  - apply andb_true_iff in Hin as [Hi Hin]. apply Nat.ltb_lt in Hi.
    rewrite (IH idx Hin). f_equal.
    destruct (n =? 1)%nat eqn:E; [apply Nat.eqb_eq in E; lia | reflexivity].
Qed.

Lemma inside_length (s idx : list nat) : Np.inside s idx = true -> length idx = length s.
Proof. intros Hin. apply valid_index_length. now apply inside_valid. Qed.

(** The assignment of [ir2tf] when the target shape has the rank of the
    impulse response and every extent fits: the impulse response lands at
    the origin corner of the zero array. *)
Lemma setitem_corner_fit (imp_resp : ndarray C) (t : list nat) :
  wf imp_resp -> Forall2 le (shape imp_resp) t ->
  Np.setitem_corner (Np.zeros t) (shape imp_resp) (Np.astype_float imp_resp)
  = Ok (tabulate t (Spec.corner imp_resp)).
Proof.
  intros Hw Hfit. unfold Np.setitem_corner, Np.zeros, ndim.
  rewrite shape_tabulate.
  pose proof (Forall2_length Hfit) as Hlen.
  destruct (length t <? length (shape imp_resp))%nat eqn:E;
    [apply Nat.ltb_lt in E; lia|].
  rewrite (region_fit _ _ Hfit).
  unfold Np.broadcastable, Np.astype_float. simpl shape.
  rewrite Nat.leb_refl, Nat.sub_diag. simpl skipn.
  rewrite broadcast_aligned_refl. simpl.
  f_equal. apply tabulate_ext. intros idx Hv. unfold Spec.corner.
  destruct (Np.inside (shape imp_resp) idx) eqn:Hin.
  - unfold Np.broadcast_index. simpl shape.
    rewrite (inside_length _ _ Hin), Nat.sub_diag. simpl skipn.
    rewrite (broadcast_aligned_index_inside _ _ Hin).
    apply get_amap; [exact Hw | now apply inside_valid].
  - rewrite get_tabulate by exact Hv. reflexivity.
Qed.

(* ================================================================= *)
(** ** [ir2tf] without batch axes *)

(** C9: when the impulse response has no batch axes ([dim] is its rank,
    which is also the length of the target shape) and fits in the target
    shape, [ir2tf] transforms the array whose sample at an index is the
    sample of the impulse response, stored at the origin corner of a zero
    array of the target shape, found [floor(extent / 2)] positions further
    (circularly) along every axis, [extent] being the extent of the
    impulse response on that axis. *)
Theorem ir2tf_non_batched (imp_resp : ndarray C) (t : list nat) (dim : option Z)
    (is_real : bool) :
  wf imp_resp ->
  Forall2 le (shape imp_resp) t ->
  dim = None \/ dim = Some (Z.of_nat (ndim imp_resp)) ->
  ir_padded_rolled imp_resp t (Z.of_nat (ndim imp_resp))
  = Ok (Spec.padded_rolled imp_resp t)
  /\ ir2tf imp_resp t dim is_real
     = if is_real
       then Fft.rfftn (Spec.padded_rolled imp_resp t)
              (Py.range (- Z.of_nat (ndim imp_resp)) 0)
       else Fft.fftn (Np.astype_complex (Spec.padded_rolled imp_resp t))
              (Py.range (- Z.of_nat (ndim imp_resp)) 0).
Proof.
  intros Hw Hfit Hdim.
  assert (Hpr : ir_padded_rolled imp_resp t (Z.of_nat (ndim imp_resp))
                = Ok (Spec.padded_rolled imp_resp t)).
  { unfold ir_padded_rolled. rewrite (setitem_corner_fit _ _ Hw Hfit). simpl.
    rewrite Z.sub_diag.
    apply (roll_axes_all (shape imp_resp) t (Spec.corner imp_resp)
             (Forall2_length Hfit) (shape imp_resp) 0%nat).
    reflexivity. }
  split; [exact Hpr|].
  unfold ir2tf.
  assert (Hd : ir2tf_dim imp_resp dim = Z.of_nat (ndim imp_resp)).
  { unfold ir2tf_dim. destruct Hdim as [-> | ->]; [reflexivity|].
    destruct (Z.of_nat (ndim imp_resp) =? 0)%Z; reflexivity. }
  rewrite Hd, Hpr. reflexivity.
Qed.

Lemma ir2tf_non_batched_witness :
  ir_padded_rolled (mk_ndarray [2%nat] [(1, 0); (2, 0)]) [3%nat] 1
  = Ok (Spec.padded_rolled (mk_ndarray [2%nat] [(1, 0); (2, 0)]) [3%nat])
  /\ ir2tf (mk_ndarray [2%nat] [(1, 0); (2, 0)]) [3%nat] None false
     = Fft.fftn (Np.astype_complex
                   (Spec.padded_rolled (mk_ndarray [2%nat] [(1, 0); (2, 0)]) [3%nat]))
         (Py.range (- 1) 0).
Proof.
  apply (ir2tf_non_batched (mk_ndarray [2%nat] [(1, 0); (2, 0)]) [3%nat] None false).
  - reflexivity.
  - repeat constructor.
  - now left.
Defined.

(** The roll direction on an example: [1, 2, 3] padded to length 5 and
    rolled by [-1] is [2, 3, 0, 0, 1]. *)
Example padded_rolled_1_2_3 :
  Spec.padded_rolled (mk_ndarray [3%nat] [(1, 0); (2, 0); (3, 0)]) [5%nat]
  = mk_ndarray [5%nat] [2; 3; 0; 0; 1].
Proof. reflexivity. Qed.

(* ================================================================= *)
(** ** The shape of the transfer function *)

Lemma combine_app_single {A B} (l1 : list A) (l2 : list B) (x : A) (y : B) :
  length l1 = length l2 -> combine (l1 ++ [x]) (l2 ++ [y]) = combine l1 l2 ++ [(x, y)].
Proof.
  revert l2. induction l1 as [|a l1 IH]; intros [|b l2] Hl; simpl in *; try discriminate.
  - reflexivity.
  - f_equal. apply IH. lia.
Qed.

Lemma fold_left_ext_in {A B} (F G : A -> B -> A) (l : list B) (x : A) :
  (forall k acc, In k l -> F acc k = G acc k) -> fold_left F l x = fold_left G l x.
Proof.
  revert x. induction l as [|k l IH]; intros x Hext; simpl.
  - reflexivity.
  - rewrite (Hext k x) by now left. apply IH. intros k' acc Hk'. apply Hext. now right.
Qed.

Section IterateForward.
Variable g : ndarray C -> nat -> nat -> ndarray C.
Hypothesis shape_g : forall a n k, shape (g a n k) = upd (shape a) k n.

Let f (a : ndarray C) (n : nat) (ax : Z) : result (ndarray C) :=
  Fft.checked a n ax (g a n).

Lemma shape_fold_axes (a : ndarray C) (ks : list nat) :
  shape (fold_left (fun acc k => g acc (nth k (shape a) 0%nat) k) ks a) = shape a.
Proof.
  assert (G : forall acc, shape acc = shape a ->
            shape (fold_left (fun acc k => g acc (nth k (shape a) 0%nat) k) ks acc)
            = shape a).
  { induction ks as [|k ks IH]; intros acc Hacc; simpl.
    - exact Hacc.
    - apply IH. rewrite shape_g, Hacc. apply upd_same. }
  now apply G.
Qed.

Lemma iterate_fold_axes (a : ndarray C) (axes : list Z) (ks : list nat) :
  Forall2 (fun ax k => Py.index (ndim a) ax = Some k) axes ks ->
  Forall (fun k => 1 <= nth k (shape a) 0)%nat ks ->
  Fft.iterate f (combine (map (fun k => nth k (shape a) 0%nat) ks) axes) a
  = Ok (fold_left (fun acc k => g acc (nth k (shape a) 0%nat) k) ks a).
Proof.
  intros HF Hn.
  assert (G : forall acc, shape acc = shape a ->
            Fft.iterate f (combine (map (fun k => nth k (shape a) 0%nat) ks) axes) acc
            = Ok (fold_left (fun acc k => g acc (nth k (shape a) 0%nat) k) ks acc)).
  { induction HF as [|ax k axes ks Hk _ IH]; intros acc Hacc; simpl.
    - reflexivity.
    - inversion Hn as [|? ? Hk1 Hks]; subst.
      unfold f at 1, Fft.checked.
      destruct (nth k (shape a) 0 <? 1)%nat eqn:E; [apply Nat.ltb_lt in E; lia|].
      unfold ndim. rewrite Hacc. fold (ndim a). rewrite Hk. simpl.
      apply IH; [exact Hks|]. rewrite shape_g, Hacc. apply upd_same. }
  now apply G.
Qed.
End IterateForward.

(** [rfftn] over the last [d] axes of a real array that has them, none of
    them empty: the real transform along the last axis, then the complex
    transforms along the others, the first of them first. *)
Lemma rfftn_last_axes (a : ndarray R) (d : Z) :
  (1 <= d <= Z.of_nat (ndim a))%Z -> axes_nonempty (shape a) d ->
  Fft.rfftn a (Py.range (- d) 0)
  = Ok (fold_left (fun acc k => Fft.dft (-1) acc (nth k (shape a) 0%nat) k)
          (seq (ndim a - Z.to_nat d) (Z.to_nat d - 1))
          (Fft.rdft a (nth (ndim a - 1) (shape a) 0%nat) (ndim a - 1))).
Proof.
  intros Hd Hne. unfold Fft.rfftn, Fft.cook_nd_args.
  pose proof (index_range_last_axes (ndim a) d Hd) as HF.
  pose proof (axes_nonempty_nth (shape a) d Hd Hne) as Hn. fold (ndim a) in Hn.
  unfold Spec.last_axes in HF, Hn.
  destruct (Z.to_nat d) as [|m] eqn:Edn; [lia|].
  rewrite seq_S in HF, Hn.
  replace (ndim a - S m + m)%nat with (ndim a - 1)%nat in HF, Hn by lia.
  replace (S m - 1)%nat with m by lia.
  apply Forall2_app_inv_r in HF as (front & lastax & HF1 & HF2 & Eaxes).
  inversion HF2 as [|ax ? ? ? Hax Hnil]; subst. inversion Hnil; subst.
  apply Forall_app in Hn as [Hn1 Hn2]. inversion Hn2 as [|? ? Hlast _]; subst.
  rewrite Eaxes.
  assert (HFall : Forall2 (fun ax k => Py.index (length (shape a)) ax = Some k)
                    (front ++ [ax]) (seq (ndim a - S m) m ++ [(ndim a - 1)%nat])).
  { apply Forall2_app; [exact HF1 | now constructor]. }
  rewrite (take_axes _ _ _ HFall). simpl. rewrite map_app. simpl map.
  rewrite combine_app_single
    by (rewrite length_map, length_seq; symmetry; rewrite (Forall2_length HF1);
        apply length_seq).
  rewrite rev_app_distr. simpl. unfold Fft.rfft, Fft.checked.
  destruct (nth (ndim a - 1) (shape a) 0 <? 1)%nat eqn:E; [apply Nat.ltb_lt in E; lia|].
  rewrite Hax. simpl. rewrite rev_involutive.
  set (a' := Fft.rdft a (nth (ndim a - 1) (shape a) 0%nat) (ndim a - 1)).
  assert (Hsh : forall k, In k (seq (ndim a - S m) m) ->
                 nth k (shape a') 0%nat = nth k (shape a) 0%nat).
  { intros k Hk. apply in_seq in Hk. unfold a', Fft.rdft. rewrite shape_tabulate.
    apply nth_upd_other. lia. }
  rewrite <- (map_ext_in _ _ _ Hsh).
  rewrite (iterate_fold_axes (Fft.dft (-1)) (shape_dft (-1)) a').
  - f_equal. apply fold_left_ext_in. intros k acc Hk. now rewrite (Hsh k Hk).
  - unfold ndim. replace (length (shape a')) with (length (shape a)); [exact HF1|].
    unfold a', Fft.rdft. rewrite shape_tabulate. symmetry. apply length_upd.
  - apply Forall_forall. intros k Hk. rewrite (Hsh k Hk).
    rewrite Forall_forall in Hn1. now apply Hn1.
Qed.

Lemma roll_ok {A} `{Zero A} (a a' : ndarray A) (shift : Z) (k : nat) :
  Np.roll a shift k = Ok a' -> wf a -> wf a' /\ shape a' = shape a.
Proof.
  unfold Np.roll. destruct (nth_error (shape a) k) as [n|]; [|discriminate].
  destruct (n =? 0)%nat; intros [= <-] Hw.
  - now split.
  - split; [apply wf_tabulate | reflexivity].
Qed.

Lemma roll_succeeds {A} `{Zero A} (a : ndarray A) (shift : Z) (k : nat) :
  (k < ndim a)%nat -> exists a', Np.roll a shift k = Ok a'.
Proof.
  intros Hk. unfold Np.roll. rewrite (nth_error_nth' (shape a) 0%nat Hk).
  destruct (nth k (shape a) 0 =? 0)%nat; eauto.
Qed.

Lemma roll_axes_ok (first : Z) (sizes : list nat) :
  forall (k : nat) (a a' : ndarray R),
    roll_axes first k sizes a = Ok a' -> wf a -> wf a' /\ shape a' = shape a.
Proof.
  induction sizes as [|sz sizes IH]; intros k a a' Hr Hw; cbn [roll_axes] in Hr.
  - injection Hr as <-. now split.
  - destruct (first <=? Z.of_nat k)%Z.
    + destruct (Np.roll a (- Z.of_nat (sz / 2)) k) as [a1|e] eqn:E1; [|simpl in Hr; discriminate].
      simpl in Hr. destruct (roll_ok _ _ _ _ E1 Hw) as [Hw1 Hs1].
      destruct (IH _ _ _ Hr Hw1) as [Hw' Hs']. split; [exact Hw' | congruence].
    + simpl in Hr. exact (IH _ _ _ Hr Hw).
Qed.

Lemma roll_axes_succeeds (first : Z) (sizes : list nat) :
  forall (k : nat) (a : ndarray R),
    wf a -> (k + length sizes <= ndim a)%nat ->
    exists a', roll_axes first k sizes a = Ok a'.
Proof.
  induction sizes as [|sz sizes IH]; intros k a Hw Hk; cbn [roll_axes length] in *.
  - eauto.
  - destruct (first <=? Z.of_nat k)%Z.
    + destruct (roll_succeeds a (- Z.of_nat (sz / 2)) k ltac:(lia)) as [a1 E1].
      rewrite E1. simpl. destruct (roll_ok _ _ _ _ E1 Hw) as [Hw1 Hs1].
      apply IH; [exact Hw1|]. unfold ndim in *. rewrite Hs1. lia.
    + simpl. apply IH; [exact Hw | lia].
Qed.

Lemma setitem_corner_ok (a a' : ndarray R) (stops : list nat) (v : ndarray R) :
  Np.setitem_corner a stops v = Ok a' -> wf a' /\ shape a' = shape a.
Proof.
  unfold Np.setitem_corner. destruct (ndim a <? length stops)%nat; [discriminate|].
  destruct (Np.broadcastable _ _); intros [= <-].
  split; [apply wf_tabulate | reflexivity].
Qed.

(** What [ir2tf] transforms, whenever it gets that far, is an array of
    the target shape. *)
Lemma ir_padded_rolled_ok (imp_resp : ndarray C) (t : list nat) (d : Z)
    (irpadded : ndarray R) :
  ir_padded_rolled imp_resp t d = Ok irpadded -> wf irpadded /\ shape irpadded = t.
Proof.
  unfold ir_padded_rolled.
  destruct (Np.setitem_corner _ _ _) as [a1|e] eqn:E1; [|simpl; discriminate]. simpl.
  destruct (setitem_corner_ok _ _ _ _ E1) as [Hw1 Hs1]. intros Hr.
  destruct (roll_axes_ok _ _ _ _ _ Hr Hw1) as [Hw Hs]. split; [exact Hw|].
  rewrite Hs, Hs1. reflexivity.
Qed.

Lemma ir_padded_rolled_fit (imp_resp : ndarray C) (t : list nat) (d : Z) :
  wf imp_resp -> Forall2 le (shape imp_resp) t ->
  exists irpadded, ir_padded_rolled imp_resp t d = Ok irpadded.
Proof.
  intros Hw Hfit. unfold ir_padded_rolled.
  rewrite (setitem_corner_fit _ _ Hw Hfit). simpl.
  apply roll_axes_succeeds; [apply wf_tabulate|].
  unfold ndim. rewrite shape_tabulate, (Forall2_length Hfit). simpl. lia.
Qed.

Lemma rfftn_shape (a : ndarray R) (d : Z) :
  (1 <= d <= Z.of_nat (ndim a))%Z -> axes_nonempty (shape a) d ->
  exists y, Fft.rfftn a (Py.range (- d) 0) = Ok y
            /\ shape y = upd (shape a) (ndim a - 1)
                           (nth (ndim a - 1) (shape a) 0 / 2 + 1)%nat.
Proof.
  intros Hd Hne. rewrite rfftn_last_axes by assumption. eexists. split; [reflexivity|].
  set (a' := Fft.rdft a (nth (ndim a - 1) (shape a) 0%nat) (ndim a - 1)).
  rewrite (fold_left_ext_in _
             (fun acc k => Fft.dft (-1) acc (nth k (shape a') 0%nat) k)).
  - now rewrite (shape_fold_axes (Fft.dft (-1)) (shape_dft (-1))).
  - intros k acc Hk. apply in_seq in Hk. f_equal.
    unfold a', Fft.rdft. rewrite shape_tabulate. symmetry. apply nth_upd_other. lia.
Qed.

(* ================================================================= *)
(** ** [ir2tf] with batch axes *)

(** C4, as stated, fails: with a batch axis in front of a one-dimensional
    impulse response and a target shape that covers the transform axis
    only, the zero array has the target shape alone and the assignment of
    the impulse response is refused. *)
Lemma ir2tf_batch_axes_not_prefixed :
  ir2tf (mk_ndarray [1; 1]%nat [(1, 0)]) [1%nat] (Some 1%Z) false = Raise IndexError.
Proof. reflexivity. Qed.

(** C4, amended: the zero array has the target shape itself, so the
    target shape has to name the batch axes too; when it has the rank of
    the impulse response, every extent fits and the transformed axes are
    not empty, the transfer function has the target shape (its batch axes
    are those of the target shape), the last axis being [n / 2 + 1] long
    instead of [n] when [is_real] holds. *)
Theorem ir2tf_shape (imp_resp : ndarray C) (t : list nat) (d : Z) (is_real : bool) :
  wf imp_resp ->
  Forall2 le (shape imp_resp) t ->
  (1 <= d <= Z.of_nat (ndim imp_resp))%Z ->
  axes_nonempty t d ->
  exists irpadded out,
    ir_padded_rolled imp_resp t d = Ok irpadded
    /\ shape irpadded = t
    /\ ir2tf imp_resp t (Some d) is_real = Ok out
    /\ shape out = if is_real
                   then upd t (length t - 1) (nth (length t - 1) t 0 / 2 + 1)%nat
                   else t.
Proof.
  intros Hw Hfit Hd Hne.
  destruct (ir_padded_rolled_fit imp_resp t d Hw Hfit) as [irp Hirp].
  destruct (ir_padded_rolled_ok _ _ _ _ Hirp) as [Hwp Hsp].
  assert (Hrank : ndim irp = ndim imp_resp).
  { unfold ndim. rewrite Hsp. symmetry. exact (Forall2_length Hfit). }
  exists irp. unfold ir2tf, ir2tf_dim.
  destruct (d =? 0)%Z eqn:E0; [apply Z.eqb_eq in E0; lia|].
  rewrite Hirp. cbn [Py.bind]. destruct is_real.
  - destruct (rfftn_shape irp d) as (y & Hy & Hsy);
      [rewrite Hrank; exact Hd | rewrite Hsp; exact Hne |].
    exists y. rewrite Hy. repeat split; [exact Hsp|].
    rewrite Hsy. unfold ndim. now rewrite Hsp.
  - rewrite fftn_last_axes.
    + eexists. repeat split; [exact Hsp|].
      unfold Spec.dft_axes. rewrite (shape_transform_axes _ (shape_dft (-1))).
      exact Hsp.
    + unfold ndim, Np.astype_complex. simpl. fold (ndim irp). lia.
    + unfold Np.astype_complex. simpl. now rewrite Hsp.
Qed.

Lemma ir2tf_shape_witness :
  exists irpadded out,
    ir_padded_rolled (mk_ndarray [2; 1]%nat [(1, 0); (2, 0)]) [3; 2]%nat 1 = Ok irpadded
    /\ shape irpadded = [3; 2]%nat
    /\ ir2tf (mk_ndarray [2; 1]%nat [(1, 0); (2, 0)]) [3; 2]%nat (Some 1%Z) false = Ok out
    /\ shape out = [3; 2]%nat.
Proof.
  apply (ir2tf_shape (mk_ndarray [2; 1]%nat [(1, 0); (2, 0)]) [3; 2]%nat 1 false).
  - reflexivity.
  - repeat constructor.
  - simpl. lia.
  - repeat constructor.
Defined.

(* ================================================================= *)
(** ** The quadratic norm *)

Lemma Rsum_ext (n : nat) (f g : nat -> R) :
  (forall i, (i < n)%nat -> f i = g i) -> Rsum n f = Rsum n g.
Proof.
  intros Hfg. unfold Rsum. f_equal. apply map_ext_in.
  intros i Hi. apply in_seq in Hi. apply Hfg. lia.
Qed.

Lemma valid_index_app (s1 s2 i1 i2 : list nat) :
  valid_index s1 i1 -> valid_index s2 i2 -> valid_index (s1 ++ s2) (i1 ++ i2).
Proof. unfold valid_index. apply Forall2_app. Qed.

Lemma valid_index_single (n j : nat) : (j < n)%nat -> valid_index [n] [j].
Proof. intros Hj. repeat constructor. exact Hj. Qed.

Lemma sum_last_app (x : ndarray R) (pre : list nat) (n : nat) :
  shape x = pre ++ [n] ->
  Np.sum_last x = Ok (tabulate pre (fun idx => Rsum n (fun j => get x (idx ++ [j])))).
Proof.
  intros Hs. unfold Np.sum_last. rewrite Hs, rev_app_distr. simpl rev. cbn iota.
  now rewrite removelast_last.
Qed.

Lemma getitem_last0_app {A} `{Zero A} (x : ndarray A) (pre : list nat) (n : nat) :
  shape x = pre ++ [n] -> (1 <= n)%nat ->
  Np.getitem_last0 x = Ok (tabulate pre (fun idx => get x (idx ++ [0%nat]))).
Proof.
  intros Hs Hn. unfold Np.getitem_last0. rewrite Hs, rev_app_distr. simpl rev.
  destruct n as [|n]; [lia|]. cbn iota. now rewrite removelast_last.
Qed.

Lemma sub_tabulate (s : list nat) (f g : list nat -> R) :
  Np.sub (tabulate s f) (tabulate s g) = Ok (tabulate s (fun idx => f idx - g idx)).
Proof.
  unfold Np.sub, tabulate. simpl.
  destruct (list_eq_dec Nat.eq_dec s s) as [_|Hne]; [|congruence].
  f_equal. f_equal. induction (indices s) as [|i l IH]; simpl.
  - reflexivity.
  - now rewrite IH.
Qed.

Lemma shape_at_last {A} (a : ndarray A) (pre : list nat) (n : nat) :
  shape a = pre ++ [n] -> Np.shape_at a (-1) = Ok n.
Proof.
  intros Hs. unfold Np.shape_at, ndim. rewrite Hs, length_app. simpl length.
  rewrite index_negative by lia.
  replace (Z.to_nat (-1 + Z.of_nat (length pre + 1))) with (length pre) by lia.
  now rewrite nth_middle.
Qed.

Lemma shape_at_last2 {A} (a : ndarray A) (pre : list nat) (m n : nat) :
  shape a = pre ++ [m; n] -> Np.shape_at a (-2) = Ok m.
Proof.
  intros Hs. unfold Np.shape_at, ndim. rewrite Hs, length_app. simpl length.
  rewrite index_negative by lia.
  replace (Z.to_nat (-2 + Z.of_nat (length pre + 2))) with (length pre) by lia.
  now rewrite nth_middle.
Qed.

Lemma get_square_abs (a : ndarray C) (idx : list nat) :
  wf a -> valid_index (shape a) idx ->
  get (Np.square (Np.abs a)) idx = Cabs (get a idx) * Cabs (get a idx).
Proof.
  intros Hw Hv. unfold Np.square, Np.abs. rewrite amap_amap.
  now rewrite get_amap.
Qed.

(** The sum of the squared magnitudes over the last two axes. *)
Lemma quad_total (a : ndarray C) (batch : list nat) (m n : nat) :
  wf a -> shape a = batch ++ [m; n] ->
  (rows <- Np.sum_last (Np.square (Np.abs a)) ;; Np.sum_last rows)
  = Ok (tabulate batch (fun b =>
          Rsum m (fun i => Rsum n (fun j =>
            Cabs (get a (b ++ [i; j])) * Cabs (get a (b ++ [i; j])))))).
Proof.
  intros Hw Hs.
  assert (Hs' : shape a = (batch ++ [m]) ++ [n]) by (now rewrite <- app_assoc).
  rewrite (sum_last_app _ (batch ++ [m]) n) by exact Hs'. cbn [Py.bind].
  rewrite (sum_last_app _ batch m) by reflexivity.
  f_equal. apply tabulate_ext. intros b Hb. apply Rsum_ext. intros i Hi.
  rewrite get_tabulate
    by (apply valid_index_app; [exact Hb | now apply valid_index_single]).
  apply Rsum_ext. intros j Hj. rewrite get_square_abs.
  - now rewrite <- app_assoc.
  - exact Hw.
  - rewrite Hs'.
    repeat apply valid_index_app; try assumption; now apply valid_index_single.
Qed.

(** The sum of the squared magnitudes of the samples at index 0 of the
    last axis. *)
Lemma quad_first_column (a : ndarray C) (batch : list nat) (m n : nat) :
  wf a -> shape a = batch ++ [m; n] -> (1 <= n)%nat ->
  (first <- Np.getitem_last0 a ;; Np.sum_last (Np.square (Np.abs first)))
  = Ok (tabulate batch (fun b =>
          Rsum m (fun i =>
            Cabs (get a (b ++ [i; 0%nat])) * Cabs (get a (b ++ [i; 0%nat]))))).
Proof.
  intros Hw Hs Hn.
  assert (Hs' : shape a = (batch ++ [m]) ++ [n]) by (now rewrite <- app_assoc).
  rewrite (getitem_last0_app a (batch ++ [m]) n Hs' Hn). cbn [Py.bind].
  rewrite (sum_last_app _ batch m) by reflexivity.
  f_equal. apply tabulate_ext. intros b Hb. apply Rsum_ext. intros i Hi.
  rewrite get_square_abs.
  - rewrite get_tabulate
      by (apply valid_index_app; [exact Hb | now apply valid_index_single]).
    now rewrite <- app_assoc.
  - apply wf_tabulate.
  - rewrite shape_tabulate.
    apply valid_index_app; [exact Hb | now apply valid_index_single].
Qed.

Lemma bind_assoc {A B D} (m : result A) (f : A -> result B) (g : B -> result D) :
  (y <- (x <- m ;; f x) ;; g y) = (x <- m ;; y <- f x ;; g y).
Proof. destruct m; reflexivity. Qed.

(** [image_quad_norm] on last axes of equal lengths, and on last axes of
    different lengths. *)
Lemma image_quad_norm_full (a : ndarray C) (batch : list nat) (n : nat) :
  wf a -> shape a = batch ++ [n; n] ->
  image_quad_norm a
  = Ok (tabulate batch (fun b =>
          Rsum n (fun i => Rsum n (fun j =>
            Cabs (get a (b ++ [i; j])) * Cabs (get a (b ++ [i; j])))))).
Proof.
  intros Hw Hs. unfold image_quad_norm.
  assert (Hs' : shape a = (batch ++ [n]) ++ [n]) by (now rewrite <- app_assoc).
  rewrite (shape_at_last a _ n Hs'), (shape_at_last2 a _ n n Hs). cbn [Py.bind].
  rewrite Nat.eqb_refl. cbn [negb]. now apply quad_total.
Qed.

Lemma image_quad_norm_compact (a : ndarray C) (batch : list nat) (m n : nat) :
  wf a -> shape a = batch ++ [m; n] -> n <> m -> (1 <= n)%nat ->
  image_quad_norm a
  = Ok (tabulate batch (fun b =>
          2 * Rsum m (fun i => Rsum n (fun j =>
                Cabs (get a (b ++ [i; j])) * Cabs (get a (b ++ [i; j]))))
          - Rsum m (fun i =>
              Cabs (get a (b ++ [i; 0%nat])) * Cabs (get a (b ++ [i; 0%nat]))))).
Proof.
  intros Hw Hs Hne Hn. unfold image_quad_norm.
  assert (Hs' : shape a = (batch ++ [m]) ++ [n]) by (now rewrite <- app_assoc).
  rewrite (shape_at_last a _ n Hs'), (shape_at_last2 a _ m n Hs). cbn [Py.bind].
  destruct (n =? m)%nat eqn:E; [apply Nat.eqb_eq in E; contradiction|]. cbn [negb].
  pose proof (quad_total a batch m n Hw Hs) as Ht.
  destruct (Np.sum_last (Np.square (Np.abs a))) as [rows|e]; [|discriminate].
  cbn [Py.bind] in Ht |- *. rewrite Ht. cbn [Py.bind].
  pose proof (quad_first_column a batch m n Hw Hs Hn) as Hc.
  destruct (Np.getitem_last0 a) as [first|e]; [|discriminate].
  cbn [Py.bind] in Hc |- *. rewrite Hc. cbn [Py.bind].
  unfold Np.scalar_rmul. rewrite amap_tabulate. apply sub_tabulate.
Qed.

(** C6: on an array whose last two axes have the lengths [m] and [n],
    [image_quad_norm] returns one value for every index [b] of the other
    axes: when [n] and [m] differ, twice the sum of the squared magnitudes
    over the last two axes minus the sum of the squared magnitudes of the
    samples at index 0 of the last axis; when they are equal, the sum of
    the squared magnitudes over the last two axes. *)
Theorem image_quad_norm_cases (a : ndarray C) (batch : list nat) (m n : nat) :
  wf a ->
  shape a = batch ++ [m; n] ->
  n = m \/ (1 <= n)%nat ->
  image_quad_norm a
  = Ok (tabulate batch (fun b =>
          if (n =? m)%nat
          then Rsum m (fun i => Rsum n (fun j =>
                 Cabs (get a (b ++ [i; j])) * Cabs (get a (b ++ [i; j]))))
          else 2 * Rsum m (fun i => Rsum n (fun j =>
                     Cabs (get a (b ++ [i; j])) * Cabs (get a (b ++ [i; j]))))
               - Rsum m (fun i =>
                   Cabs (get a (b ++ [i; 0%nat])) * Cabs (get a (b ++ [i; 0%nat]))))).
Proof.
  intros Hw Hs Hn. destruct (n =? m)%nat eqn:E.
  - apply Nat.eqb_eq in E. subst m. now apply image_quad_norm_full.
  - apply Nat.eqb_neq in E. destruct Hn as [Hn|Hn]; [contradiction|].
    now apply image_quad_norm_compact.
Qed.

Lemma image_quad_norm_cases_witness :
  image_quad_norm (mk_ndarray [1; 2]%nat [(3, 4); (0, 1)])
  = Ok (tabulate [] (fun b =>
          if (2 =? 1)%nat
          then Rsum 1 (fun i => Rsum 2 (fun j =>
                 Cabs (get (mk_ndarray [1; 2]%nat [(3, 4); (0, 1)]) (b ++ [i; j]))
                 * Cabs (get (mk_ndarray [1; 2]%nat [(3, 4); (0, 1)]) (b ++ [i; j]))))
          else 2 * Rsum 1 (fun i => Rsum 2 (fun j =>
                 Cabs (get (mk_ndarray [1; 2]%nat [(3, 4); (0, 1)]) (b ++ [i; j]))
                 * Cabs (get (mk_ndarray [1; 2]%nat [(3, 4); (0, 1)]) (b ++ [i; j]))))
               - Rsum 1 (fun i =>
                   Cabs (get (mk_ndarray [1; 2]%nat [(3, 4); (0, 1)]) (b ++ [i; 0%nat]))
                   * Cabs (get (mk_ndarray [1; 2]%nat [(3, 4); (0, 1)]) (b ++ [i; 0%nat]))))).
Proof.
  apply (image_quad_norm_cases (mk_ndarray [1; 2]%nat [(3, 4); (0, 1)]) [] 1 2).
  - reflexivity.
  - reflexivity.
  - right. lia.
Defined.

(* ================================================================= *)
(** ** When the transforms succeed *)

Lemma checked_ok {A B} (a : ndarray A) (n : nat) (ax : Z) (f : nat -> B) (y : B) :
  Fft.checked a n ax f = Ok y -> (1 <= n)%nat.
Proof.
  unfold Fft.checked. destruct (n <? 1)%nat eqn:E; [discriminate|].
  apply Nat.ltb_ge in E. intros _. exact E.
Qed.

Lemma iterate_ok_lengths (g : ndarray C -> nat -> nat -> ndarray C)
    (l : list (nat * Z)) :
  forall (a y : ndarray C),
    Fft.iterate (fun a n ax => Fft.checked a n ax (g a n)) l a = Ok y ->
    Forall (fun p => 1 <= fst p)%nat l.
Proof.
  induction l as [|[n ax] l IH]; intros a y Hy; simpl in Hy.
  - constructor.
  - destruct (Fft.checked a n ax (g a n)) as [a1|e] eqn:E1; [|discriminate].
    constructor; [exact (checked_ok _ _ _ _ _ E1) | exact (IH _ _ Hy)].
Qed.

Lemma Forall_combine_fst {A B} (P : A -> Prop) (l1 : list A) (l2 : list B) :
  length l1 = length l2 -> Forall (fun p => P (fst p)) (combine l1 l2) -> Forall P l1.
Proof.
  revert l2. induction l1 as [|x l1 IH]; intros [|y l2] Hl HF; simpl in *;
    try discriminate.
  - constructor.
  - inversion HF; subst. constructor; [assumption|]. apply (IH l2); [lia | assumption].
Qed.

Lemma take_last_axes (s : list nat) (d : Z) :
  (1 <= d <= Z.of_nat (length s))%Z ->
  Fft.take s (Py.range (- d) 0) = Ok (Py.slice_from (- d) s).
Proof.
  intros Hd. rewrite (take_axes _ _ _ (index_range_last_axes (length s) d Hd)).
  rewrite map_nth_last_axes by lia. now rewrite slice_from_last.
Qed.

Lemma length_range (d : Z) : length (Py.range (- d) 0) = Z.to_nat d.
Proof.
  unfold Py.range. rewrite length_map, length_seq. f_equal. lia.
Qed.

Lemma length_slice_from_last (A : Type) (l : list A) (d : Z) :
  (1 <= d <= Z.of_nat (length l))%Z -> length (Py.slice_from (- d) l) = Z.to_nat d.
Proof.
  intros Hd. rewrite slice_from_last by exact Hd. rewrite length_skipn. lia.
Qed.

(** A transform over the last [d] axes that returns has either no axis to
    transform, or [d] axes of the array, none of them empty. *)
Lemma iterate_range_ok (g : ndarray C -> nat -> nat -> ndarray C) (a y : ndarray C) (d : Z) :
  (1 <= d <= Z.of_nat (ndim a))%Z ->
  Fft.iterate (fun a n ax => Fft.checked a n ax (g a n))
    (rev (combine (Py.slice_from (- d) (shape a)) (Py.range (- d) 0))) a = Ok y ->
  axes_nonempty (shape a) d.
Proof.
  intros Hd Hy. apply iterate_ok_lengths in Hy. apply Forall_rev in Hy.
  rewrite rev_involutive in Hy. unfold axes_nonempty.
  refine (Forall_combine_fst _ _ _ _ Hy).
  rewrite length_range. now apply length_slice_from_last.
Qed.

Lemma fftn_ok (a y : ndarray C) (d : Z) :
  Fft.fftn a (Py.range (- d) 0) = Ok y ->
  ((d <= 0)%Z /\ y = a)
  \/ ((1 <= d <= Z.of_nat (ndim a))%Z /\ axes_nonempty (shape a) d
      /\ y = Spec.dft_axes a (Spec.last_axes (ndim a) (Z.to_nat d))).
Proof.
  intros Hy. destruct (Z_le_gt_dec d 0) as [Hd|Hd].
  - left. rewrite fftn_no_axes in Hy by exact Hd. split; [exact Hd | congruence].
  - right. destruct (Z_le_gt_dec d (Z.of_nat (ndim a))) as [Hd2|Hd2].
    + assert (Hne : axes_nonempty (shape a) d).
      { unfold Fft.fftn, Fft.cook_nd_args in Hy.
        rewrite take_last_axes in Hy by (fold (ndim a); lia). simpl in Hy.
        apply (iterate_range_ok (Fft.dft (-1)) a y d ltac:(lia) Hy). }
      rewrite fftn_last_axes in Hy by (assumption || lia).
      repeat split; (lia || assumption || congruence).
    + unfold Fft.fftn, Fft.cook_nd_args in Hy.
      rewrite take_too_many in Hy by (fold (ndim a); lia). discriminate.
Qed.

Lemma ifftn_ok (a y : ndarray C) (d : Z) :
  Fft.ifftn a (Py.range (- d) 0) = Ok y ->
  ((d <= 0)%Z /\ y = a)
  \/ ((1 <= d <= Z.of_nat (ndim a))%Z /\ axes_nonempty (shape a) d
      /\ y = Spec.idft_axes a (Spec.last_axes (ndim a) (Z.to_nat d))).
Proof.
  intros Hy. destruct (Z_le_gt_dec d 0) as [Hd|Hd].
  - left. rewrite ifftn_no_axes in Hy by exact Hd. split; [exact Hd | congruence].
  - right. destruct (Z_le_gt_dec d (Z.of_nat (ndim a))) as [Hd2|Hd2].
    + assert (Hne : axes_nonempty (shape a) d).
      { unfold Fft.ifftn, Fft.cook_nd_args in Hy.
        rewrite take_last_axes in Hy by (fold (ndim a); lia). simpl in Hy.
        apply (iterate_range_ok Spec.idft_step a y d ltac:(lia) Hy). }
      rewrite ifftn_last_axes in Hy by (assumption || lia).
      repeat split; (lia || assumption || congruence).
    + unfold Fft.ifftn, Fft.cook_nd_args in Hy.
      rewrite take_too_many in Hy by (fold (ndim a); lia). discriminate.
Qed.

Lemma rfftn_ok (a : ndarray R) (y : ndarray C) (d : Z) :
  Fft.rfftn a (Py.range (- d) 0) = Ok y ->
  (1 <= d <= Z.of_nat (ndim a))%Z /\ axes_nonempty (shape a) d.
Proof.
  intros Hy. destruct (Z_le_gt_dec d 0) as [Hd|Hd].
  - rewrite rfftn_no_axes in Hy by exact Hd. discriminate.
  - destruct (Z_le_gt_dec d (Z.of_nat (ndim a))) as [Hd2|Hd2].
    + split; [lia|].
      unfold Fft.rfftn, Fft.cook_nd_args in Hy.
      rewrite take_last_axes in Hy by (fold (ndim a); lia). simpl in Hy.
      assert (Hlen : length (Py.slice_from (- d) (shape a)) = length (Py.range (- d) 0)).
      { rewrite length_range. apply length_slice_from_last. fold (ndim a). lia. }
      unfold axes_nonempty. apply (Forall_combine_fst _ _ _ Hlen).
      rewrite <- (rev_involutive (combine _ _)). apply Forall_rev.
      destruct (rev (combine (Py.slice_from (- d) (shape a)) (Py.range (- d) 0)))
        as [|[n ax] front] eqn:Er; [constructor|].
      destruct (Fft.rfft a n ax) as [a1|e] eqn:E1; [|discriminate].
      simpl in Hy. constructor.
      * exact (checked_ok _ _ _ _ _ E1).
      * rewrite <- (rev_involutive front). apply Forall_rev.
        apply (iterate_ok_lengths (Fft.dft (-1)) _ _ _ Hy).
    + unfold Fft.rfftn, Fft.cook_nd_args in Hy.
      rewrite take_too_many in Hy by (fold (ndim a); lia). discriminate.
Qed.

(* ================================================================= *)
(** ** The normalization factor *)

Lemma prod_pos (s : list nat) : Forall (fun n => 1 <= n)%nat s -> (1 <= prod s)%nat.
Proof.
  induction 1 as [|n s Hn _ IH]; simpl.
  - lia.
  - nia.
Qed.

Lemma prod_skipn_zero (s : list nat) (k : nat) :
  prod (skipn k s) = 0%nat -> prod s = 0%nat.
Proof.
  revert k. induction s as [|n s IH]; intros [|k] Hz; simpl in *; try lia.
  rewrite (IH k Hz). lia.
Qed.

Lemma norm_factor_pos (s : list nat) (d : Z) : axes_nonempty s d -> 0 < norm_factor s d.
Proof.
  intros Hne. unfold norm_factor. apply sqrt_lt_R0.
  apply (lt_INR 0). apply prod_pos in Hne. lia.
Qed.

Lemma norm_factor_zero (s : list nat) (d : Z) : norm_factor s d = 0 -> prod s = 0%nat.
Proof.
  unfold norm_factor, Py.slice_from. intros Hz.
  apply sqrt_eq_0 in Hz; [|apply pos_INR].
  apply (INR_eq _ 0) in Hz. exact (prod_skipn_zero _ _ Hz).
Qed.

Lemma Cscale_Cdiv (z : C) (r : R) : r <> 0 -> Cscale (Cdiv z r) r = z.
Proof.
  intros Hr. destruct z as [x y]. unfold Cscale, Cdiv, Cre, Cim. simpl.
  f_equal; field; exact Hr.
Qed.

Lemma Cdiv_Cscale (z : C) (r : R) : r <> 0 -> Cdiv (Cscale z r) r = z.
Proof.
  intros Hr. destruct z as [x y]. unfold Cscale, Cdiv, Cre, Cim. simpl.
  f_equal; field; exact Hr.
Qed.

Lemma wf_empty {A} (a : ndarray A) : wf a -> size a = 0%nat -> data a = [].
Proof.
  unfold wf. intros Hw Hz. rewrite Hz in Hw. now apply length_zero_iff_nil.
Qed.

Lemma amap_id_on {A} (f : A -> A) (a : ndarray A) :
  wf a -> ((forall z, f z = z) \/ size a = 0%nat) -> amap f a = a.
Proof.
  intros Hw Hf. destruct a as [s l]. unfold amap. simpl. f_equal.
  destruct Hf as [Hf|Hz].
  - rewrite (map_ext _ (fun z => z) Hf). apply map_id.
  - apply (wf_empty _ Hw) in Hz. simpl in Hz. now rewrite Hz.
Qed.

(** Dividing by the factor and multiplying by it again gives the array
    back; when the factor is zero the array has no sample. *)
Lemma mul_div_scalar (y : ndarray C) (d : Z) :
  wf y -> Np.mul_scalar (Np.div_scalar y (norm_factor (shape y) d)) (norm_factor (shape y) d) = y.
Proof.
  intros Hw. unfold Np.mul_scalar, Np.div_scalar. rewrite amap_amap.
  apply amap_id_on; [exact Hw|].
  destruct (Req_dec (norm_factor (shape y) d) 0) as [Hz|Hnz].
  - right. now apply (norm_factor_zero _ d).
  - left. intros z. now apply Cscale_Cdiv.
Qed.

Lemma div_mul_scalar (y : ndarray C) (d : Z) :
  wf y -> Np.div_scalar (Np.mul_scalar y (norm_factor (shape y) d)) (norm_factor (shape y) d) = y.
Proof.
  intros Hw. unfold Np.mul_scalar, Np.div_scalar. rewrite amap_amap.
  apply amap_id_on; [exact Hw|].
  destruct (Req_dec (norm_factor (shape y) d) 0) as [Hz|Hnz].
  - right. now apply (norm_factor_zero _ d).
  - left. intros z. now apply Cdiv_Cscale.
Qed.

Section WfTransform.
Variable g : ndarray C -> nat -> nat -> ndarray C.
Hypothesis wf_g : forall a n k, wf (g a n k).

Lemma wf_transform_axes (a : ndarray C) (ks : list nat) :
  wf a -> wf (Spec.transform_axes g a ks).
Proof. intros Hw. destruct ks; simpl; [exact Hw | apply wf_g]. Qed.

Lemma wf_fold_axes (a : ndarray C) (s0 : list nat) (ks : list nat) :
  wf a -> wf (fold_left (fun acc k => g acc (nth k s0 0%nat) k) ks a).
Proof.
  revert a. induction ks as [|k ks IH]; intros a Hw; simpl.
  - exact Hw.
  - apply IH, wf_g.
Qed.
End WfTransform.

Lemma wf_dft (sgn : R) (a : ndarray C) (n k : nat) : wf (Fft.dft sgn a n k).
Proof. apply wf_tabulate. Qed.

Lemma wf_idft_step (a : ndarray C) (n k : nat) : wf (Spec.idft_step a n k).
Proof. apply wf_amap, wf_tabulate. Qed.

Lemma fftn_ok_wf (a y : ndarray C) (d : Z) :
  wf a -> Fft.fftn a (Py.range (- d) 0) = Ok y -> wf y /\ shape y = shape a.
Proof.
  intros Hw Hy. destruct (fftn_ok _ _ _ Hy) as [[_ ->]|(_ & _ & ->)].
  - now split.
  - split.
    + apply wf_transform_axes; [apply wf_dft | exact Hw].
    + apply shape_transform_axes, shape_dft.
Qed.

Lemma ifftn_ok_wf (a y : ndarray C) (d : Z) :
  wf a -> Fft.ifftn a (Py.range (- d) 0) = Ok y -> wf y /\ shape y = shape a.
Proof.
  intros Hw Hy. destruct (ifftn_ok _ _ _ Hy) as [[_ ->]|(_ & _ & ->)].
  - now split.
  - split.
    + apply wf_transform_axes; [apply wf_idft_step | exact Hw].
    + apply shape_transform_axes, shape_idft_step.
Qed.

Lemma rfftn_ok_wf (a : ndarray R) (y : ndarray C) (d : Z) :
  Fft.rfftn a (Py.range (- d) 0) = Ok y -> wf y.
Proof.
  intros Hy. destruct (rfftn_ok _ _ _ Hy) as [Hd Hne].
  rewrite rfftn_last_axes in Hy by assumption. injection Hy as <-.
  apply wf_fold_axes; [apply wf_dft | apply wf_tabulate].
Qed.

(* ================================================================= *)
(** ** The last step of [ir2tf] *)

(** C1, amended: [ir2tf] returns the unnormalized transform ([rfftn] when
    [is_real] holds, [fftn] otherwise) of the padded and rolled array over
    the last [dim] axes, with no division: it is the unitary transform
    [urfftn] or [ufftn] of that array multiplied by the square root of the
    product of the lengths of the transformed axes. *)
Theorem ir2tf_unnormalized (imp_resp : ndarray C) (t : list nat) (dim : option Z)
    (is_real : bool) :
  ir2tf imp_resp t dim is_real
  = (irpadded <- ir_padded_rolled imp_resp t (ir2tf_dim imp_resp dim) ;;
     if is_real
     then Fft.rfftn irpadded (Py.range (- ir2tf_dim imp_resp dim) 0)
     else Fft.fftn (Np.astype_complex irpadded) (Py.range (- ir2tf_dim imp_resp dim) 0))
  /\ ir2tf imp_resp t dim is_real
     = (u <- Spec.ir2tf_unitary imp_resp t dim is_real ;;
        Ok (Np.mul_scalar u (norm_factor t (ir2tf_dim imp_resp dim)))).
Proof.
  split; [reflexivity|].
  unfold ir2tf, Spec.ir2tf_unitary. set (d := ir2tf_dim imp_resp dim).
  destruct (ir_padded_rolled imp_resp t d) as [irp|e] eqn:Eirp; [|reflexivity].
  cbn [Py.bind]. destruct (ir_padded_rolled_ok _ _ _ _ Eirp) as [Hw Hs].
  destruct is_real.
  - unfold urfftn. cbn [default_dim].
    destruct (Fft.rfftn irp (Py.range (- d) 0)) as [y|e] eqn:Ey; [|reflexivity].
    cbn [Py.bind]. f_equal. rewrite Hs.
    destruct (rfftn_ok _ _ _ Ey) as [_ Hne]. rewrite Hs in Hne.
    pose proof (norm_factor_pos _ _ Hne) as Hpos.
    unfold Np.mul_scalar, Np.div_scalar. rewrite amap_amap. symmetry.
    apply amap_id_on; [exact (rfftn_ok_wf _ _ _ Ey)|].
    left. intros z. apply Cscale_Cdiv. lra.
  - unfold ufftn. cbn [default_dim].
    destruct (Fft.fftn (Np.astype_complex irp) (Py.range (- d) 0)) as [y|e] eqn:Ey;
      [|reflexivity].
    cbn [Py.bind]. f_equal.
    assert (Hwc : wf (Np.astype_complex irp)) by now apply wf_amap.
    destruct (fftn_ok_wf _ _ _ Hwc Ey) as [Hwy Hsy].
    assert (Hst : t = shape y) by (rewrite Hsy; simpl; now rewrite Hs).
    simpl shape. rewrite Hs, Hst. symmetry. now apply mul_div_scalar.
Qed.

(* ================================================================= *)
(** ** Sums of complex samples *)

Lemma Cadd_zero_r (z : C) : Cadd z zero = z.
Proof. destruct z as [x y]. unfold Cadd, Cre, Cim, zero, Zero_C. simpl. f_equal; ring. Qed.

Lemma Cadd_zero_l (z : C) : Cadd zero z = z.
Proof. destruct z as [x y]. unfold Cadd, Cre, Cim, zero, Zero_C. simpl. f_equal; ring. Qed.

Lemma Cadd_assoc (a b c : C) : Cadd a (Cadd b c) = Cadd (Cadd a b) c.
Proof. unfold Cadd, Cre, Cim. simpl. f_equal; ring. Qed.

Lemma Cadd_comm (a b : C) : Cadd a b = Cadd b a.
Proof. unfold Cadd, Cre, Cim. simpl. f_equal; ring. Qed.

Lemma Cmul_one_r (z : C) : Cmul z (1, 0) = z.
Proof. destruct z as [x y]. unfold Cmul, Cre, Cim. simpl. f_equal; ring. Qed.

Lemma Cmul_zero_l (z : C) : Cmul zero z = zero.
Proof. unfold Cmul, Cre, Cim, zero, Zero_C. simpl. f_equal; ring. Qed.

Lemma Cdiv_zero (r : R) : Cdiv zero r = zero.
Proof. unfold Cdiv, Cre, Cim, zero, Zero_C, Rdiv. simpl. f_equal; ring. Qed.

Lemma Csum_ext (n : nat) (f g : nat -> C) :
  (forall i, (i < n)%nat -> f i = g i) -> Csum n f = Csum n g.
Proof.
  intros Hfg. unfold Csum. f_equal. apply map_ext_in.
  intros i Hi. apply in_seq in Hi. apply Hfg. lia.
Qed.

Lemma Clsum_app (l1 l2 : list C) :
  fold_right Cadd zero (l1 ++ l2)
  = Cadd (fold_right Cadd zero l1) (fold_right Cadd zero l2).
Proof.
  induction l1 as [|z l1 IH]; simpl.
  - now rewrite Cadd_zero_l.
  - now rewrite IH, Cadd_assoc.
Qed.

Lemma Clsum_flat_map {A B} (f : B -> C) (g : A -> list B) (l : list A) :
  fold_right Cadd zero (map f (flat_map g l))
  = fold_right Cadd zero (map (fun i => fold_right Cadd zero (map f (g i))) l).
Proof.
  induction l as [|i l IH]; simpl.
  - reflexivity.
  - now rewrite map_app, Clsum_app, IH.
Qed.

Lemma Clsum_div {A} (z w : A -> C) (c : R) (l : list A) :
  fold_right Cadd zero (map (fun j => Cmul (Cdiv (z j) c) (w j)) l)
  = Cdiv (fold_right Cadd zero (map (fun j => Cmul (z j) (w j)) l)) c.
Proof.
  induction l as [|j l IH]; simpl.
  - now rewrite Cdiv_zero.
  - rewrite IH. unfold Cdiv, Cadd, Cmul, Cre, Cim, Rdiv. simpl. f_equal; ring.
Qed.

(* ================================================================= *)
(** ** The transforms and a scalar factor *)

Lemma valid_index_upd_shape (s idx : list nat) (k n j : nat) :
  valid_index (upd s k n) idx -> (j < nth k s 0)%nat -> valid_index s (upd idx k j).
Proof.
  unfold valid_index. revert idx k.
  induction s as [|m s IH]; intros idx k Hv Hj.
  - destruct k; simpl in Hj; lia.
  - destruct k as [|k]; simpl in *; inversion Hv as [|i ? idx' ? Hi Hv']; subst; simpl.
    + constructor; assumption.
    + constructor; [assumption | now apply IH].
Qed.

Lemma along_amap (h : C -> C) (a : ndarray C) (k n : nat) (idx : list nat) (j : nat) :
  wf a -> h zero = zero -> valid_index (upd (shape a) k n) idx ->
  Fft.along (amap h a) k idx j = h (Fft.along a k idx j).
Proof.
  intros Hw Hz Hv. unfold Fft.along. simpl shape.
  destruct (j <? nth k (shape a) 0)%nat eqn:E.
  - apply Nat.ltb_lt in E. apply get_amap; [exact Hw|].
    now apply (valid_index_upd_shape _ _ _ n).
  - symmetry. exact Hz.
Qed.

Lemma div_scalar_tabulate (s : list nat) (f : list nat -> C) (c : R) :
  Np.div_scalar (tabulate s f) c = tabulate s (fun idx => Cdiv (f idx) c).
Proof. apply amap_tabulate. Qed.

Lemma dft_div_scalar (sgn : R) (a : ndarray C) (c : R) (n k : nat) :
  wf a -> Fft.dft sgn (Np.div_scalar a c) n k = Np.div_scalar (Fft.dft sgn a n k) c.
Proof.
  intros Hw. unfold Fft.dft. rewrite div_scalar_tabulate.
  simpl shape. apply tabulate_ext. intros idx Hv.
  unfold Fft.dft_at, Csum. rewrite <- Clsum_div. f_equal. apply map_ext.
  intros j. f_equal. unfold Np.div_scalar.
  apply (along_amap (fun z => Cdiv z c) a k n); [exact Hw | apply Cdiv_zero | exact Hv].
Qed.

Lemma idft_step_div_scalar (a : ndarray C) (c : R) (n k : nat) :
  wf a ->
  Spec.idft_step (Np.div_scalar a c) n k = Np.div_scalar (Spec.idft_step a n k) c.
Proof.
  intros Hw. unfold Spec.idft_step. rewrite dft_div_scalar by exact Hw.
  unfold Np.div_scalar. rewrite !amap_amap. unfold amap. f_equal.
  apply map_ext. intros z. unfold Cdiv, Cre, Cim, Rdiv. simpl. f_equal; ring.
Qed.

Lemma idft_axes_div_scalar (a : ndarray C) (c : R) (ks : list nat) :
  wf a ->
  Spec.idft_axes (Np.div_scalar a c) ks = Np.div_scalar (Spec.idft_axes a ks) c.
Proof.
  intros Hw. unfold Spec.idft_axes. induction ks as [|k ks IH]; simpl.
  - reflexivity.
  - rewrite IH. apply idft_step_div_scalar.
    apply wf_transform_axes; [apply wf_idft_step | exact Hw].
Qed.

(* ================================================================= *)
(** ** The inverse transform after the forward transform *)

Lemma twiddle_inv_2_1 : Fft.twiddle 1 2 1 = (-1, 0).
Proof.
  unfold Fft.twiddle, Cexp. simpl INR.
  replace (1 * (2 * PI * 1 / (1 + 1))) with PI by field.
  now rewrite cos_PI, sin_PI.
Qed.

(** [ifftn] commutes with the division by a scalar. *)
Lemma ifftn_div_scalar (x y : ndarray C) (d : Z) (c : R) :
  wf y -> Fft.ifftn y (Py.range (- d) 0) = Ok x ->
  Fft.ifftn (Np.div_scalar y c) (Py.range (- d) 0) = Ok (Np.div_scalar x c).
Proof.
  intros Hwy Hinv.
  destruct (ifftn_ok _ _ _ Hinv) as [[Hd0 ->]|(Hd1 & Hne & ->)].
  - now apply ifftn_no_axes.
  - rewrite ifftn_last_axes by assumption.
    unfold ndim. simpl shape. fold (ndim y).
    now rewrite idft_axes_div_scalar.
Qed.

(** C8: provided the unnormalized [ifftn] of the FFT primitive inverts its
    unnormalized [fftn] on [x] over the axes that [dim] selects, [uifftn]
    inverts [ufftn] on [x]: the two normalization factors cancel. *)
Theorem uifftn_ufftn (x : ndarray C) (dim : option Z) :
  wf x ->
  (y <- Fft.fftn x (Py.range (- default_dim x dim) 0) ;;
   Fft.ifftn y (Py.range (- default_dim x dim) 0)) = Ok x ->
  (y <- ufftn x dim ;; uifftn y dim) = Ok x.
Proof.
  intros Hw Hinv. unfold ufftn, uifftn.
  remember (default_dim x dim) as d eqn:Ed.
  destruct (Fft.fftn x (Py.range (- d) 0)) as [y|e] eqn:Ey; [|discriminate].
  cbn [Py.bind] in Hinv |- *.
  destruct (fftn_ok_wf _ _ _ Hw Ey) as [Hwy Hsy].
  set (nf := norm_factor (shape x) d).
  assert (Hd : default_dim (Np.div_scalar y nf) dim = d).
  { rewrite Ed. unfold default_dim, ndim. simpl shape. now rewrite Hsy. }
  rewrite Hd. simpl shape. rewrite Hsy. fold nf.
  rewrite (ifftn_div_scalar x y d nf Hwy Hinv). cbn [Py.bind]. f_equal. unfold nf.
  now apply mul_div_scalar.
Qed.

Lemma uifftn_ufftn_witness :
  (y <- ufftn (mk_ndarray [2%nat] [(1, 0); (3, 0)]) None ;; uifftn y None)
  = Ok (mk_ndarray [2%nat] [(1, 0); (3, 0)]).
Proof.
  apply (uifftn_ufftn (mk_ndarray [2%nat] [(1, 0); (3, 0)]) None).
  - reflexivity.
  - run. rewrite !twiddle_0, !twiddle_fwd_2_1, !twiddle_inv_2_1. crunch.
    simpl INR. repeat (f_equal; try lra).
Defined.

(* ================================================================= *)
(** ** The zero-frequency coefficient *)

Lemma valid_index_zeros (s : list nat) :
  Forall (fun n => 1 <= n)%nat s -> valid_index s (repeat 0%nat (length s)).
Proof.
  unfold valid_index. induction 1 as [|n s Hn _ IH]; simpl; constructor.
  - lia.
  - exact IH.
Qed.

Lemma upd_middle (pre rest : list nat) (i j : nat) :
  upd (pre ++ i :: rest) (length pre) j = pre ++ j :: rest.
Proof.
  induction pre as [|p pre IH]; simpl.
  - reflexivity.
  - now rewrite IH.
Qed.

Lemma data_indices {A} `{Zero A} (x : ndarray A) :
  wf x -> map (get x) (indices (shape x)) = data x.
Proof. intros Hw. exact (f_equal data (tabulate_get x Hw)). Qed.

(** The coefficient of the transform along the last axes at frequency
    zero of each of them is the sum of the samples along these axes. *)
Lemma dft_axes_zero_frequency (x : ndarray C) :
  wf x ->
  forall s2 s1 pre,
    shape x = s1 ++ s2 -> valid_index s1 pre -> Forall (fun n => 1 <= n)%nat s2 ->
    get (Spec.dft_axes x (seq (length s1) (length s2))) (pre ++ repeat 0%nat (length s2))
    = fold_right Cadd zero (map (fun J => get x (pre ++ J)) (indices s2)).
Proof.
  intros Hw. induction s2 as [|n s2 IH]; intros s1 pre Hs Hpre Hne.
  - simpl. now rewrite Cadd_zero_r.
  - inversion Hne as [|? ? Hn Hne']; subst.
    pose proof (valid_index_length _ _ Hpre) as Hlen.
    cbn [length seq repeat]. unfold Spec.dft_axes. cbn [Spec.transform_axes fold_right].
    fold (Spec.transform_axes (Fft.dft (-1)) x (seq (S (length s1)) (length s2))).
    fold (Spec.dft_axes x (seq (S (length s1)) (length s2))).
    set (Y := Spec.dft_axes x (seq (S (length s1)) (length s2))).
    assert (HsY : shape Y = shape x) by apply (shape_transform_axes _ (shape_dft (-1))).
    assert (Hnth : nth (length s1) (shape x) 0%nat = n) by (rewrite Hs; apply nth_middle).
    rewrite Hnth. unfold Fft.dft. rewrite get_tabulate.
    2:{ rewrite HsY, <- Hnth, upd_same, Hs.
        apply valid_index_app; [exact Hpre|].
        apply (valid_index_zeros (n :: s2)). now constructor. }
    unfold Fft.dft_at. cbn [indices]. rewrite Clsum_flat_map.
    unfold Csum. f_equal. apply map_ext_in. intros j Hj. apply in_seq in Hj.
    rewrite <- Hlen at 2. rewrite nth_middle, Nat.mul_0_r, twiddle_0, Cmul_one_r.
    unfold Fft.along. rewrite HsY, Hnth.
    destruct (j <? n)%nat eqn:E; [|apply Nat.ltb_ge in E; lia].
    rewrite <- Hlen, upd_middle, map_map.
    replace (pre ++ j :: repeat 0%nat (length s2))
      with ((pre ++ [j]) ++ repeat 0%nat (length s2)) by (now rewrite <- app_assoc).
    unfold Y. replace (S (length s1)) with (length (s1 ++ [n]))
      by (rewrite length_app; simpl; lia).
    rewrite (IH (s1 ++ [n]) (pre ++ [j])).
    + f_equal. apply map_ext. intros J. now rewrite <- app_assoc.
    + now rewrite <- app_assoc.
    + apply valid_index_app; [exact Hpre | apply valid_index_single; lia].
    + exact Hne'.
Qed.

Lemma axes_nonempty_all {A} (x : ndarray A) :
  axes_nonempty (shape x) (Z.of_nat (ndim x)) -> Forall (fun n => 1 <= n)%nat (shape x).
Proof. unfold axes_nonempty, ndim. now rewrite slice_from_all. Qed.

(* ================================================================= *)
(** ** The forward unitary transform *)

(** C7: for a [dim] between 1 and the rank, no transformed axis being
    empty, [ufftn] returns the unnormalized transform of the FFT
    primitive over the last [dim] axes (the sums that define the discrete
    Fourier transform) divided by the square root of the product of the
    lengths of these axes, in the shape of the input; when all axes are
    transformed, its coefficient at index zero is the sum of the samples
    divided by the square root of their number. *)
Theorem ufftn_unitary (x : ndarray C) (dim : option Z) :
  wf x ->
  (1 <= default_dim x dim <= Z.of_nat (ndim x))%Z ->
  axes_nonempty (shape x) (default_dim x dim) ->
  let ks := Spec.last_axes (ndim x) (Z.to_nat (default_dim x dim)) in
  let scale := sqrt (INR (prod (map (fun k => nth k (shape x) 0%nat) ks))) in
  Fft.fftn x (Py.range (- default_dim x dim) 0) = Ok (Spec.dft_axes x ks)
  /\ ufftn x dim = Ok (Np.div_scalar (Spec.dft_axes x ks) scale)
  /\ shape (Np.div_scalar (Spec.dft_axes x ks) scale) = shape x
  /\ (default_dim x dim = Z.of_nat (ndim x) ->
      get (Np.div_scalar (Spec.dft_axes x ks) scale) (repeat 0%nat (ndim x))
      = Cdiv (Np.sum x) (sqrt (INR (size x)))).
Proof.
  intros Hw Hd Hne ks scale.
  assert (Hfft : Fft.fftn x (Py.range (- default_dim x dim) 0) = Ok (Spec.dft_axes x ks))
    by now apply fftn_last_axes.
  assert (Hscale : scale = norm_factor (shape x) (default_dim x dim)).
  { unfold scale, ks, norm_factor, ndim.
    rewrite map_nth_last_axes by (unfold ndim in Hd; lia).
    now rewrite slice_from_last. }
  assert (Hshape : shape (Spec.dft_axes x ks) = shape x)
    by apply (shape_transform_axes _ (shape_dft (-1))).
  split; [exact Hfft|]. split; [|split].
  - unfold ufftn. rewrite Hfft. cbn [Py.bind]. now rewrite Hscale.
  - exact Hshape.
  - intros Hall.
    assert (Hpos : Forall (fun n => 1 <= n)%nat (shape x)).
    { apply axes_nonempty_all. now rewrite <- Hall. }
    unfold Np.div_scalar. rewrite get_amap.
    + f_equal.
      * unfold ks, Spec.last_axes. rewrite Hall, Nat2Z.id, Nat.sub_diag.
        pose proof (dft_axes_zero_frequency x Hw (shape x) [] [] eq_refl
                      (Forall2_nil _) Hpos) as H0.
        cbn [length app] in H0. change (length (shape x)) with (ndim x) in H0.
        rewrite H0. unfold Np.sum. f_equal. now apply data_indices.
      * rewrite Hscale. unfold norm_factor, size.
        rewrite Hall. unfold ndim. now rewrite slice_from_all.
    + apply wf_transform_axes; [apply wf_dft | exact Hw].
    + rewrite Hshape. now apply valid_index_zeros.
Qed.

Lemma ufftn_unitary_witness :
  let x := mk_ndarray [2%nat] [(5, 0); (5, 0)] in
  let ks := Spec.last_axes (ndim x) (Z.to_nat (default_dim x None)) in
  let scale := sqrt (INR (prod (map (fun k => nth k (shape x) 0%nat) ks))) in
  Fft.fftn x (Py.range (- default_dim x None) 0) = Ok (Spec.dft_axes x ks)
  /\ ufftn x None = Ok (Np.div_scalar (Spec.dft_axes x ks) scale)
  /\ shape (Np.div_scalar (Spec.dft_axes x ks) scale) = shape x
  /\ (default_dim x None = Z.of_nat (ndim x) ->
      get (Np.div_scalar (Spec.dft_axes x ks) scale) (repeat 0%nat (ndim x))
      = Cdiv (Np.sum x) (sqrt (INR (size x)))).
Proof.
  apply (ufftn_unitary (mk_ndarray [2%nat] [(5, 0); (5, 0)]) None).
  - reflexivity.
  - simpl. lia.
  - repeat constructor.
Defined.

(* ================================================================= *)
(** ** Sums of real samples *)

Lemma Rlsum_app (l1 l2 : list R) :
  fold_right Rplus 0 (l1 ++ l2) = fold_right Rplus 0 l1 + fold_right Rplus 0 l2.
Proof.
  induction l1 as [|x l1 IH]; simpl.
  - ring.
  - rewrite IH. ring.
Qed.

Lemma Rsum_S_last (n : nat) (f : nat -> R) : Rsum (S n) f = Rsum n f + f n.
Proof.
  unfold Rsum. rewrite seq_S, map_app, Rlsum_app. simpl. ring.
Qed.

Lemma Rsum_S_first (n : nat) (f : nat -> R) :
  Rsum (S n) f = f 0%nat + Rsum n (fun i => f (S i)).
Proof.
  unfold Rsum. simpl. now rewrite <- seq_shift, map_map.
Qed.

Lemma Rsum_plus (n : nat) (f g : nat -> R) :
  Rsum n (fun i => f i + g i) = Rsum n f + Rsum n g.
Proof.
  induction n as [|n IH].
  - unfold Rsum. simpl. ring.
  - rewrite !Rsum_S_last, IH. ring.
Qed.

Lemma Rsum_zero (n : nat) : Rsum n (fun _ => 0) = 0.
Proof.
  induction n as [|n IH].
  - reflexivity.
  - rewrite Rsum_S_last, IH. ring.
Qed.

Lemma Rsum_add (a b : nat) (f : nat -> R) :
  Rsum (a + b) f = Rsum a f + Rsum b (fun i => f (a + i)%nat).
Proof.
  induction b as [|b IH].
  - rewrite Nat.add_0_r. unfold Rsum at 3. simpl. ring.
  - rewrite Nat.add_succ_r, !Rsum_S_last, IH. ring.
Qed.

Lemma Rsum_rev (n : nat) (g : nat -> R) :
  Rsum n (fun i => g (n - 1 - i)%nat) = Rsum n g.
Proof.
  induction n as [|n IH].
  - reflexivity.
  - rewrite Rsum_S_first, Rsum_S_last.
    replace (S n - 1 - 0)%nat with n by lia.
    rewrite <- IH. rewrite Rplus_comm. f_equal.
    apply Rsum_ext. intros i Hi. f_equal. lia.
Qed.

Lemma Rsum_swap (m n : nat) (f : nat -> nat -> R) :
  Rsum m (fun i => Rsum n (fun j => f i j)) = Rsum n (fun j => Rsum m (fun i => f i j)).
Proof.
  induction m as [|m IH].
  - rewrite (Rsum_ext n _ (fun _ => 0)) by reflexivity.
    now rewrite Rsum_zero.
  - rewrite Rsum_S_last, IH, <- Rsum_plus.
    apply Rsum_ext. intros j _. now rewrite Rsum_S_last.
Qed.

Lemma mirror_0 (n : nat) : Spec.mirror n 0 = 0%nat.
Proof. unfold Spec.mirror. rewrite Nat.sub_0_r. apply Nat.Div0.mod_same. Qed.

Lemma mirror_pos (n k : nat) : (1 <= k <= n)%nat -> Spec.mirror n k = (n - k)%nat.
Proof. intros Hk. unfold Spec.mirror. apply Nat.mod_small. lia. Qed.

Lemma mirror_lt (n k : nat) : (1 <= n)%nat -> (Spec.mirror n k < n)%nat.
Proof. intros Hn. unfold Spec.mirror. apply Nat.mod_upper_bound. lia. Qed.

(** The opposite frequencies are the frequencies, in another order. *)
Lemma Rsum_mirror (n : nat) (f : nat -> R) :
  Rsum n (fun i => f (Spec.mirror n i)) = Rsum n f.
Proof.
  destruct n as [|k].
  - reflexivity.
  - rewrite !Rsum_S_first, mirror_0. f_equal.
    rewrite <- (Rsum_rev k (fun i => f (S i))).
    apply Rsum_ext. intros i Hi. rewrite mirror_pos by lia. f_equal. lia.
Qed.

(** A sum over an odd number of frequencies that takes the same value at
    opposite frequencies, from its first half. *)
Lemma Rsum_hermitian (h : nat) (c : nat -> R) :
  (forall j, (1 <= j <= 2 * h)%nat -> c j = c (2 * h + 1 - j)%nat) ->
  Rsum (2 * h + 1) c = 2 * Rsum (h + 1) c - c 0%nat.
Proof.
  intros Hsym. rewrite (Nat.add_1_r h).
  replace (2 * h + 1)%nat with (S h + h)%nat by lia.
  rewrite Rsum_add, (Rsum_S_first h c).
  assert (E : Rsum h (fun i => c (S h + i)%nat) = Rsum h (fun i => c (S i))).
  { rewrite <- (Rsum_rev h (fun i => c (S i))).
    apply Rsum_ext. intros i Hi. rewrite Hsym by lia. f_equal. lia. }
  rewrite E. ring.
Qed.

(* ================================================================= *)
(** ** The Hermitian symmetry of the transform of a real image *)

Lemma Cabs_sqr (z : C) : Cabs z * Cabs z = Cre z * Cre z + Cim z * Cim z.
Proof. unfold Cabs. apply sqrt_sqrt. nra. Qed.

Lemma Cabs_conj (z : C) : Cabs (Cconj z) = Cabs z.
Proof. unfold Cabs, Cconj, Cre, Cim. simpl. f_equal. ring. Qed.

Lemma Cconj_add (a b : C) : Cconj (Cadd a b) = Cadd (Cconj a) (Cconj b).
Proof. unfold Cconj, Cadd, Cre, Cim. simpl. f_equal. ring. Qed.

Lemma Cconj_mul (a b : C) : Cconj (Cmul a b) = Cmul (Cconj a) (Cconj b).
Proof. unfold Cconj, Cmul, Cre, Cim. simpl. f_equal; ring. Qed.

Lemma Cconj_RtoC (r : R) : Cconj (RtoC r) = RtoC r.
Proof. unfold Cconj, RtoC, Cre, Cim. simpl. f_equal. ring. Qed.

Lemma Cconj_div (z : C) (r : R) : Cconj (Cdiv z r) = Cdiv (Cconj z) r.
Proof. unfold Cconj, Cdiv, Cre, Cim, Rdiv. simpl. f_equal. ring. Qed.

Lemma Cconj_sum (n : nat) (f : nat -> C) :
  Cconj (Csum n f) = Csum n (fun i => Cconj (f i)).
Proof.
  unfold Csum. induction (seq 0 n) as [|i l IH]; simpl.
  - unfold Cconj, zero, Zero_C, Cre, Cim. simpl. f_equal. ring.
  - now rewrite Cconj_add, IH.
Qed.

(** The conjugate of a twiddle factor is the twiddle factor of an
    opposite exponent. *)
Lemma twiddle_conj (n m m' q : nat) :
  (1 <= n)%nat -> (m + m' = q * n)%nat ->
  Cconj (Fft.twiddle (-1) n m) = Fft.twiddle (-1) n m'.
Proof.
  intros Hn Hm.
  assert (Hn0 : INR n <> 0) by (apply not_0_INR; lia).
  assert (HI : INR m' = INR q * INR n - INR m).
  { rewrite <- mult_INR, <- Hm, plus_INR. ring. }
  unfold Fft.twiddle, Cexp, Cconj, Cre, Cim. simpl fst. simpl snd.
  set (theta := 2 * PI * INR m / INR n).
  assert (E : -1 * (2 * PI * INR m' / INR n) + 2 * INR q * PI = theta).
  { unfold theta. rewrite HI. field. exact Hn0. }
  rewrite <- (cos_period (-1 * (2 * PI * INR m' / INR n)) q).
  rewrite <- (sin_period (-1 * (2 * PI * INR m' / INR n)) q).
  rewrite E. replace (-1 * theta) with (- theta) by ring.
  rewrite cos_neg, sin_neg. f_equal. ring.
Qed.

Lemma twiddle_conj_mirror (n a k : nat) :
  (1 <= n)%nat -> (k < n)%nat ->
  Cconj (Fft.twiddle (-1) n (a * k)) = Fft.twiddle (-1) n (a * Spec.mirror n k).
Proof.
  intros Hn Hk. destruct k as [|k].
  - rewrite mirror_0. apply (twiddle_conj n _ _ 0%nat Hn). lia.
  - rewrite mirror_pos by lia. apply (twiddle_conj n _ _ a Hn). nia.
Qed.

Lemma dft2_at_conj (x : ndarray R) (m n : nat) (b : list nat) (i j : nat) :
  (i < m)%nat -> (j < n)%nat ->
  Cconj (Spec.dft2_at x m n b i j)
  = Spec.dft2_at x m n b (Spec.mirror m i) (Spec.mirror n j).
Proof.
  intros Hi Hj. unfold Spec.dft2_at. rewrite Cconj_sum.
  apply Csum_ext. intros i' _.
  rewrite Cconj_mul, Cconj_sum, twiddle_conj_mirror by lia. f_equal.
  apply Csum_ext. intros j' _.
  now rewrite Cconj_mul, Cconj_RtoC, twiddle_conj_mirror by lia.
Qed.

(** The energy of the normalized coefficients is the same at opposite
    frequencies. *)
Lemma dft2_energy_mirror (x : ndarray R) (m n : nat) (b : list nat) (c : R) (i j : nat) :
  (i < m)%nat -> (j < n)%nat ->
  Cabs (Cdiv (Spec.dft2_at x m n b (Spec.mirror m i) (Spec.mirror n j)) c)
  = Cabs (Cdiv (Spec.dft2_at x m n b i j) c).
Proof.
  intros Hi Hj. rewrite <- dft2_at_conj by assumption.
  now rewrite <- Cconj_div, Cabs_conj.
Qed.

(* ================================================================= *)
(** ** The coefficients of the two-dimensional transforms *)

Lemma nth_last2_first (b : list nat) (i j : nat) :
  nth (length b) (b ++ [i; j]) 0%nat = i.
Proof. apply nth_middle. Qed.

Lemma nth_last2_second (b : list nat) (i j : nat) :
  nth (S (length b)) (b ++ [i; j]) 0%nat = j.
Proof.
  replace (b ++ [i; j]) with ((b ++ [i]) ++ [j]) by (now rewrite <- app_assoc).
  replace (S (length b)) with (length (b ++ [i])) by (rewrite length_app; simpl; lia).
  apply nth_middle.
Qed.

Lemma upd_last2_first (b : list nat) (i j v : nat) :
  upd (b ++ [i; j]) (length b) v = b ++ [v; j].
Proof. apply upd_middle. Qed.

Lemma upd_last2_second (b : list nat) (i j v : nat) :
  upd (b ++ [i; j]) (S (length b)) v = b ++ [i; v].
Proof.
  replace (b ++ [i; j]) with ((b ++ [i]) ++ [j]) by (now rewrite <- app_assoc).
  replace (S (length b)) with (length (b ++ [i])) by (rewrite length_app; simpl; lia).
  rewrite upd_middle. now rewrite <- app_assoc.
Qed.

Lemma valid_index_last2 (batch b : list nat) (m n i j : nat) :
  valid_index batch b -> (i < m)%nat -> (j < n)%nat ->
  valid_index (batch ++ [m; n]) (b ++ [i; j]).
Proof.
  intros Hb Hi Hj. apply valid_index_app; [exact Hb|].
  repeat constructor; assumption.
Qed.

(** The transform along the last axis (its first [c] coefficients kept),
    then along the axis before it. *)
Lemma get_dft2 (x : ndarray R) (batch b : list nat) (m n c i j : nat) :
  wf x -> shape x = batch ++ [m; n] ->
  valid_index batch b -> (i < m)%nat -> (j < c)%nat ->
  get (Fft.dft (-1)
         (tabulate (batch ++ [m; c])
            (Fft.dft_at (-1) (Np.astype_complex x) n (S (length batch))))
         m (length batch))
      (b ++ [i; j])
  = Spec.dft2_at x m n b i j.
Proof.
  intros Hw Hs Hb Hi Hj.
  pose proof (valid_index_length _ _ Hb) as Hlen.
  unfold Fft.dft. rewrite shape_tabulate.
  rewrite <- (nth_last2_first batch m c) at 2. rewrite upd_same.
  rewrite get_tabulate by (now apply valid_index_last2).
  unfold Fft.dft_at at 1, Spec.dft2_at. rewrite <- Hlen.
  apply Csum_ext. intros i' Hi'.
  rewrite nth_last2_first. f_equal.
  unfold Fft.along. rewrite shape_tabulate, Hlen, nth_last2_first, <- Hlen.
  destruct (i' <? m)%nat eqn:E; [|apply Nat.ltb_ge in E; lia].
  rewrite upd_last2_first.
  rewrite get_tabulate by (now apply valid_index_last2).
  unfold Fft.dft_at. apply Csum_ext. intros j' Hj'.
  rewrite nth_last2_second. f_equal.
  unfold Fft.along, Np.astype_complex. simpl shape.
  rewrite Hs, Hlen, nth_last2_second, <- Hlen.
  destruct (j' <? n)%nat eqn:E'; [|apply Nat.ltb_ge in E'; lia].
  rewrite upd_last2_second.
  apply get_amap; [exact Hw|]. rewrite Hs. now apply valid_index_last2.
Qed.

Lemma upd_shape_last2_first (batch : list nat) (m n v : nat) :
  upd (batch ++ [m; n]) (length batch) v = batch ++ [v; n].
Proof. apply upd_middle. Qed.

Lemma ndim_last2 {A} (x : ndarray A) (batch : list nat) (m n : nat) :
  shape x = batch ++ [m; n] -> ndim x = S (S (length batch)).
Proof. intros Hs. unfold ndim. rewrite Hs, length_app. simpl. lia. Qed.

Lemma axes_nonempty_last2 (batch : list nat) (m n : nat) :
  (1 <= m)%nat -> (1 <= n)%nat -> axes_nonempty (batch ++ [m; n]) 2.
Proof.
  intros Hm Hn. unfold axes_nonempty.
  rewrite slice_from_last by (rewrite length_app; simpl; lia).
  rewrite length_app. simpl length.
  replace (length batch + 2 - Z.to_nat 2)%nat with (length batch + 0)%nat by lia.
  rewrite skipn_app, skipn_all2 by lia.
  replace (length batch + 0 - length batch)%nat with 0%nat by lia.
  simpl. repeat constructor; assumption.
Qed.

(** [ufft2] of a real image and [urfft2] of it, coefficient by
    coefficient. *)
Lemma ufft2_real (x : ndarray R) (batch : list nat) (m n : nat) :
  shape x = batch ++ [m; n] -> (1 <= m)%nat -> (1 <= n)%nat ->
  ufft2 (Np.astype_complex x)
  = Ok (Np.div_scalar
          (Fft.dft (-1)
             (tabulate (batch ++ [m; n])
                (Fft.dft_at (-1) (Np.astype_complex x) n (S (length batch))))
             m (length batch))
          (norm_factor (shape x) 2)).
Proof.
  intros Hs Hm Hn. unfold ufft2, ufftn. cbn [default_dim].
  assert (Hsc : shape (Np.astype_complex x) = batch ++ [m; n]) by exact Hs.
  rewrite fftn_last_axes.
  - cbn [Py.bind]. rewrite (ndim_last2 _ _ _ _ Hsc). do 2 f_equal.
    unfold Spec.last_axes.
    replace (S (S (length batch)) - Z.to_nat 2)%nat with (length batch) by lia.
    change (Z.to_nat 2) with 2%nat. cbn [seq].
    unfold Spec.dft_axes. cbn [Spec.transform_axes fold_right].
    rewrite Hsc, nth_last2_first, nth_last2_second.
    f_equal. unfold Fft.dft at 1. rewrite Hsc. now rewrite upd_last2_second.
  - rewrite (ndim_last2 _ _ _ _ Hsc). lia.
  - rewrite Hsc. now apply axes_nonempty_last2.
Qed.

Lemma urfft2_real (x : ndarray R) (batch : list nat) (m n : nat) :
  shape x = batch ++ [m; n] -> (1 <= m)%nat -> (1 <= n)%nat ->
  urfft2 x
  = Ok (Np.div_scalar
          (Fft.dft (-1)
             (tabulate (batch ++ [m; (n / 2 + 1)%nat])
                (Fft.dft_at (-1) (Np.astype_complex x) n (S (length batch))))
             m (length batch))
          (norm_factor (shape x) 2)).
Proof.
  intros Hs Hm Hn. unfold urfft2, urfftn. cbn [default_dim].
  rewrite rfftn_last_axes.
  - cbn [Py.bind]. rewrite (ndim_last2 _ _ _ _ Hs). do 2 f_equal.
    replace (S (S (length batch)) - Z.to_nat 2)%nat with (length batch) by lia.
    replace (S (S (length batch)) - 1)%nat with (S (length batch)) by lia.
    change (Z.to_nat 2 - 1)%nat with 1%nat. cbn [seq fold_left].
    rewrite Hs, nth_last2_first, nth_last2_second.
    f_equal. unfold Fft.rdft. rewrite Hs. now rewrite upd_last2_second.
  - rewrite (ndim_last2 _ _ _ _ Hs). lia.
  - rewrite Hs. now apply axes_nonempty_last2.
Qed.

Lemma get_unitary_dft2 (x : ndarray R) (batch b : list nat) (m n c i j : nat) (nf : R) :
  wf x -> shape x = batch ++ [m; n] ->
  valid_index batch b -> (i < m)%nat -> (j < c)%nat ->
  get (Np.div_scalar
         (Fft.dft (-1)
            (tabulate (batch ++ [m; c])
               (Fft.dft_at (-1) (Np.astype_complex x) n (S (length batch))))
            m (length batch)) nf)
      (b ++ [i; j])
  = Cdiv (Spec.dft2_at x m n b i j) nf.
Proof.
  intros Hw Hs Hb Hi Hj. unfold Np.div_scalar. rewrite get_amap.
  - now rewrite get_dft2.
  - apply wf_dft.
  - rewrite shape_dft, shape_tabulate, upd_shape_last2_first.
    now apply valid_index_last2.
Qed.

(* ================================================================= *)
(** ** The quadratic norm of the full and of the compact transform *)

Lemma Ok_single_inj (s s' : list nat) (u v : R) :
  Ok (mk_ndarray s [u]) = Ok (mk_ndarray s' [v]) -> u = v.
Proof. intros H. injection H as _ H. exact H. Qed.

(** C3, as stated, fails: for the 1 by 3 real image [[1, 0, 0]] the
    quadratic norm of [ufft2] is 5/3 (the full transform has last axes of
    different lengths and is taken for a compact one) and the quadratic
    norm of [urfft2] is 1. *)
Lemma quad_norm_full_compact_differ :
  (y <- ufft2 (Np.astype_complex (mk_ndarray [1; 3]%nat [1; 0; 0])) ;; image_quad_norm y)
  <> (y <- urfft2 (mk_ndarray [1; 3]%nat [1; 0; 0]) ;; image_quad_norm y).
Proof.
  intros H. run_in H. rewrite !twiddle_0 in H.
  rewrite !Cabs_sqr in H. crunch_in H.
  apply Ok_single_inj in H.
  assert (Ht : / sqrt (INR 3) * / sqrt (INR 3) * 3 = 1).
  { rewrite <- Rinv_mult, sqrt_sqrt by apply pos_INR. simpl. field. }
  set (t := / sqrt (INR 3)) in *.
  unfold Rdiv in H. fold t in H. ring_simplify in H. nra.
Qed.

(** The sum over all columns of column energies that agree at opposite
    frequencies, and the sum that [image_quad_norm] takes over the
    compact columns. *)
Lemma energy_full_compact (h : nat) (e : nat -> nat -> R) :
  let n := (2 * h + 1)%nat in
  (forall i j, (i < n)%nat -> (j < n)%nat ->
     e (Spec.mirror n i) (Spec.mirror n j) = e i j) ->
  Rsum n (fun i => Rsum n (fun j => e i j))
  = 2 * Rsum n (fun i => Rsum (h + 1) (fun j => e i j)) - Rsum n (fun i => e i 0%nat).
Proof.
  intros n Hsym.
  rewrite (Rsum_swap n n), (Rsum_swap n (h + 1)).
  apply (Rsum_hermitian h (fun j => Rsum n (fun i => e i j))).
  intros j Hj. fold n.
  rewrite <- (mirror_pos n j) by (unfold n; lia).
  rewrite <- (Rsum_mirror n (fun i => e i (Spec.mirror n j))).
  apply Rsum_ext. intros i Hi. symmetry. apply Hsym; unfold n in *; lia.
Qed.

(** C3, amended: for a real array whose last two axes have the same odd
    length, [image_quad_norm] returns the same norms on [ufft2] of the
    array and on [urfft2] of it. *)
Theorem quad_norm_full_compact (x : ndarray R) (batch : list nat) (n : nat) :
  wf x ->
  shape x = batch ++ [n; n] ->
  Nat.Odd n ->
  exists norm,
    (y <- ufft2 (Np.astype_complex x) ;; image_quad_norm y) = Ok norm
    /\ (y <- urfft2 x ;; image_quad_norm y) = Ok norm.
Proof.
  intros Hw Hs [h Hn].
  assert (Hn1 : (1 <= n)%nat) by lia.
  assert (Hhalf : (n / 2 + 1 = h + 1)%nat).
  { rewrite Hn. replace (2 * h + 1)%nat with (1 + h * 2)%nat by lia.
    rewrite Nat.div_add by lia. simpl. lia. }
  set (nf := norm_factor (shape x) 2).
  set (e := fun b i j => Cabs (Cdiv (Spec.dft2_at x n n b i j) nf)
                         * Cabs (Cdiv (Spec.dft2_at x n n b i j) nf)).
  exists (tabulate batch (fun b => Rsum n (fun i => Rsum n (fun j => e b i j)))).
  rewrite (ufft2_real x batch n n Hs Hn1 Hn1), (urfft2_real x batch n n Hs Hn1 Hn1).
  cbn [Py.bind]. fold nf. split.
  - rewrite (image_quad_norm_full _ batch n).
    + f_equal. apply tabulate_ext. intros b Hb.
      apply Rsum_ext. intros i Hi. apply Rsum_ext. intros j Hj.
      unfold e. now rewrite (get_unitary_dft2 x batch b n n n i j nf).
    + apply wf_amap, wf_dft.
    + simpl shape. apply upd_shape_last2_first.
  - set (G := Np.div_scalar
                (Fft.dft (-1)
                   (tabulate (batch ++ [n; (n / 2 + 1)%nat])
                      (Fft.dft_at (-1) (Np.astype_complex x) n (S (length batch))))
                   n (length batch)) nf).
    assert (HwG : wf G) by apply wf_amap, wf_dft.
    assert (HsG : shape G = batch ++ [n; (n / 2 + 1)%nat]).
    { unfold G. simpl shape. apply upd_shape_last2_first. }
    assert (Hget : forall b i j,
              valid_index batch b -> (i < n)%nat -> (j < n / 2 + 1)%nat ->
              Cabs (get G (b ++ [i; j])) * Cabs (get G (b ++ [i; j])) = e b i j).
    { intros b i j Hb Hi Hj. unfold e, G.
      now rewrite (get_unitary_dft2 x batch b n n (n / 2 + 1) i j nf). }
    destruct (Nat.eq_dec (n / 2 + 1) n) as [E|E].
    + assert (HsG' : shape G = batch ++ [n; n]) by (now rewrite HsG, E).
      rewrite (image_quad_norm_full G batch n HwG HsG').
      f_equal. apply tabulate_ext. intros b Hb.
      apply Rsum_ext. intros i Hi. apply Rsum_ext. intros j Hj.
      apply Hget; (assumption || lia).
    + rewrite (image_quad_norm_compact G batch n (n / 2 + 1) HwG HsG E ltac:(lia)).
      f_equal. apply tabulate_ext. intros b Hb.
      transitivity (2 * Rsum n (fun i => Rsum (n / 2 + 1) (fun j => e b i j))
                    - Rsum n (fun i => e b i 0%nat)).
      { f_equal; [f_equal|]; apply Rsum_ext; intros i Hi;
          [apply Rsum_ext; intros j Hj|]; apply Hget; (assumption || lia). }
      rewrite Hhalf. subst n. symmetry. apply (energy_full_compact h (e b)).
      intros i j Hi Hj. unfold e.
      now rewrite dft2_energy_mirror.
Qed.

Lemma quad_norm_full_compact_witness :
  exists norm,
    (y <- ufft2 (Np.astype_complex
                   (mk_ndarray [3; 3]%nat [1; 2; 3; 4; 5; 6; 7; 8; 9])) ;;
     image_quad_norm y) = Ok norm
    /\ (y <- urfft2 (mk_ndarray [3; 3]%nat [1; 2; 3; 4; 5; 6; 7; 8; 9]) ;;
        image_quad_norm y) = Ok norm.
Proof.
  apply (quad_norm_full_compact
           (mk_ndarray [3; 3]%nat [1; 2; 3; 4; 5; 6; 7; 8; 9]) [] 3).
  - reflexivity.
  - reflexivity.
  - exists 1%nat. reflexivity.
Defined.

(** On a square image of even side the two norms differ as well: the
    compact formula counts the column of the middle frequency twice. For
    the 4 by 4 image with a single 1 at the origin the norm of [ufft2] is
    1 and the norm of [urfft2] is 5/4. *)
Example quad_norm_even_square_differ :
  (y <- ufft2 (Np.astype_complex
                 (mk_ndarray [4; 4]%nat [1; 0; 0; 0; 0; 0; 0; 0; 0; 0; 0; 0; 0; 0; 0; 0])) ;;
   image_quad_norm y)
  <> (y <- urfft2 (mk_ndarray [4; 4]%nat [1; 0; 0; 0; 0; 0; 0; 0; 0; 0; 0; 0; 0; 0; 0; 0]) ;;
      image_quad_norm y).
Proof.
  intros H. run_in H. rewrite !twiddle_0 in H.
  rewrite !Cabs_sqr in H. crunch_in H.
  apply Ok_single_inj in H.
  assert (Ht : / sqrt (INR 16) * / sqrt (INR 16) * 16 = 1).
  { rewrite <- Rinv_mult, sqrt_sqrt by apply pos_INR. simpl. field. }
  set (t := / sqrt (INR 16)) in *.
  unfold Rdiv in H. fold t in H. ring_simplify in H. nra.
Qed.

(* ================================================================= *)
(** ** The inverse transform of the FFT primitive inverts the forward one *)

Lemma Cexp_add (a b : R) : Cexp (a + b) = Cmul (Cexp a) (Cexp b).
Proof.
  unfold Cexp, Cmul, Cre, Cim. simpl. rewrite cos_plus, sin_plus. f_equal; ring.
Qed.

Lemma Cexp_0 : Cexp 0 = (1, 0).
Proof. unfold Cexp. now rewrite cos_0, sin_0. Qed.

Lemma Cexp_period_nat (k : nat) : Cexp (2 * INR k * PI) = (1, 0).
Proof.
  unfold Cexp. replace (2 * INR k * PI) with (0 + 2 * INR k * PI) by ring.
  now rewrite cos_period, sin_period, cos_0, sin_0.
Qed.

Lemma Cexp_neg (a : R) : Cexp (- a) = Cconj (Cexp a).
Proof. unfold Cexp, Cconj, Cre, Cim. simpl. now rewrite cos_neg, sin_neg. Qed.

(** The angle between the frequencies [i] and [j] among [n]. *)
Lemma twiddle_pair (n i j m : nat) :
  (1 <= n)%nat ->
  Cmul (Fft.twiddle (-1) n (j * m)) (Fft.twiddle 1 n (m * i))
  = Cexp (INR m * (2 * PI * (INR i - INR j) / INR n)).
Proof.
  intros Hn. unfold Fft.twiddle. rewrite <- Cexp_add. f_equal.
  rewrite !mult_INR. field. apply not_0_INR. lia.
Qed.

Lemma Cexp_full_turns (i j : nat) : Cexp (2 * PI * (INR i - INR j)) = (1, 0).
Proof.
  destruct (Nat.le_gt_cases j i) as [Hle|Hlt].
  - rewrite <- minus_INR by exact Hle.
    replace (2 * PI * INR (i - j)) with (2 * INR (i - j) * PI) by ring.
    apply Cexp_period_nat.
  - replace (2 * PI * (INR i - INR j)) with (- (2 * INR (j - i) * PI))
      by (rewrite minus_INR by lia; ring).
    rewrite Cexp_neg, Cexp_period_nat. unfold Cconj, Cre, Cim. simpl. f_equal. ring.
Qed.

Lemma cos_lt_1 (x : R) : 0 < x < 2 * PI -> cos x < 1.
Proof.
  intros Hx. replace x with (2 * (x / 2)) by field.
  rewrite cos_2a_sin.
  assert (Hs : 0 < sin (x / 2)) by (apply sin_gt_0; lra).
  nra.
Qed.

Lemma cos_angle_lt_1 (n i j : nat) :
  (i < n)%nat -> (j < n)%nat -> i <> j ->
  cos (2 * PI * (INR i - INR j) / INR n) < 1.
Proof.
  intros Hi Hj Hij.
  assert (Hn : 0 < INR n) by (apply (lt_INR 0); lia).
  pose proof PI_RGT_0 as Hpi.
  assert (G : forall a b : nat, (b < a)%nat -> (a < n)%nat ->
            0 < 2 * PI * (INR a - INR b) / INR n < 2 * PI).
  { intros a b Hab Han. apply lt_INR in Hab. apply lt_INR in Han.
    pose proof (pos_INR b) as Hb.
    split.
    - apply Rdiv_lt_0_compat; [nra | exact Hn].
    - apply (Rmult_lt_reg_r (INR n)); [exact Hn|].
      unfold Rdiv. rewrite Rmult_assoc, Rinv_l by lra. nra. }
  destruct (Nat.lt_trichotomy i j) as [Hlt|[Heq|Hgt]]; [|contradiction|].
  - replace (2 * PI * (INR i - INR j) / INR n)
      with (- (2 * PI * (INR j - INR i) / INR n)) by (field; lra).
    rewrite cos_neg. apply cos_lt_1. now apply G.
  - apply cos_lt_1. now apply G.
Qed.

Lemma Csum_S_last (n : nat) (f : nat -> C) : Csum (S n) f = Cadd (Csum n f) (f n).
Proof.
  unfold Csum. rewrite seq_S, map_app, Clsum_app. simpl. now rewrite Cadd_zero_r.
Qed.

(** The sum of the powers of a root of unity. *)
Lemma geometric_sum (phi : R) (n : nat) :
  Cmul (Cadd (Cexp phi) (-1, 0)) (Csum n (fun m => Cexp (INR m * phi)))
  = Cadd (Cexp (INR n * phi)) (-1, 0).
Proof.
  induction n as [|n IH].
  - simpl INR. rewrite Rmult_0_l, Cexp_0.
    unfold Csum, Cmul, Cadd, Cre, Cim, zero, Zero_C. simpl. f_equal; ring.
  - rewrite Csum_S_last.
    replace (INR (S n) * phi) with (INR n * phi + phi) by (rewrite S_INR; ring).
    rewrite Cexp_add.
    set (S := Csum n (fun m => Cexp (INR m * phi))) in *.
    set (z := Cexp phi) in *. set (zn := Cexp (INR n * phi)) in *.
    assert (E : Cmul (Cadd z (-1, 0)) (Cadd S zn)
                = Cadd (Cmul (Cadd z (-1, 0)) S) (Cmul (Cadd z (-1, 0)) zn)).
    { unfold Cmul, Cadd, Cre, Cim. simpl. f_equal; ring. }
    rewrite E, IH. unfold Cmul, Cadd, Cre, Cim. simpl. f_equal; ring.
Qed.

Lemma Csum_const (n : nat) (c : C) : Csum n (fun _ => c) = Cscale c (INR n).
Proof.
  induction n as [|n IH].
  - unfold Csum, Cscale, Cre, Cim, zero, Zero_C. simpl. f_equal; ring.
  - rewrite Csum_S_last, IH, S_INR.
    unfold Cadd, Cscale, Cre, Cim. simpl. f_equal; ring.
Qed.

(** The twiddle factors of two frequencies are orthogonal. *)
Lemma twiddle_orthogonal (n i j : nat) :
  (i < n)%nat -> (j < n)%nat ->
  Csum n (fun m => Cmul (Fft.twiddle (-1) n (j * m)) (Fft.twiddle 1 n (m * i)))
  = if (j =? i)%nat then (INR n, 0) else zero.
Proof.
  intros Hi Hj.
  rewrite (Csum_ext n _ (fun m => Cexp (INR m * (2 * PI * (INR i - INR j) / INR n))))
    by (intros m _; apply twiddle_pair; lia).
  destruct (j =? i)%nat eqn:E.
  - apply Nat.eqb_eq in E. subst j.
    rewrite (Csum_ext n _ (fun _ => (1, 0))).
    + rewrite Csum_const. unfold Cscale, Cre, Cim. simpl. f_equal; ring.
    + intros m _. rewrite <- Cexp_0. f_equal. unfold Rdiv. ring.
  - apply Nat.eqb_neq in E.
    set (phi := 2 * PI * (INR i - INR j) / INR n).
    pose proof (geometric_sum phi n) as G.
    assert (Hturn : Cexp (INR n * phi) = (1, 0)).
    { unfold phi. replace (INR n * (2 * PI * (INR i - INR j) / INR n))
        with (2 * PI * (INR i - INR j)) by (field; apply not_0_INR; lia).
      apply Cexp_full_turns. }
    rewrite Hturn in G.
    assert (Hc : cos phi < 1) by (apply cos_angle_lt_1; auto).
    destruct (Csum n (fun m => Cexp (INR m * phi))) as [sr si].
    unfold Cexp, Cmul, Cadd, Cre, Cim in G. simpl in G.
    injection G as G1 G2. unfold zero, Zero_C.
    set (a := cos phi + -1) in *. set (b := sin phi + 0) in *.
    assert (Ha : a <> 0) by (unfold a; lra).
    assert (Hq : 0 < a * a + b * b) by nra.
    assert (Hr : (a * a + b * b) * sr = 0).
    { replace ((a * a + b * b) * sr)
        with (a * (a * sr - b * si) + b * (a * si + b * sr)) by ring.
      rewrite G1, G2. ring. }
    assert (Hs : (a * a + b * b) * si = 0).
    { replace ((a * a + b * b) * si)
        with (a * (a * si + b * sr) - b * (a * sr - b * si)) by ring.
      rewrite G1, G2. ring. }
    apply Rmult_integral in Hr. apply Rmult_integral in Hs.
    f_equal; lra.
Qed.

Lemma Cmul_assoc (a b c : C) : Cmul a (Cmul b c) = Cmul (Cmul a b) c.
Proof. unfold Cmul, Cre, Cim. simpl. f_equal; ring. Qed.

Lemma Cmul_comm (a b : C) : Cmul a b = Cmul b a.
Proof. unfold Cmul, Cre, Cim. simpl. f_equal; ring. Qed.

Lemma Cmul_zero_r (z : C) : Cmul z zero = zero.
Proof. unfold Cmul, Cre, Cim, zero, Zero_C. simpl. f_equal; ring. Qed.

Lemma Cmul_add_l (a b c : C) : Cmul (Cadd a b) c = Cadd (Cmul a c) (Cmul b c).
Proof. unfold Cmul, Cadd, Cre, Cim. simpl. f_equal; ring. Qed.

Lemma Cmul_add_r (a b c : C) : Cmul c (Cadd a b) = Cadd (Cmul c a) (Cmul c b).
Proof. unfold Cmul, Cadd, Cre, Cim. simpl. f_equal; ring. Qed.

Lemma Cdiv_add (a b : C) (r : R) : Cdiv (Cadd a b) r = Cadd (Cdiv a r) (Cdiv b r).
Proof. unfold Cdiv, Cadd, Cre, Cim, Rdiv. simpl. f_equal; ring. Qed.

Lemma Cdiv_mul_l (a b : C) (r : R) : Cdiv (Cmul a b) r = Cmul (Cdiv a r) b.
Proof. unfold Cdiv, Cmul, Cre, Cim, Rdiv. simpl. f_equal; ring. Qed.

Lemma Csum_0 (f : nat -> C) : Csum 0 f = zero.
Proof. reflexivity. Qed.

Lemma Csum_zero (n : nat) : Csum n (fun _ => zero) = zero.
Proof.
  induction n as [|n IH]; [reflexivity|].
  now rewrite Csum_S_last, IH, Cadd_zero_r.
Qed.

Lemma Csum_plus (n : nat) (f g : nat -> C) :
  Csum n (fun i => Cadd (f i) (g i)) = Cadd (Csum n f) (Csum n g).
Proof.
  induction n as [|n IH].
  - rewrite !Csum_0. now rewrite Cadd_zero_r.
  - rewrite !Csum_S_last, IH.
    unfold Cadd, Cre, Cim. simpl. f_equal; ring.
Qed.

Lemma Csum_mul_l (n : nat) (f : nat -> C) (c : C) :
  Cmul (Csum n f) c = Csum n (fun j => Cmul (f j) c).
Proof.
  induction n as [|n IH].
  - rewrite !Csum_0. apply Cmul_zero_l.
  - now rewrite !Csum_S_last, Cmul_add_l, IH.
Qed.

Lemma Csum_mul_r (n : nat) (f : nat -> C) (c : C) :
  Cmul c (Csum n f) = Csum n (fun j => Cmul c (f j)).
Proof.
  induction n as [|n IH].
  - rewrite !Csum_0. apply Cmul_zero_r.
  - now rewrite !Csum_S_last, Cmul_add_r, IH.
Qed.

Lemma Csum_div (n : nat) (f : nat -> C) (r : R) :
  Cdiv (Csum n f) r = Csum n (fun j => Cdiv (f j) r).
Proof.
  induction n as [|n IH].
  - rewrite !Csum_0. apply Cdiv_zero.
  - now rewrite !Csum_S_last, Cdiv_add, IH.
Qed.

Lemma Csum_swap (m n : nat) (f : nat -> nat -> C) :
  Csum m (fun i => Csum n (fun j => f i j)) = Csum n (fun j => Csum m (fun i => f i j)).
Proof.
  induction m as [|m IH].
  - rewrite Csum_0. rewrite (Csum_ext n _ (fun _ => zero)) by reflexivity.
    now rewrite Csum_zero.
  - rewrite Csum_S_last, IH, <- Csum_plus.
    apply Csum_ext. intros j _. now rewrite Csum_S_last.
Qed.

Lemma Csum_delta (n i : nat) (f : nat -> C) :
  (i < n)%nat -> Csum n (fun j => if (j =? i)%nat then f j else zero) = f i.
Proof.
  induction n as [|n IH]; intros Hi; [lia|].
  rewrite Csum_S_last. destruct (Nat.eq_dec i n) as [->|Hne].
  - rewrite Nat.eqb_refl.
    rewrite (Csum_ext n _ (fun _ => zero)).
    + now rewrite Csum_zero, Cadd_zero_l.
    + intros j Hj. destruct (j =? n)%nat eqn:E; [apply Nat.eqb_eq in E; lia | reflexivity].
  - rewrite IH by lia.
    destruct (n =? i)%nat eqn:E; [apply Nat.eqb_eq in E; lia|].
    apply Cadd_zero_r.
Qed.

Lemma upd_upd (idx : list nat) (k u v : nat) : upd (upd idx k u) k v = upd idx k v.
Proof.
  revert k. induction idx as [|i idx IH]; intros [|k]; simpl; try reflexivity.
  now rewrite IH.
Qed.

Lemma upd_comm (idx : list nat) (k k' u v : nat) :
  k <> k' -> upd (upd idx k u) k' v = upd (upd idx k' v) k u.
Proof.
  revert k k'. induction idx as [|i idx IH]; intros [|k] [|k'] Hk; simpl;
    try reflexivity; try lia.
  rewrite IH by lia. reflexivity.
Qed.

Lemma nth_upd_same (idx : list nat) (k v : nat) :
  (k < length idx)%nat -> nth k (upd idx k v) 0%nat = v.
Proof. intros Hk. rewrite nth_upd by exact Hk. now rewrite Nat.eqb_refl. Qed.

(** The samples of a line of the array along axis [k]. *)
Lemma along_valid {A} `{Zero A} (a : ndarray A) (k : nat) (idx : list nat) (j : nat) :
  (j < nth k (shape a) 0)%nat -> Fft.along a k idx j = get a (upd idx k j).
Proof.
  intros Hj. unfold Fft.along.
  destruct (j <? nth k (shape a) 0)%nat eqn:E; [reflexivity|].
  apply Nat.ltb_ge in E. lia.
Qed.

(** The coefficient of the transform of length [n] along an axis of
    length [n]. *)
Lemma get_dft (sgn : R) (a : ndarray C) (k : nat) (idx : list nat) :
  (k < ndim a)%nat -> valid_index (shape a) idx ->
  get (Fft.dft sgn a (nth k (shape a) 0%nat) k) idx
  = Csum (nth k (shape a) 0%nat)
      (fun j => Cmul (get a (upd idx k j))
                  (Fft.twiddle sgn (nth k (shape a) 0%nat) (j * nth k idx 0%nat))).
Proof.
  intros Hk Hv. unfold Fft.dft. rewrite upd_same, get_tabulate by exact Hv.
  unfold Fft.dft_at. apply Csum_ext. intros j Hj. now rewrite along_valid.
Qed.

Lemma shape_dft_same (sgn : R) (a : ndarray C) (k : nat) :
  shape (Fft.dft sgn a (nth k (shape a) 0%nat) k) = shape a.
Proof. unfold Fft.dft. rewrite shape_tabulate. apply upd_same. Qed.

Lemma shape_idft_step_same (a : ndarray C) (k : nat) :
  shape (Spec.idft_step a (nth k (shape a) 0%nat) k) = shape a.
Proof. unfold Spec.idft_step. simpl. apply upd_same. Qed.

Lemma get_idft_step (a : ndarray C) (k : nat) (idx : list nat) :
  (k < ndim a)%nat -> valid_index (shape a) idx ->
  get (Spec.idft_step a (nth k (shape a) 0%nat) k) idx
  = Cdiv (Csum (nth k (shape a) 0%nat)
            (fun j => Cmul (get a (upd idx k j))
                        (Fft.twiddle 1 (nth k (shape a) 0%nat) (j * nth k idx 0%nat))))
      (INR (nth k (shape a) 0%nat)).
Proof.
  intros Hk Hv. unfold Spec.idft_step, Np.div_scalar.
  rewrite get_amap; [| apply wf_dft | now rewrite shape_dft_same].
  now rewrite get_dft.
Qed.

(** The inverse transform along an axis inverts the forward transform
    along it. *)
Lemma idft_dft_axis (a : ndarray C) (k : nat) :
  wf a -> (k < ndim a)%nat -> (1 <= nth k (shape a) 0)%nat ->
  Spec.idft_step (Fft.dft (-1) a (nth k (shape a) 0%nat) k) (nth k (shape a) 0%nat) k = a.
Proof.
  intros Hw Hk Hn. set (n := nth k (shape a) 0%nat) in *.
  set (F := Fft.dft (-1) a n k).
  assert (HsF : shape F = shape a) by apply shape_dft_same.
  assert (HnF : nth k (shape F) 0%nat = n) by now rewrite HsF.
  apply array_ext.
  - apply wf_idft_step.
  - exact Hw.
  - rewrite <- HnF, shape_idft_step_same. exact HsF.
  - rewrite <- HnF, shape_idft_step_same. intros idx HvF.
    assert (Hv : valid_index (shape a) idx) by now rewrite <- HsF.
    pose proof (valid_index_length _ _ Hv) as Hlen.
    pose proof (valid_index_nth _ _ k Hv Hk) as Hi. fold n in Hi.
    rewrite get_idft_step by (unfold ndim; try rewrite HsF; assumption).
    rewrite HnF.
    rewrite (Csum_ext n _
               (fun m => Csum n (fun j =>
                  Cmul (get a (upd idx k j))
                    (Cmul (Fft.twiddle (-1) n (j * m))
                          (Fft.twiddle 1 n (m * nth k idx 0%nat)))))).
    2:{ intros m Hm. unfold F, n. rewrite get_dft.
        - fold n. rewrite Csum_mul_l. apply Csum_ext. intros j Hj.
          rewrite upd_upd, nth_upd_same by (rewrite Hlen; exact Hk).
          now rewrite Cmul_assoc.
        - exact Hk.
        - apply valid_index_upd; [exact Hv | exact Hm]. }
    rewrite Csum_swap.
    rewrite (Csum_ext n _
               (fun j => if (j =? nth k idx 0)%nat
                         then Cmul (get a (upd idx k j)) (INR n, 0) else zero)).
    2:{ intros j Hj. rewrite <- Csum_mul_r, twiddle_orthogonal by assumption.
        destruct (j =? nth k idx 0)%nat; [reflexivity | apply Cmul_zero_r]. }
    rewrite Csum_delta by exact Hi. rewrite upd_same.
    destruct (get a idx) as [re im].
    assert (Hn0 : INR n <> 0) by (apply not_0_INR; lia).
    unfold Cdiv, Cmul, Cre, Cim. simpl. f_equal; field; exact Hn0.
Qed.

(** The inverse transform along an axis and the forward transform along
    another axis commute. *)
Lemma idft_dft_commute (a : ndarray C) (k k' : nat) :
  wf a -> (k < ndim a)%nat -> (k' < ndim a)%nat -> k <> k' ->
  Spec.idft_step (Fft.dft (-1) a (nth k (shape a) 0%nat) k) (nth k' (shape a) 0%nat) k'
  = Fft.dft (-1) (Spec.idft_step a (nth k' (shape a) 0%nat) k') (nth k (shape a) 0%nat) k.
Proof.
  intros Hw Hk Hk' Hne.
  set (n := nth k (shape a) 0%nat). set (n' := nth k' (shape a) 0%nat).
  set (D := Fft.dft (-1) a n k). set (I := Spec.idft_step a n' k').
  assert (HsD : shape D = shape a) by apply shape_dft_same.
  assert (HsI : shape I = shape a) by apply shape_idft_step_same.
  replace (Spec.idft_step D n' k') with (Spec.idft_step D (nth k' (shape D) 0%nat) k')
    by (now rewrite HsD).
  replace (Fft.dft (-1) I n k) with (Fft.dft (-1) I (nth k (shape I) 0%nat) k)
    by (now rewrite HsI).
  apply array_ext.
  - apply wf_idft_step.
  - apply wf_dft.
  - now rewrite shape_idft_step_same, shape_dft_same, HsD, HsI.
  - rewrite shape_idft_step_same. intros idx HvD.
    assert (Hv : valid_index (shape a) idx) by now rewrite <- HsD.
    pose proof (valid_index_length _ _ Hv) as Hlen.
    rewrite get_idft_step by (unfold ndim; try rewrite HsD; assumption).
    rewrite get_dft by (unfold ndim; try rewrite HsI; assumption).
    rewrite HsD, HsI. fold n n'.
    rewrite (Csum_ext n' _
               (fun m => Csum n (fun j =>
                  Cmul (Cmul (get a (upd (upd idx k j) k' m))
                             (Fft.twiddle (-1) n (j * nth k idx 0%nat)))
                       (Fft.twiddle 1 n' (m * nth k' idx 0%nat))))).
    2:{ intros m Hm. unfold D, n. rewrite get_dft.
        - fold n. rewrite Csum_mul_l. apply Csum_ext. intros j Hj.
          rewrite nth_upd_other by exact Hne.
          now rewrite (upd_comm idx k k') by exact Hne.
        - exact Hk.
        - apply valid_index_upd; [exact Hv | exact Hm]. }
    rewrite Csum_swap, Csum_div. apply Csum_ext. intros j Hj.
    unfold I, n'. rewrite get_idft_step.
    + fold n'. rewrite <- Cdiv_mul_l. f_equal. rewrite Csum_mul_l.
      apply Csum_ext. intros m Hm.
      rewrite nth_upd_other by (intros E; apply Hne; now symmetry).
      rewrite <- !Cmul_assoc. f_equal. apply Cmul_comm.
    + exact Hk'.
    + apply valid_index_upd; [exact Hv | exact Hj].
Qed.

Lemma shape_idft_axes (a : ndarray C) (ks : list nat) :
  shape (Spec.idft_axes a ks) = shape a.
Proof. apply shape_transform_axes, shape_idft_step. Qed.

Lemma shape_dft_axes (a : ndarray C) (ks : list nat) :
  shape (Spec.dft_axes a ks) = shape a.
Proof. apply shape_transform_axes, shape_dft. Qed.

Lemma wf_idft_axes (a : ndarray C) (ks : list nat) : wf a -> wf (Spec.idft_axes a ks).
Proof. apply wf_transform_axes, wf_idft_step. Qed.

Lemma wf_dft_axes (a : ndarray C) (ks : list nat) : wf a -> wf (Spec.dft_axes a ks).
Proof. apply wf_transform_axes, wf_dft. Qed.

Lemma idft_axes_cons (a : ndarray C) (k : nat) (ks : list nat) :
  Spec.idft_axes a (k :: ks)
  = Spec.idft_step (Spec.idft_axes a ks) (nth k (shape a) 0%nat) k.
Proof. reflexivity. Qed.

Lemma dft_axes_cons (a : ndarray C) (k : nat) (ks : list nat) :
  Spec.dft_axes a (k :: ks)
  = Fft.dft (-1) (Spec.dft_axes a ks) (nth k (shape a) 0%nat) k.
Proof. reflexivity. Qed.

(** The inverse transforms along some axes commute with the forward
    transform along another axis. *)
Lemma idft_axes_dft_commute (t : ndarray C) (k : nat) (ks : list nat) :
  wf t -> (k < ndim t)%nat -> ~ In k ks -> Forall (fun k' => k' < ndim t)%nat ks ->
  Spec.idft_axes (Fft.dft (-1) t (nth k (shape t) 0%nat) k) ks
  = Fft.dft (-1) (Spec.idft_axes t ks) (nth k (shape t) 0%nat) k.
Proof.
  intros Hw Hk Hnin Hks. induction ks as [|k' ks IH].
  - reflexivity.
  - inversion Hks as [|? ? Hk' Hks']; subst.
    rewrite !idft_axes_cons, IH by (try assumption; intros Hin; apply Hnin; now right).
    rewrite shape_dft_same.
    set (t' := Spec.idft_axes t ks).
    assert (Hs' : shape t' = shape t) by apply shape_idft_axes.
    rewrite <- Hs'. apply idft_dft_commute.
    + now apply wf_idft_axes.
    + unfold ndim. now rewrite Hs'.
    + unfold ndim. now rewrite Hs'.
    + intros E. apply Hnin. left. now symmetry.
Qed.

(** The inverse transforms along distinct axes invert the forward
    transforms along them. *)
Lemma idft_axes_dft_axes (x : ndarray C) (ks : list nat) :
  wf x -> NoDup ks ->
  Forall (fun k => k < ndim x /\ 1 <= nth k (shape x) 0)%nat ks ->
  Spec.idft_axes (Spec.dft_axes x ks) ks = x.
Proof.
  intros Hw Hnd Hks. induction ks as [|k ks IH].
  - reflexivity.
  - inversion Hnd as [|? ? Hnin Hnd']; subst.
    inversion Hks as [|? ? [Hk Hn] Hks']; subst.
    rewrite dft_axes_cons.
    set (t := Spec.dft_axes x ks).
    assert (Hst : shape t = shape x) by apply shape_dft_axes.
    rewrite <- Hst. rewrite idft_axes_cons, shape_dft_same.
    rewrite idft_axes_dft_commute.
    + assert (Hinv : Spec.idft_axes t ks = x) by (unfold t; now apply IH).
      rewrite Hinv, Hst. now apply idft_dft_axis.
    + now apply wf_dft_axes.
    + unfold ndim. now rewrite Hst.
    + exact Hnin.
    + unfold ndim. rewrite Hst. apply Forall_forall. intros k' Hin.
      rewrite Forall_forall in Hks'. now apply Hks'.
Qed.

(** [ifftn] after [fftn], over the last [d] axes of an array that has
    them, none of them empty, returns the array. *)
Theorem ifftn_fftn (x : ndarray C) (d : Z) :
  wf x -> (1 <= d <= Z.of_nat (ndim x))%Z -> axes_nonempty (shape x) d ->
  (y <- Fft.fftn x (Py.range (- d) 0) ;; Fft.ifftn y (Py.range (- d) 0)) = Ok x.
Proof.
  intros Hw Hd Hne. rewrite fftn_last_axes by assumption. cbn [Py.bind].
  set (ks := Spec.last_axes (ndim x) (Z.to_nat d)).
  assert (Hs : shape (Spec.dft_axes x ks) = shape x) by apply shape_dft_axes.
  rewrite ifftn_last_axes.
  - unfold ndim. rewrite Hs. fold (ndim x). fold ks. f_equal.
    apply idft_axes_dft_axes; [exact Hw | apply seq_NoDup |].
    pose proof (axes_nonempty_nth (shape x) d Hd Hne) as Hn. fold (ndim x) in Hn.
    fold ks in Hn. rewrite Forall_forall in Hn |- *. intros k Hk.
    split; [|now apply Hn]. unfold ks, Spec.last_axes in Hk. apply in_seq in Hk. lia.
  - unfold ndim. rewrite Hs. exact Hd.
  - now rewrite Hs.
Qed.

(** X1: with the transforms of the FFT primitive written as the sums
    that define them, for a [dim] between 1 and the rank and no empty
    transformed axis, [uifftn] after [ufftn] returns the array. *)
Theorem uifftn_ufftn_exact (x : ndarray C) (dim : option Z) :
  wf x ->
  (1 <= default_dim x dim <= Z.of_nat (ndim x))%Z ->
  axes_nonempty (shape x) (default_dim x dim) ->
  (y <- ufftn x dim ;; uifftn y dim) = Ok x.
Proof.
  intros Hw Hd Hne. pose proof (ifftn_fftn x _ Hw Hd Hne) as Hinv.
  unfold ufftn, uifftn.
  remember (default_dim x dim) as d eqn:Ed.
  destruct (Fft.fftn x (Py.range (- d) 0)) as [y|e] eqn:Ey; [|discriminate].
  cbn [Py.bind] in Hinv |- *.
  destruct (fftn_ok_wf _ _ _ Hw Ey) as [Hwy Hsy].
  assert (Hdy : default_dim (Np.div_scalar y (norm_factor (shape x) d)) dim = d).
  { rewrite Ed. unfold default_dim, ndim. simpl shape. now rewrite Hsy. }
  rewrite Hdy. simpl shape. rewrite Hsy.
  rewrite (ifftn_div_scalar x y d _ Hwy Hinv). cbn [Py.bind]. f_equal.
  now apply mul_div_scalar.
Qed.

Lemma uifftn_ufftn_exact_witness :
  (y <- ufftn (mk_ndarray [2; 2]%nat [(1, 2); (3, 4); (5, 6); (7, 8)]) (Some 1%Z) ;;
   uifftn y (Some 1%Z))
  = Ok (mk_ndarray [2; 2]%nat [(1, 2); (3, 4); (5, 6); (7, 8)]).
Proof.
  apply (uifftn_ufftn_exact
           (mk_ndarray [2; 2]%nat [(1, 2); (3, 4); (5, 6); (7, 8)]) (Some 1%Z)).
  - reflexivity.
  - simpl. lia.
  - repeat constructor.
Defined.

(* ================================================================= *)
(** ** Errors of [image_quad_norm] and of [ir2tf] *)

(** X14: [image_quad_norm] needs two axes, and a first sample along the
    last axis when the last two lengths differ: an array of rank below 2,
    and an array whose last axis is empty while the axis before it is not,
    are refused with an [IndexError]. *)
Theorem image_quad_norm_index_error (a : ndarray C) :
  ((ndim a < 2)%nat -> image_quad_norm a = Raise IndexError)
  /\ (forall batch m, shape a = batch ++ [m; 0%nat] -> m <> 0%nat ->
        image_quad_norm a = Raise IndexError).
Proof.
  split.
  - intros Hr. unfold image_quad_norm, Np.shape_at.
    destruct (ndim a) as [|[|r]] eqn:E; [reflexivity | | lia].
    cbn. reflexivity.
  - intros batch m Hs Hm. unfold image_quad_norm.
    assert (Hs' : shape a = (batch ++ [m]) ++ [0%nat]) by (now rewrite <- app_assoc).
    rewrite (shape_at_last a _ 0%nat Hs'), (shape_at_last2 a _ m 0%nat Hs).
    cbn [Py.bind].
    destruct (0 =? m)%nat eqn:E; [apply Nat.eqb_eq in E; lia|]. cbn [negb].
    rewrite (sum_last_app _ (batch ++ [m]) 0%nat) by exact Hs'. cbn [Py.bind].
    rewrite (sum_last_app _ batch m) by reflexivity. cbn [Py.bind].
    unfold Np.getitem_last0. rewrite Hs', rev_app_distr. reflexivity.
Qed.

Lemma image_quad_norm_index_error_witness :
  image_quad_norm (mk_ndarray [3%nat] [(1, 0); (2, 0); (3, 0)]) = Raise IndexError
  /\ image_quad_norm (mk_ndarray [2; 0]%nat []) = Raise IndexError.
Proof.
  split.
  - apply (proj1 (image_quad_norm_index_error
                    (mk_ndarray [3%nat] [(1, 0); (2, 0); (3, 0)]))).
    unfold ndim. simpl. lia.
  - apply (proj2 (image_quad_norm_index_error (mk_ndarray [2; 0]%nat [])) [] 2%nat).
    + reflexivity.
    + lia.
Defined.

Lemma broadcast_aligned_too_long (s t : list nat) (k : nat) :
  length s = length t -> (nth k t 0 < nth k s 0)%nat -> nth k s 0%nat <> 1%nat ->
  Np.broadcast_aligned s (Np.region s t) = false.
Proof.
  revert t k. induction s as [|a s IH]; intros [|b t] k Hlen Hlt Hne;
    simpl in *; try discriminate.
  - destruct k; simpl in Hlt; lia.
  - destruct k as [|k].
    + destruct (a =? Nat.min a b)%nat eqn:E1; [apply Nat.eqb_eq in E1; lia|].
      destruct (a =? 1)%nat eqn:E2; [apply Nat.eqb_eq in E2; lia|].
      reflexivity.
    + rewrite (IH t k) by (lia || assumption). apply andb_false_r.
Qed.

Lemma length_region (s t : list nat) : length (Np.region s t) = length t.
Proof.
  revert t. induction s as [|a s IH]; intros [|b t]; simpl; try reflexivity.
  now rewrite IH.
Qed.

(** X15: [ir2tf] refuses an impulse response that the target shape cannot
    hold: more axes than the target shape has are an [IndexError], and,
    at equal rank, an extent above the target's (other than the extent 1,
    which is broadcast) is a [ValueError]; nothing is truncated. *)
Theorem ir2tf_does_not_fit (imp_resp : ndarray C) (t : list nat) (dim : option Z)
    (is_real : bool) :
  ((length t < ndim imp_resp)%nat -> ir2tf imp_resp t dim is_real = Raise IndexError)
  /\ (forall k, length t = ndim imp_resp ->
        (nth k t 0 < nth k (shape imp_resp) 0)%nat ->
        nth k (shape imp_resp) 0%nat <> 1%nat ->
        ir2tf imp_resp t dim is_real = Raise ValueError).
Proof.
  split.
  - intros Hr. unfold ir2tf, ir_padded_rolled, Np.setitem_corner, Np.zeros, ndim.
    rewrite shape_tabulate.
    destruct (length t <? length (shape imp_resp))%nat eqn:E;
      [reflexivity | apply Nat.ltb_ge in E; unfold ndim in Hr; lia].
  - intros k Hlen Hlt Hne.
    unfold ir2tf, ir_padded_rolled, Np.setitem_corner, Np.zeros, ndim.
    rewrite shape_tabulate. unfold ndim in Hlen.
    destruct (length t <? length (shape imp_resp))%nat eqn:E;
      [apply Nat.ltb_lt in E; lia|].
    unfold Np.broadcastable, Np.astype_float. simpl shape.
    rewrite length_region, <- Hlen, Nat.leb_refl, Nat.sub_diag. simpl skipn.
    rewrite (broadcast_aligned_too_long _ _ k) by (assumption || now symmetry).
    reflexivity.
Qed.

Lemma ir2tf_does_not_fit_witness :
  ir2tf (mk_ndarray [1; 2]%nat [(1, 0); (1, 0)]) [4%nat] None true = Raise IndexError
  /\ ir2tf (mk_ndarray [3%nat] [(1, 0); (1, 0); (1, 0)]) [2%nat] None true
     = Raise ValueError.
Proof.
  split.
  - apply (proj1 (ir2tf_does_not_fit (mk_ndarray [1; 2]%nat [(1, 0); (1, 0)])
                    [4%nat] None true)).
    unfold ndim. simpl. lia.
  - apply (proj2 (ir2tf_does_not_fit (mk_ndarray [3%nat] [(1, 0); (1, 0); (1, 0)])
                    [2%nat] None true) 0%nat).
    + reflexivity.
    + simpl. lia.
    + simpl. lia.
Defined.

(* ================================================================= *)
(** ** The shape of the real transform *)

(** X11: [urfftn] over the last [dim] axes, none of them empty, returns
    an array of the shape of its input except for the last axis, which
    has [n / 2 + 1] coefficients for [n] samples. *)
Theorem urfftn_shape (x : ndarray R) (dim : option Z) :
  (1 <= default_dim x dim <= Z.of_nat (ndim x))%Z ->
  axes_nonempty (shape x) (default_dim x dim) ->
  exists y, urfftn x dim = Ok y
            /\ shape y = upd (shape x) (ndim x - 1)
                           (nth (ndim x - 1) (shape x) 0 / 2 + 1)%nat.
Proof.
  intros Hd Hne. destruct (rfftn_shape x _ Hd Hne) as (y & Hy & Hs).
  unfold urfftn. rewrite Hy. cbn [Py.bind]. eexists. split; [reflexivity|].
  exact Hs.
Qed.

Lemma urfftn_shape_witness :
  exists y, urfftn (Np.ones [5; 5; 5]%nat) None = Ok y /\ shape y = [5; 5; 3]%nat.
Proof.
  apply (urfftn_shape (Np.ones [5; 5; 5]%nat) None).
  - simpl. lia.
  - repeat constructor.
Defined.

(* ================================================================= *)
(** ** The Parseval equality *)

Lemma Cmul_conj_abs (z : C) : Cmul z (Cconj z) = RtoC (Cabs z * Cabs z).
Proof.
  rewrite Cabs_sqr. destruct z as [x y]. unfold Cmul, Cconj, RtoC, Cre, Cim. simpl.
  f_equal; ring.
Qed.

Lemma Csum_RtoC (n : nat) (g : nat -> R) : Csum n (fun k => RtoC (g k)) = RtoC (Rsum n g).
Proof.
  induction n as [|n IH].
  - reflexivity.
  - rewrite Csum_S_last, Rsum_S_last, IH. unfold Cadd, RtoC, Cre, Cim. simpl.
    f_equal. ring.
Qed.

Lemma RtoC_inj (a b : R) : RtoC a = RtoC b -> a = b.
Proof. intros H. exact (f_equal fst H). Qed.

Lemma Rsum_scal (n : nat) (c : R) (f : nat -> R) :
  Rsum n (fun i => c * f i) = c * Rsum n f.
Proof.
  induction n as [|n IH].
  - unfold Rsum. simpl. ring.
  - rewrite !Rsum_S_last, IH. ring.
Qed.

Lemma twiddle_conj_sign (n m : nat) :
  Cconj (Fft.twiddle (-1) n m) = Fft.twiddle 1 n m.
Proof.
  unfold Fft.twiddle, Cexp, Cconj, Cre, Cim. simpl.
  replace (-1 * (2 * PI * INR m / INR n)) with (- (1 * (2 * PI * INR m / INR n))) by ring.
  now rewrite cos_neg, sin_neg, Ropp_involutive.
Qed.

(** The energy of the coefficients of a transform of length [n] is [n]
    times the energy of the samples. *)
Lemma parseval_sum (n : nat) (f : nat -> C) :
  Rsum n (fun k =>
    Cabs (Csum n (fun j => Cmul (f j) (Fft.twiddle (-1) n (j * k))))
    * Cabs (Csum n (fun j => Cmul (f j) (Fft.twiddle (-1) n (j * k)))))
  = INR n * Rsum n (fun j => Cabs (f j) * Cabs (f j)).
Proof.
  apply RtoC_inj. rewrite <- Csum_RtoC.
  rewrite (Csum_ext n _
             (fun k => Csum n (fun j => Csum n (fun j' =>
                Cmul (Cmul (f j) (Cconj (f j')))
                     (Cmul (Fft.twiddle (-1) n (j * k)) (Fft.twiddle 1 n (k * j'))))))).
  2:{ intros k _. rewrite <- Cmul_conj_abs, Cconj_sum, Csum_mul_l.
      apply Csum_ext. intros j _. rewrite Csum_mul_r.
      apply Csum_ext. intros j' _.
      rewrite Cconj_mul, twiddle_conj_sign, (Nat.mul_comm j' k).
      unfold Cmul, Cre, Cim. simpl. f_equal; ring. }
  rewrite Csum_swap.
  rewrite (Csum_ext n _ (fun j => Cscale (RtoC (Cabs (f j) * Cabs (f j))) (INR n))).
  2:{ intros j Hj. rewrite Csum_swap.
      rewrite (Csum_ext n _
                 (fun j' => if (j' =? j)%nat
                            then Cmul (Cmul (f j) (Cconj (f j'))) (INR n, 0)
                            else zero)).
      - rewrite Csum_delta by exact Hj. rewrite Cmul_conj_abs.
        unfold Cmul, Cscale, RtoC, Cre, Cim. simpl. f_equal; ring.
      - intros j' Hj'. rewrite <- Csum_mul_r, twiddle_orthogonal by assumption.
        rewrite Nat.eqb_sym.
        destruct (j' =? j)%nat; [reflexivity | apply Cmul_zero_r]. }
  rewrite <- (Rsum_scal n (INR n)), <- Csum_RtoC.
  apply Csum_ext. intros j _. unfold Cscale, RtoC, Cre, Cim. simpl. f_equal; ring.
Qed.

(** The same for a two-dimensional transform, the last axis first. *)
Lemma parseval_sum2 (m n : nat) (f : nat -> nat -> C) :
  Rsum m (fun i => Rsum n (fun j =>
    Cabs (Csum m (fun i' =>
            Cmul (Csum n (fun j' => Cmul (f i' j') (Fft.twiddle (-1) n (j' * j))))
                 (Fft.twiddle (-1) m (i' * i))))
    * Cabs (Csum m (fun i' =>
              Cmul (Csum n (fun j' => Cmul (f i' j') (Fft.twiddle (-1) n (j' * j))))
                   (Fft.twiddle (-1) m (i' * i))))))
  = INR m * INR n * Rsum m (fun i' => Rsum n (fun j' => Cabs (f i' j') * Cabs (f i' j'))).
Proof.
  rewrite Rsum_swap.
  rewrite (Rsum_ext n _
             (fun j => INR m * Rsum m (fun i' =>
                Cabs (Csum n (fun j' => Cmul (f i' j') (Fft.twiddle (-1) n (j' * j))))
                * Cabs (Csum n (fun j' => Cmul (f i' j') (Fft.twiddle (-1) n (j' * j))))))).
  2:{ intros j _.
      apply (parseval_sum m (fun i' =>
               Csum n (fun j' => Cmul (f i' j') (Fft.twiddle (-1) n (j' * j))))). }
  rewrite Rsum_scal, Rsum_swap, Rmult_assoc. f_equal.
  rewrite <- Rsum_scal. apply Rsum_ext. intros i' _.
  apply (parseval_sum n (f i')).
Qed.

Lemma Cabs_div_sqr (z : C) (c : R) :
  c <> 0 ->
  Cabs (Cdiv z c) * Cabs (Cdiv z c) = Cabs z * Cabs z / (c * c).
Proof.
  intros Hc. rewrite !Cabs_sqr. unfold Cdiv, Cre, Cim. simpl. field. exact Hc.
Qed.

Lemma norm_factor_last2 (batch : list nat) (m n : nat) :
  norm_factor (batch ++ [m; n]) 2 * norm_factor (batch ++ [m; n]) 2 = INR m * INR n.
Proof.
  unfold norm_factor.
  rewrite slice_from_last by (rewrite length_app; simpl; lia).
  rewrite length_app. simpl length.
  replace (length batch + 2 - Z.to_nat 2)%nat with (length batch + 0)%nat by lia.
  rewrite skipn_app, skipn_all2 by lia.
  replace (length batch + 0 - length batch)%nat with 0%nat by lia.
  simpl app. simpl skipn. rewrite sqrt_sqrt by apply pos_INR.
  simpl prod. rewrite Nat.mul_1_r. apply mult_INR.
Qed.

(** The energy of the normalized coefficients of an image. *)
Lemma unitary_energy2 (m n : nat) (f : nat -> nat -> C) (nf : R) :
  (1 <= m)%nat -> (1 <= n)%nat -> nf * nf = INR m * INR n ->
  Rsum m (fun i => Rsum n (fun j =>
    Cabs (Cdiv (Csum m (fun i' =>
            Cmul (Csum n (fun j' => Cmul (f i' j') (Fft.twiddle (-1) n (j' * j))))
                 (Fft.twiddle (-1) m (i' * i)))) nf)
    * Cabs (Cdiv (Csum m (fun i' =>
              Cmul (Csum n (fun j' => Cmul (f i' j') (Fft.twiddle (-1) n (j' * j))))
                   (Fft.twiddle (-1) m (i' * i)))) nf)))
  = Rsum m (fun i' => Rsum n (fun j' => Cabs (f i' j') * Cabs (f i' j'))).
Proof.
  intros Hm Hn Hnf.
  assert (Hm0 : INR m <> 0) by (apply not_0_INR; lia).
  assert (Hn0 : INR n <> 0) by (apply not_0_INR; lia).
  assert (Hc : nf <> 0) by (intros ->; rewrite Rmult_0_l in Hnf; symmetry in Hnf;
                            apply Rmult_integral in Hnf; tauto).
  rewrite (Rsum_ext m _ (fun i => / (nf * nf) * Rsum n (fun j =>
    Cabs (Csum m (fun i' =>
            Cmul (Csum n (fun j' => Cmul (f i' j') (Fft.twiddle (-1) n (j' * j))))
                 (Fft.twiddle (-1) m (i' * i))))
    * Cabs (Csum m (fun i' =>
              Cmul (Csum n (fun j' => Cmul (f i' j') (Fft.twiddle (-1) n (j' * j))))
                   (Fft.twiddle (-1) m (i' * i))))))).
  2:{ intros i _. rewrite <- Rsum_scal. apply Rsum_ext. intros j _.
      rewrite Cabs_div_sqr by exact Hc. unfold Rdiv. ring. }
  rewrite Rsum_scal, parseval_sum2, Hnf. field. split; assumption.
Qed.

Lemma ufft2_value (a : ndarray C) (batch : list nat) (m n : nat) :
  shape a = batch ++ [m; n] -> (1 <= m)%nat -> (1 <= n)%nat ->
  ufft2 a
  = Ok (Np.div_scalar
          (Fft.dft (-1)
             (tabulate (batch ++ [m; n]) (Fft.dft_at (-1) a n (S (length batch))))
             m (length batch))
          (norm_factor (shape a) 2)).
Proof.
  intros Hs Hm Hn. unfold ufft2, ufftn. cbn [default_dim].
  rewrite fftn_last_axes.
  - cbn [Py.bind]. rewrite (ndim_last2 _ _ _ _ Hs). do 2 f_equal.
    unfold Spec.last_axes.
    replace (S (S (length batch)) - Z.to_nat 2)%nat with (length batch) by lia.
    change (Z.to_nat 2) with 2%nat. cbn [seq].
    unfold Spec.dft_axes. cbn [Spec.transform_axes fold_right].
    rewrite Hs, nth_last2_first, nth_last2_second.
    f_equal. unfold Fft.dft at 1. rewrite Hs. now rewrite upd_last2_second.
  - rewrite (ndim_last2 _ _ _ _ Hs). lia.
  - rewrite Hs. now apply axes_nonempty_last2.
Qed.

Lemma get_dft2_complex (a : ndarray C) (batch b : list nat) (m n i j : nat) :
  wf a -> shape a = batch ++ [m; n] ->
  valid_index batch b -> (i < m)%nat -> (j < n)%nat ->
  get (Fft.dft (-1)
         (tabulate (batch ++ [m; n]) (Fft.dft_at (-1) a n (S (length batch))))
         m (length batch))
      (b ++ [i; j])
  = Csum m (fun i' =>
      Cmul (Csum n (fun j' =>
              Cmul (get a (b ++ [i'; j'])) (Fft.twiddle (-1) n (j' * j))))
           (Fft.twiddle (-1) m (i' * i))).
Proof.
  intros Hw Hs Hb Hi Hj.
  pose proof (valid_index_length _ _ Hb) as Hlen.
  unfold Fft.dft. rewrite shape_tabulate.
  rewrite <- (nth_last2_first batch m n) at 2. rewrite upd_same.
  rewrite get_tabulate by (now apply valid_index_last2).
  unfold Fft.dft_at at 1. rewrite <- Hlen.
  apply Csum_ext. intros i' Hi'.
  rewrite nth_last2_first. f_equal.
  unfold Fft.along. rewrite shape_tabulate, Hlen, nth_last2_first, <- Hlen.
  destruct (i' <? m)%nat eqn:E; [|apply Nat.ltb_ge in E; lia].
  rewrite upd_last2_first.
  rewrite get_tabulate by (now apply valid_index_last2).
  unfold Fft.dft_at. apply Csum_ext. intros j' Hj'.
  rewrite nth_last2_second. f_equal.
  unfold Fft.along. rewrite Hs, Hlen, nth_last2_second, <- Hlen.
  destruct (j' <? n)%nat eqn:E'; [|apply Nat.ltb_ge in E'; lia].
  now rewrite upd_last2_second.
Qed.

(** X6 (Parseval equality, the docstring example of [image_quad_norm]):
    for an array whose last two axes form square images, the quadratic
    norm of [ufft2] of the array is, image by image, the sum of the
    squared magnitudes of the samples. *)
Theorem parseval_ufft2 (a : ndarray C) (batch : list nat) (n : nat) :
  wf a ->
  shape a = batch ++ [n; n] ->
  (1 <= n)%nat ->
  (y <- ufft2 a ;; image_quad_norm y)
  = Ok (tabulate batch (fun b =>
          Rsum n (fun i => Rsum n (fun j =>
            Cabs (get a (b ++ [i; j])) * Cabs (get a (b ++ [i; j])))))).
Proof.
  intros Hw Hs Hn.
  rewrite (ufft2_value a batch n n Hs Hn Hn). cbn [Py.bind].
  set (nf := norm_factor (shape a) 2).
  rewrite (image_quad_norm_full _ batch n).
  - f_equal. apply tabulate_ext. intros b Hb.
    rewrite <- (unitary_energy2 n n (fun i' j' => get a (b ++ [i'; j'])) nf Hn Hn)
      by (unfold nf; rewrite Hs; apply norm_factor_last2).
    apply Rsum_ext. intros i Hi. apply Rsum_ext. intros j Hj.
    unfold Np.div_scalar. rewrite get_amap.
    + now rewrite get_dft2_complex.
    + apply wf_dft.
    + rewrite shape_dft, shape_tabulate, upd_shape_last2_first.
      now apply valid_index_last2.
  - apply wf_amap, wf_dft.
  - simpl shape. apply upd_shape_last2_first.
Qed.

Lemma parseval_ufft2_witness :
  (y <- ufft2 (mk_ndarray [2; 2]%nat [(1, 2); (3, 4); (5, 6); (7, 8)]) ;;
   image_quad_norm y)
  = Ok (tabulate [] (fun b =>
          Rsum 2 (fun i => Rsum 2 (fun j =>
            Cabs (get (mk_ndarray [2; 2]%nat [(1, 2); (3, 4); (5, 6); (7, 8)])
                    (b ++ [i; j]))
            * Cabs (get (mk_ndarray [2; 2]%nat [(1, 2); (3, 4); (5, 6); (7, 8)])
                      (b ++ [i; j])))))).
Proof.
  apply (parseval_ufft2 (mk_ndarray [2; 2]%nat [(1, 2); (3, 4); (5, 6); (7, 8)]) [] 2).
  - reflexivity.
  - reflexivity.
  - lia.
Defined.

(** The quadratic norm of [urfft2] of a real image of odd side, as the
    energy of all the coefficients of the full transform. *)
Lemma urfft2_quad_norm (x : ndarray R) (batch : list nat) (h : nat) :
  let n := (2 * h + 1)%nat in
  wf x -> shape x = batch ++ [n; n] ->
  (y <- urfft2 x ;; image_quad_norm y)
  = Ok (tabulate batch (fun b =>
          Rsum n (fun i => Rsum n (fun j =>
            Cabs (Cdiv (Spec.dft2_at x n n b i j) (norm_factor (shape x) 2))
            * Cabs (Cdiv (Spec.dft2_at x n n b i j) (norm_factor (shape x) 2)))))).
Proof.
  intros n Hw Hs.
  assert (Hn1 : (1 <= n)%nat) by (unfold n; lia).
  assert (Hhalf : (n / 2 + 1 = h + 1)%nat).
  { unfold n. replace (2 * h + 1)%nat with (1 + h * 2)%nat by lia.
    rewrite Nat.div_add by lia. simpl. lia. }
  set (nf := norm_factor (shape x) 2).
  set (e := fun b i j => Cabs (Cdiv (Spec.dft2_at x n n b i j) nf)
                         * Cabs (Cdiv (Spec.dft2_at x n n b i j) nf)).
  rewrite (urfft2_real x batch n n Hs Hn1 Hn1). cbn [Py.bind]. fold nf.
  set (G := Np.div_scalar
              (Fft.dft (-1)
                 (tabulate (batch ++ [n; (n / 2 + 1)%nat])
                    (Fft.dft_at (-1) (Np.astype_complex x) n (S (length batch))))
                 n (length batch)) nf).
  assert (HwG : wf G) by apply wf_amap, wf_dft.
  assert (HsG : shape G = batch ++ [n; (n / 2 + 1)%nat]).
  { unfold G. simpl shape. apply upd_shape_last2_first. }
  assert (Hget : forall b i j,
            valid_index batch b -> (i < n)%nat -> (j < n / 2 + 1)%nat ->
            Cabs (get G (b ++ [i; j])) * Cabs (get G (b ++ [i; j])) = e b i j).
  { intros b i j Hb Hi Hj. unfold e, G.
    now rewrite (get_unitary_dft2 x batch b n n (n / 2 + 1) i j nf). }
  destruct (Nat.eq_dec (n / 2 + 1) n) as [E|E].
  - assert (HsG' : shape G = batch ++ [n; n]) by (now rewrite HsG, E).
    rewrite (image_quad_norm_full G batch n HwG HsG').
    f_equal. apply tabulate_ext. intros b Hb.
    apply Rsum_ext. intros i Hi. apply Rsum_ext. intros j Hj.
    apply Hget; (assumption || lia).
  - rewrite (image_quad_norm_compact G batch n (n / 2 + 1) HwG HsG E ltac:(lia)).
    f_equal. apply tabulate_ext. intros b Hb.
    transitivity (2 * Rsum n (fun i => Rsum (n / 2 + 1) (fun j => e b i j))
                  - Rsum n (fun i => e b i 0%nat)).
    { f_equal; [f_equal|]; apply Rsum_ext; intros i Hi;
        [apply Rsum_ext; intros j Hj|]; apply Hget; (assumption || lia). }
    rewrite Hhalf. symmetry. apply (energy_full_compact h (e b)).
    intros i j Hi Hj. unfold e.
    now rewrite dft2_energy_mirror.
Qed.

(** X7 (Parseval equality for the compact transform): for a real array
    whose last two axes form square images of odd side, the quadratic
    norm of [urfft2] of the array is, image by image, the sum of the
    squares of the samples. *)
Theorem parseval_urfft2 (x : ndarray R) (batch : list nat) (n : nat) :
  wf x ->
  shape x = batch ++ [n; n] ->
  Nat.Odd n ->
  (y <- urfft2 x ;; image_quad_norm y)
  = Ok (tabulate batch (fun b =>
          Rsum n (fun i => Rsum n (fun j =>
            get x (b ++ [i; j]) * get x (b ++ [i; j]))))).
Proof.
  intros Hw Hs [h Hn]. subst n.
  rewrite (urfft2_quad_norm x batch h Hw Hs).
  f_equal. apply tabulate_ext. intros b Hb. unfold Spec.dft2_at.
  rewrite (unitary_energy2 (2 * h + 1) (2 * h + 1)
             (fun i' j' => RtoC (get x (b ++ [i'; j']))))
    by (try lia; rewrite Hs; apply norm_factor_last2).
  apply Rsum_ext. intros i _. apply Rsum_ext. intros j _.
  rewrite Cabs_sqr. unfold RtoC, Cre, Cim. simpl. ring.
Qed.

Lemma parseval_urfft2_witness :
  (y <- urfft2 (mk_ndarray [3; 3]%nat [1; 2; 3; 4; 5; 6; 7; 8; 9]) ;; image_quad_norm y)
  = Ok (tabulate [] (fun b =>
          Rsum 3 (fun i => Rsum 3 (fun j =>
            get (mk_ndarray [3; 3]%nat [1; 2; 3; 4; 5; 6; 7; 8; 9]) (b ++ [i; j])
            * get (mk_ndarray [3; 3]%nat [1; 2; 3; 4; 5; 6; 7; 8; 9]) (b ++ [i; j]))))).
Proof.
  apply (parseval_urfft2 (mk_ndarray [3; 3]%nat [1; 2; 3; 4; 5; 6; 7; 8; 9]) [] 3).
  - reflexivity.
  - reflexivity.
  - exists 1%nat. reflexivity.
Defined.

(* ================================================================= *)
(** ** The zero-frequency coefficient of the inverse transform *)

Lemma Cdiv_Cdiv (z : C) (a b : R) : Cdiv (Cdiv z a) b = Cdiv z (b * a).
Proof.
  unfold Cdiv, Cre, Cim, Rdiv. simpl. rewrite Rinv_mult. f_equal; ring.
Qed.

Lemma idft_axes_zero_frequency (x : ndarray C) :
  wf x ->
  forall s2 s1 pre,
    shape x = s1 ++ s2 -> valid_index s1 pre -> Forall (fun n => 1 <= n)%nat s2 ->
    get (Spec.idft_axes x (seq (length s1) (length s2))) (pre ++ repeat 0%nat (length s2))
    = Cdiv (fold_right Cadd zero (map (fun J => get x (pre ++ J)) (indices s2)))
        (INR (prod s2)).
Proof.
  intros Hw. induction s2 as [|n s2 IH]; intros s1 pre Hs Hpre Hne.
  - simpl. rewrite Cadd_zero_r. destruct (get x (pre ++ [])) as [re im].
    unfold Cdiv, Cre, Cim. simpl. f_equal; field.
  - inversion Hne as [|? ? Hn Hne']; subst.
    pose proof (valid_index_length _ _ Hpre) as Hlen.
    cbn [length seq repeat]. rewrite idft_axes_cons.
    set (Y := Spec.idft_axes x (seq (S (length s1)) (length s2))).
    assert (HsY : shape Y = shape x) by apply shape_idft_axes.
    assert (Hnth : nth (length s1) (shape x) 0%nat = n) by (rewrite Hs; apply nth_middle).
    assert (Hv : valid_index (shape x) (pre ++ 0%nat :: repeat 0%nat (length s2))).
    { rewrite Hs. apply valid_index_app; [exact Hpre|].
      apply (valid_index_zeros (n :: s2)). now constructor. }
    rewrite <- HsY. rewrite get_idft_step;
      [| unfold ndim; rewrite HsY, Hs, length_app; simpl; lia | now rewrite HsY].
    rewrite HsY, Hnth.
    rewrite (Csum_ext n _
               (fun j => Cdiv (fold_right Cadd zero
                                 (map (fun J => get x (pre ++ j :: J)) (indices s2)))
                           (INR (prod s2)))).
    2:{ intros j Hj.
        rewrite <- Hlen at 2. rewrite nth_middle, Nat.mul_0_r, twiddle_0, Cmul_one_r.
        rewrite <- Hlen, upd_middle.
        replace (pre ++ j :: repeat 0%nat (length s2))
          with ((pre ++ [j]) ++ repeat 0%nat (length s2)) by (now rewrite <- app_assoc).
        unfold Y. replace (S (length s1)) with (length (s1 ++ [n]))
          by (rewrite length_app; simpl; lia).
        rewrite (IH (s1 ++ [n]) (pre ++ [j])).
        - do 2 f_equal. apply map_ext. intros J. now rewrite <- app_assoc.
        - now rewrite <- app_assoc.
        - apply valid_index_app; [exact Hpre | apply valid_index_single; lia].
        - exact Hne'. }
    rewrite <- Csum_div, Cdiv_Cdiv. cbn [prod fold_right]. rewrite mult_INR.
    f_equal. cbn [indices]. rewrite Clsum_flat_map. unfold Csum. f_equal.
    apply map_ext. intros j. now rewrite map_map.
Qed.

(* ================================================================= *)
(** ** Sums over all indices *)

Lemma Csum_S_first (n : nat) (f : nat -> C) :
  Csum (S n) f = Cadd (f 0%nat) (Csum n (fun i => f (S i))).
Proof.
  unfold Csum. cbn [seq map fold_right]. f_equal.
  rewrite <- seq_shift, map_map. reflexivity.
Qed.

Lemma Csum_shift_one (n : nat) (f : nat -> C) :
  Csum n (fun i => f ((i + 1) mod n)%nat) = Csum n f.
Proof.
  destruct n as [|m]; [reflexivity|].
  rewrite Csum_S_last, Csum_S_first.
  replace ((m + 1) mod S m)%nat with 0%nat
    by (replace (m + 1)%nat with (S m) by lia; now rewrite Nat.Div0.mod_same).
  rewrite Cadd_comm. f_equal. apply Csum_ext. intros i Hi.
  rewrite Nat.mod_small by lia. f_equal. lia.
Qed.

(** A sum over a whole period does not see a circular shift. *)
Lemma Csum_cyclic (n h : nat) (f : nat -> C) :
  Csum n (fun i => f ((i + h) mod n)%nat) = Csum n f.
Proof.
  revert f. induction h as [|h IH]; intros f.
  - apply Csum_ext. intros i Hi. rewrite Nat.add_0_r, Nat.mod_small by lia. reflexivity.
  - rewrite <- (Csum_shift_one n f).
    rewrite <- (IH (fun k => f ((k + 1) mod n)%nat)).
    apply Csum_ext. intros i Hi. f_equal.
    rewrite Nat.Div0.add_mod_idemp_l. f_equal. lia.
Qed.

Lemma Csum_truncate (sz n : nat) (g : nat -> C) :
  (sz <= n)%nat ->
  Csum n (fun i => if (i <? sz)%nat then g i else zero) = Csum sz g.
Proof.
  intros Hle. induction Hle as [|n Hle IH].
  - apply Csum_ext. intros i Hi.
    destruct (i <? sz)%nat eqn:E; [reflexivity | apply Nat.ltb_ge in E; lia].
  - rewrite Csum_S_last, IH.
    destruct (n <? sz)%nat eqn:E; [apply Nat.ltb_lt in E; lia|].
    apply Cadd_zero_r.
Qed.

Lemma Clsum_zero {A} (l : list A) :
  fold_right Cadd zero (map (fun _ => zero) l) = zero.
Proof. induction l as [|x l IH]; simpl; [reflexivity|]. rewrite IH. apply Cadd_zero_r. Qed.

Lemma Clsum_ext {A} (f g : A -> C) (l : list A) :
  (forall x, In x l -> f x = g x) ->
  fold_right Cadd zero (map f l) = fold_right Cadd zero (map g l).
Proof. intros H. f_equal. now apply map_ext_in. Qed.

Lemma Clsum_Csum {A} (n : nat) (h : A -> nat -> C) (l : list A) :
  fold_right Cadd zero (map (fun x => Csum n (h x)) l)
  = Csum n (fun j => fold_right Cadd zero (map (fun x => h x j) l)).
Proof.
  induction l as [|x l IH]; simpl.
  - now rewrite Csum_zero.
  - now rewrite IH, <- Csum_plus.
Qed.

Lemma Clsum_indices_cons (n : nat) (s : list nat) (g : list nat -> C) :
  fold_right Cadd zero (map g (indices (n :: s)))
  = Csum n (fun i => fold_right Cadd zero (map (fun J => g (i :: J)) (indices s))).
Proof.
  cbn [indices]. rewrite Clsum_flat_map. unfold Csum. f_equal.
  apply map_ext. intros i. now rewrite map_map.
Qed.

(** The sum over the indices of a shape, its last axis summed first. *)
Lemma Clsum_indices_snoc (n : nat) (s : list nat) (g : list nat -> C) :
  fold_right Cadd zero (map g (indices (s ++ [n])))
  = Csum n (fun j => fold_right Cadd zero (map (fun J => g (J ++ [j])) (indices s))).
Proof.
  revert g. induction s as [|m s IH]; intros g.
  - cbn [app]. rewrite Clsum_indices_cons. apply Csum_ext. intros j _.
    simpl. reflexivity.
  - cbn [app]. rewrite Clsum_indices_cons.
    rewrite (Csum_ext m _ (fun i => Csum n (fun j =>
               fold_right Cadd zero (map (fun J => g (i :: J ++ [j])) (indices s)))))
      by (intros i _; apply (IH (fun K => g (i :: K)))).
    rewrite Csum_swap. apply Csum_ext. intros j _.
    now rewrite Clsum_indices_cons.
Qed.

Lemma Clsum_RtoC_Cre {A} (g : A -> C) (l : list A) :
  fold_right Cadd zero (map (fun x => RtoC (Cre (g x))) l)
  = RtoC (Cre (fold_right Cadd zero (map g l))).
Proof.
  induction l as [|x l IH]; simpl.
  - reflexivity.
  - rewrite IH. unfold RtoC, Cadd, Cre. simpl. f_equal. ring.
Qed.

(** The samples of a zero buffer that holds a block at its origin and is
    then rolled add up to the samples of the block. *)
Lemma Clsum_padded_shifted (s t : list nat) :
  Forall2 le s t ->
  forall f : list nat -> C,
    fold_right Cadd zero
      (map (fun idx => if Np.inside s (Spec.shifted s t idx)
                       then f (Spec.shifted s t idx) else zero) (indices t))
    = fold_right Cadd zero (map f (indices s)).
Proof.
  induction 1 as [|sz n s t Hle Hfit IH]; intros f.
  - reflexivity.
  - rewrite !Clsum_indices_cons.
    set (H := fun k => if (k <? sz)%nat
                       then fold_right Cadd zero (map (fun J => f (k :: J)) (indices s))
                       else zero).
    rewrite (Csum_ext n _ (fun i => H ((i + sz / 2) mod n)%nat)).
    + rewrite (Csum_cyclic n (sz / 2) H). unfold H. now apply Csum_truncate.
    + intros i Hi. unfold H.
      destruct ((i + sz / 2) mod n <? sz)%nat eqn:E.
      * rewrite <- (IH (fun J => f (((i + sz / 2) mod n)%nat :: J))).
        apply Clsum_ext. intros J HJ. cbn [Spec.shifted Np.inside]. rewrite E.
        reflexivity.
      * transitivity (fold_right Cadd zero (map (fun _ : list nat => zero) (indices t)));
          [|apply Clsum_zero].
        apply Clsum_ext. intros J HJ. cbn [Spec.shifted Np.inside]. rewrite E.
        reflexivity.
Qed.

(* ================================================================= *)
(** ** The zero-frequency coefficient of the real transform *)

Lemma Forall_upd (P : nat -> Prop) (s : list nat) (k v : nat) :
  Forall P s -> P v -> Forall P (upd s k v).
Proof.
  intros H Hv. revert k. induction H as [|n s Hn Hs IH]; intros [|k]; simpl;
    try constructor; auto.
Qed.

(** Transforms along consecutive axes, the first of them first: at index
    zero of these axes the result is the sum over them. *)
Lemma fold_dft_zero_frequency (y : ndarray C) :
  wf y ->
  forall s2 s1 s3 pre post,
    shape y = s1 ++ s2 ++ s3 -> valid_index s1 pre -> valid_index s3 post ->
    Forall (fun n => 1 <= n)%nat s2 ->
    get (fold_left (fun acc k => Fft.dft (-1) acc (nth k (shape y) 0%nat) k)
           (seq (length s1) (length s2)) y)
        (pre ++ repeat 0%nat (length s2) ++ post)
    = fold_right Cadd zero (map (fun J => get y (pre ++ J ++ post)) (indices s2)).
Proof.
  intros Hw. induction s2 as [|n s2 IH] using rev_ind; intros s1 s3 pre post Hs Hpre Hpost Hne.
  - simpl. now rewrite Cadd_zero_r.
  - apply Forall_app in Hne as [Hne Hn]. inversion Hn as [|? ? Hn1 _]; subst.
    pose proof (valid_index_length _ _ Hpre) as Hlpre.
    rewrite length_app. cbn [length]. rewrite seq_app, fold_left_app. cbn [seq fold_left].
    set (Y := fold_left (fun acc k => Fft.dft (-1) acc (nth k (shape y) 0%nat) k)
                (seq (length s1) (length s2)) y).
    assert (HsY : shape Y = shape y)
      by apply (shape_fold_axes (Fft.dft (-1)) (shape_dft (-1))).
    assert (HwY : wf Y) by (apply wf_fold_axes; [apply wf_dft | exact Hw]).
    rewrite <- app_assoc in Hs. cbn [app] in Hs.
    assert (Hk : (length s1 + length s2)%nat = length (pre ++ repeat 0%nat (length s2)))
      by (rewrite length_app, repeat_length; lia).
    assert (Hnth : nth (length s1 + length s2) (shape y) 0%nat = n).
    { rewrite Hs, app_assoc.
      replace (length s1 + length s2)%nat with (length (s1 ++ s2))
        by (now rewrite length_app).
      apply nth_middle. }
    rewrite repeat_app. cbn [repeat]. rewrite <- app_assoc. cbn [app].
    rewrite (app_assoc pre).
    assert (Hv : valid_index (shape Y) ((pre ++ repeat 0%nat (length s2)) ++ 0%nat :: post)).
    { rewrite HsY, Hs, app_assoc. apply valid_index_app.
      - apply valid_index_app; [exact Hpre | now apply valid_index_zeros].
      - constructor; [lia | exact Hpost]. }
    rewrite <- HsY. rewrite get_dft; [| | exact Hv].
    2:{ unfold ndim. rewrite HsY, Hs, !length_app. simpl. lia. }
    rewrite HsY, Hnth, Clsum_indices_snoc. apply Csum_ext. intros j Hj.
    rewrite Hk, nth_middle, Nat.mul_0_r, twiddle_0, Cmul_one_r, upd_middle.
    rewrite <- app_assoc. unfold Y.
    rewrite (IH s1 (n :: s3) pre (j :: post) Hs Hpre).
    + apply Clsum_ext. intros J _. now rewrite <- (app_assoc J).
    + constructor; [exact Hj | exact Hpost].
    + exact Hne.
Qed.

Lemma get_rdft_zero (a : ndarray R) (front pre : list nat) (n : nat) :
  wf a -> shape a = front ++ [n] -> valid_index front pre -> (1 <= n)%nat ->
  get (Fft.rdft a n (length front)) (pre ++ [0%nat])
  = Csum n (fun j => RtoC (get a (pre ++ [j]))).
Proof.
  intros Hw Hs Hpre Hn.
  pose proof (valid_index_length _ _ Hpre) as Hl.
  unfold Fft.rdft. rewrite get_tabulate.
  2:{ rewrite Hs, upd_middle. apply valid_index_app; [exact Hpre|].
      apply valid_index_single. lia. }
  unfold Fft.dft_at. apply Csum_ext. intros j Hj.
  rewrite <- Hl, nth_middle, Nat.mul_0_r, twiddle_0, Cmul_one_r.
  unfold Fft.along, Np.astype_complex. cbn [amap shape]. rewrite Hs.
  replace (nth (length pre) (front ++ [n]) 0%nat) with n
    by (rewrite Hl; symmetry; apply nth_middle).
  fold (amap RtoC a).
  destruct (j <? n)%nat eqn:E; [|apply Nat.ltb_ge in E; lia].
  rewrite upd_middle. apply get_amap; [exact Hw|].
  rewrite Hs. apply valid_index_app; [exact Hpre | now apply valid_index_single].
Qed.

Lemma rfftn_zero_frequency (a : ndarray R) :
  wf a -> (1 <= ndim a)%nat -> Forall (fun n => 1 <= n)%nat (shape a) ->
  exists y, Fft.rfftn a (Py.range (- Z.of_nat (ndim a)) 0) = Ok y
            /\ get y (repeat 0%nat (ndim a))
               = fold_right Cadd zero (map (fun idx => RtoC (get a idx)) (indices (shape a))).
Proof.
  intros Hw Hrank Hpos.
  assert (Hne : axes_nonempty (shape a) (Z.of_nat (ndim a))).
  { unfold axes_nonempty, ndim. now rewrite slice_from_all. }
  rewrite rfftn_last_axes by (lia || assumption).
  eexists. split; [reflexivity|].
  rewrite Nat2Z.id, Nat.sub_diag.
  destruct (exists_last (l := shape a)) as (front & n & Hs).
  { intros E. unfold ndim in Hrank. rewrite E in Hrank. simpl in Hrank. lia. }
  assert (Hnd : ndim a = S (length front))
    by (unfold ndim; rewrite Hs, length_app; simpl; lia).
  rewrite Hnd. replace (S (length front) - 1)%nat with (length front) by lia.
  assert (Hnth : nth (length front) (shape a) 0%nat = n) by (rewrite Hs; apply nth_middle).
  rewrite Hnth. rewrite Hs in Hpos. apply Forall_app in Hpos as [Hfront Hn].
  apply Forall_inv in Hn.
  set (a' := Fft.rdft a n (length front)).
  assert (Hsa' : shape a' = front ++ [(n / 2 + 1)%nat]).
  { unfold a', Fft.rdft. rewrite shape_tabulate, Hs. apply upd_middle. }
  rewrite (fold_left_ext_in _
             (fun acc k => Fft.dft (-1) acc (nth k (shape a') 0%nat) k)).
  2:{ intros k acc Hk. apply in_seq in Hk. f_equal.
      rewrite Hsa', Hs, !app_nth1 by lia. reflexivity. }
  replace (repeat 0%nat (S (length front)))
    with (repeat 0%nat (length front) ++ [0%nat])
    by (rewrite <- repeat_cons; reflexivity).
  assert (Hz : (0 < n / 2 + 1)%nat) by lia.
  pose proof (fold_dft_zero_frequency a' (wf_tabulate _ _) front [] [(n / 2 + 1)%nat]
                [] [0%nat] Hsa' (Forall2_nil _)
                (valid_index_single _ _ Hz) Hfront) as H0.
  cbn [length app] in H0. rewrite H0.
  rewrite Hs, Clsum_indices_snoc, <- Clsum_Csum.
  apply Clsum_ext. intros J HJ. apply In_indices in HJ.
  unfold a'. now apply get_rdft_zero.
Qed.

(* ================================================================= *)
(** ** The zero-frequency gain of a transfer function *)

Lemma ir_padded_rolled_all (imp_resp : ndarray C) (t : list nat) :
  wf imp_resp -> Forall2 le (shape imp_resp) t ->
  ir_padded_rolled imp_resp t (Z.of_nat (ndim imp_resp))
  = Ok (Spec.padded_rolled imp_resp t).
Proof.
  intros Hw Hfit. unfold ir_padded_rolled.
  rewrite (setitem_corner_fit _ _ Hw Hfit). simpl. rewrite Z.sub_diag.
  apply (roll_axes_all (shape imp_resp) t (Spec.corner imp_resp)
           (Forall2_length Hfit) (shape imp_resp) 0%nat).
  reflexivity.
Qed.

Lemma padded_rolled_sum (imp_resp : ndarray C) (t : list nat) :
  wf imp_resp -> Forall2 le (shape imp_resp) t ->
  fold_right Cadd zero
    (map (fun idx => RtoC (get (Spec.padded_rolled imp_resp t) idx)) (indices t))
  = RtoC (Cre (Np.sum imp_resp)).
Proof.
  intros Hw Hfit.
  rewrite (Clsum_ext _
             (fun idx => if Np.inside (shape imp_resp) (Spec.shifted (shape imp_resp) t idx)
                         then (fun J => RtoC (Cre (get imp_resp J)))
                                (Spec.shifted (shape imp_resp) t idx)
                         else zero)).
  - rewrite (Clsum_padded_shifted _ _ Hfit (fun J => RtoC (Cre (get imp_resp J)))).
    rewrite Clsum_RtoC_Cre. unfold Np.sum. now rewrite (data_indices imp_resp Hw).
  - intros idx Hidx. apply In_indices in Hidx.
    unfold Spec.padded_rolled. rewrite get_tabulate by exact Hidx.
    unfold Spec.corner.
    destruct (Np.inside (shape imp_resp) (Spec.shifted (shape imp_resp) t idx));
      reflexivity.
Qed.

Lemma ir2tf_zero_coefficient (imp_resp : ndarray C) (t : list nat) (dim : option Z)
    (is_real : bool) :
  wf imp_resp ->
  Forall2 le (shape imp_resp) t ->
  ir2tf_dim imp_resp dim = Z.of_nat (ndim imp_resp) ->
  (1 <= ndim imp_resp)%nat ->
  Forall (fun n => 1 <= n)%nat t ->
  exists tf, ir2tf imp_resp t dim is_real = Ok tf
             /\ get tf (repeat 0%nat (length t)) = RtoC (Cre (Np.sum imp_resp)).
Proof.
  intros Hw Hfit Hd Hrank Hpos.
  pose proof (Forall2_length Hfit) as Hlen. fold (ndim imp_resp) in Hlen.
  set (a := Spec.padded_rolled imp_resp t).
  assert (Hsa : shape a = t) by apply shape_tabulate.
  assert (Hwa : wf a) by apply wf_tabulate.
  assert (Hna : ndim a = ndim imp_resp) by (unfold ndim at 1; rewrite Hsa; lia).
  unfold ir2tf. rewrite Hd, (ir_padded_rolled_all _ _ Hw Hfit). cbn [Py.bind].
  fold a. destruct is_real.
  - destruct (rfftn_zero_frequency a Hwa) as (y & Hy & H0).
    + lia.
    + now rewrite Hsa.
    + rewrite Hna in Hy. exists y. split; [exact Hy|].
      rewrite <- Hlen, <- Hna, H0, Hsa. now apply padded_rolled_sum.
  - set (c := Np.astype_complex a).
    assert (Hsc : shape c = t) by exact Hsa.
    assert (Hwc : wf c) by (apply wf_amap; exact Hwa).
    assert (Hnc : ndim c = ndim imp_resp) by exact Hna.
    rewrite <- Hnc. rewrite fftn_last_axes.
    + eexists. split; [reflexivity|].
      unfold Spec.last_axes. rewrite Nat2Z.id, Nat.sub_diag.
      assert (Hposc : Forall (fun n => 1 <= n)%nat (shape c)) by (now rewrite Hsc).
      pose proof (dft_axes_zero_frequency c Hwc (shape c) [] [] eq_refl
                    (Forall2_nil _) Hposc) as H0.
      cbn [length app] in H0. change (length (shape c)) with (ndim c) in H0.
      replace (length t) with (ndim c) by (rewrite Hnc; lia).
      rewrite H0, Hsc. rewrite <- (padded_rolled_sum _ _ Hw Hfit).
      apply Clsum_ext. intros idx Hidx. apply In_indices in Hidx.
      unfold c, Np.astype_complex. apply get_amap; [exact Hwa | exact Hidx].
    + lia.
    + unfold axes_nonempty, ndim. rewrite slice_from_all.
      change (shape c) with (shape a). now rewrite Hsa.
Qed.

(** X16: the transfer function of an impulse response that fits in the
    target shape (no batch axes, no empty axis) has, at frequency zero,
    the sum of the real parts of the samples of the impulse response,
    whether the real or the complex transform is asked for. *)
Theorem ir2tf_zero_frequency (imp_resp : ndarray C) (t : list nat) (dim : option Z)
    (is_real : bool) :
  wf imp_resp ->
  Forall2 le (shape imp_resp) t ->
  ir2tf_dim imp_resp dim = Z.of_nat (ndim imp_resp) ->
  (1 <= ndim imp_resp)%nat ->
  Forall (fun n => 1 <= n)%nat t ->
  exists tf, ir2tf imp_resp t dim is_real = Ok tf
             /\ get tf (repeat 0%nat (length t)) = RtoC (Cre (Np.sum imp_resp)).
Proof. exact (ir2tf_zero_coefficient imp_resp t dim is_real). Qed.

Lemma ir2tf_zero_frequency_witness :
  exists tf, ir2tf (mk_ndarray [2%nat] [(1, 0); (2, 0)]) [3%nat] None true = Ok tf
             /\ get tf [0%nat] = RtoC (Cre (Np.sum (mk_ndarray [2%nat] [(1, 0); (2, 0)]))).
Proof.
  apply (ir2tf_zero_frequency (mk_ndarray [2%nat] [(1, 0); (2, 0)]) [3%nat] None true).
  - reflexivity.
  - repeat constructor.
  - reflexivity.
  - unfold ndim. simpl. lia.
  - repeat constructor.
Defined.

(* ================================================================= *)
(** ** The Laplacian *)









Lemma view_shape_nil (t : list nat) : Np.view_shape [] t = t.
Proof. destruct t; reflexivity. Qed.

Lemma view_index_nil (t idx : list nat) : Np.view_index [] t idx = Some idx.
Proof. reflexivity. Qed.

Lemma forallb_centre (l : list nat) :
  forallb (fun i => (i =? 1)%nat) l = (Spec.off_centre l =? 0)%nat.
Proof.
  unfold Spec.off_centre. induction l as [|i l IH]; [reflexivity|].
  cbn [forallb filter]. destruct (i =? 1)%nat; cbn [negb andb length]; [exact IH | reflexivity].
Qed.








Lemma split_at (d : nat) (idx : list nat) :
  (d < length idx)%nat ->
  idx = firstn d idx ++ nth d idx 0%nat :: skipn (S d) idx.
Proof.
  revert idx. induction d as [|d IH]; intros [|i idx] Hd; simpl in Hd; try lia.
  - reflexivity.
  - cbn [firstn nth skipn app]. f_equal. apply IH. lia.
Qed.











(** X18: a dimension that is not positive makes [laplacian] fail with an
    [IndexError]: the array has no axis, and the empty list of slices of
    the last assignment is one index too many for it. *)
Theorem laplacian_no_axis (ndim : Z) (shape_ : list nat) (is_real : bool) :
  (ndim <= 0)%Z -> laplacian ndim shape_ is_real = Raise IndexError.
Proof.
  intros Hn. unfold laplacian, Py.range.
  replace (Z.to_nat (ndim - 0)) with 0%nat by lia.
  replace (Z.to_nat ndim) with 0%nat by lia.
  reflexivity.
Qed.

Lemma laplacian_no_axis_witness :
  laplacian 0 [4; 4]%nat true = Raise IndexError.
Proof. apply (laplacian_no_axis 0 [4; 4]%nat true). lia. Defined.

(* ================================================================= *)
(** ** The Laplacian has no gain at frequency zero *)







(* ================================================================= *)
(** ** The real inverse transform undoes the real transform *)

(** [np.fft.irfftn] over the last [d] axes with the lengths of the array
    along all of them but the last, where the length [n] is asked for:
    the inverse transforms along the other axes, the first of them first,
    then the real inverse transform along the last axis, which refuses
    the length zero. *)
Lemma irfftn_last_axes_checked (a : ndarray C) (d : Z) (n : nat) :
  (1 <= d <= Z.of_nat (ndim a))%Z ->
  Forall (fun k => 1 <= nth k (shape a) 0)%nat
    (seq (ndim a - Z.to_nat d) (Z.to_nat d - 1)) ->
  Fft.irfftn a
    (Some (map (fun k => nth k (shape a) 0%nat)
             (seq (ndim a - Z.to_nat d) (Z.to_nat d - 1)) ++ [n]))
    (Py.range (- d) 0)
  = if (n <? 1)%nat then Raise ValueError
    else Ok (tabulate (upd (shape a) (ndim a - 1) n)
               (Fft.idft_real_at
                  (fold_left (fun acc k => Spec.idft_step acc (nth k (shape a) 0%nat) k)
                     (seq (ndim a - Z.to_nat d) (Z.to_nat d - 1)) a)
                  n (ndim a - 1))).
Proof.
  intros Hd Hne. unfold Fft.irfftn, Fft.cook_nd_args.
  pose proof (index_range_last_axes (ndim a) d Hd) as HF.
  unfold Spec.last_axes in HF.
  destruct (Z.to_nat d) as [|m] eqn:Edn; [lia|].
  rewrite seq_S in HF.
  replace (ndim a - S m + m)%nat with (ndim a - 1)%nat in HF by lia.
  replace (S m - 1)%nat with m in * by lia.
  apply Forall2_app_inv_r in HF as (front & lastax & HF1 & HF2 & Eaxes).
  inversion HF2 as [|ax ? ? ? Hax Hnil]; subst. inversion Hnil; subst.
  rewrite Eaxes.
  pose proof (Forall2_length HF1) as Hlf. rewrite length_seq in Hlf.
  rewrite !length_app, length_map, length_seq, Hlf. cbn [length].
  rewrite Nat.eqb_refl. cbn [Py.bind].
  rewrite combine_app_single by (now rewrite length_map, length_seq).
  rewrite rev_app_distr. cbn [rev app]. rewrite rev_involutive.
  match goal with
  | |- context [Fft.iterate Fft.ifft ?l ?b] =>
      change (Fft.iterate Fft.ifft l b)
        with (Fft.iterate (fun a n ax => Fft.checked a n ax (Spec.idft_step a n)) l b)
  end.
  rewrite (iterate_fold_axes Spec.idft_step shape_idft_step a front _ HF1 Hne).
  cbn [Py.bind]. unfold Fft.irfft, Fft.checked.
  destruct (n <? 1)%nat eqn:E; [reflexivity|].
  unfold ndim at 1. rewrite (shape_fold_axes Spec.idft_step shape_idft_step).
  fold (ndim a). rewrite Hax. reflexivity.
Qed.

Lemma irfftn_last_axes (a : ndarray C) (d : Z) (n : nat) :
  (1 <= d <= Z.of_nat (ndim a))%Z ->
  (1 <= n)%nat ->
  Forall (fun k => 1 <= nth k (shape a) 0)%nat
    (seq (ndim a - Z.to_nat d) (Z.to_nat d - 1)) ->
  Fft.irfftn a
    (Some (map (fun k => nth k (shape a) 0%nat)
             (seq (ndim a - Z.to_nat d) (Z.to_nat d - 1)) ++ [n]))
    (Py.range (- d) 0)
  = Ok (tabulate (upd (shape a) (ndim a - 1) n)
          (Fft.idft_real_at
             (fold_left (fun acc k => Spec.idft_step acc (nth k (shape a) 0%nat) k)
                (seq (ndim a - Z.to_nat d) (Z.to_nat d - 1)) a)
             n (ndim a - 1))).
Proof.
  intros Hd Hn Hne. rewrite irfftn_last_axes_checked by assumption.
  destruct (n <? 1)%nat eqn:E; [apply Nat.ltb_lt in E; lia | reflexivity].
Qed.

(** Without a shape, [np.fft.irfftn] asks along the last axis, of length
    [m], for the length [(m - 1) * 2]. *)
Lemma irfftn_default_shape (a : ndarray C) (d : Z) :
  (1 <= d <= Z.of_nat (ndim a))%Z ->
  Fft.irfftn a None (Py.range (- d) 0)
  = Fft.irfftn a
      (Some (map (fun k => nth k (shape a) 0%nat)
               (seq (ndim a - Z.to_nat d) (Z.to_nat d - 1))
             ++ [((nth (ndim a - 1) (shape a) 0 - 1) * 2)%nat]))
      (Py.range (- d) 0).
Proof.
  intros Hd. unfold Fft.irfftn, Fft.cook_nd_args.
  pose proof (index_range_last_axes (ndim a) d Hd) as HF.
  rewrite (take_axes _ _ _ HF). cbn [Py.bind].
  rewrite length_app, length_map, length_seq, length_range. cbn [length].
  replace (Z.to_nat d - 1 + 1 =? Z.to_nat d)%nat with true
    by (symmetry; apply Nat.eqb_eq; lia).
  unfold Spec.last_axes.
  replace (Z.to_nat d) with (S (Z.to_nat d - 1)) at 2 by lia.
  rewrite seq_S, map_app, rev_app_distr. cbn [map rev app].
  rewrite rev_involutive.
  replace (ndim a - Z.to_nat d + (Z.to_nat d - 1))%nat with (ndim a - 1)%nat by lia.
  reflexivity.
Qed.

Lemma Cre_Csum (n : nat) (f : nat -> C) : Cre (Csum n f) = Rsum n (fun m => Cre (f m)).
Proof.
  induction n as [|n IH]; [reflexivity|].
  rewrite Csum_S_last, Rsum_S_last, <- IH. reflexivity.
Qed.

Lemma Rsum_div (n : nat) (f : nat -> R) (c : R) :
  Rsum n (fun m => f m / c) = Rsum n f / c.
Proof.
  unfold Rdiv. rewrite Rmult_comm, <- Rsum_scal. apply Rsum_ext. intros m _. ring.
Qed.

Lemma Cre_mul_div (z w : C) (c : R) : Cre (Cmul (Cdiv z c) w) = Cre (Cmul z w) / c.
Proof. unfold Cmul, Cdiv, Cre, Cim, Rdiv. cbn [fst snd]. ring. Qed.

(** The coefficient of the transform of a real line, as a sum. *)
Lemma dft_at_real (x : ndarray R) (k : nat) (idx : list nat) (m : nat) :
  wf x -> (k < ndim x)%nat -> valid_index (shape x) idx ->
  Fft.dft_at (-1) (Np.astype_complex x) (nth k (shape x) 0%nat) k (upd idx k m)
  = Csum (nth k (shape x) 0%nat)
      (fun j => Cmul (RtoC (get x (upd idx k j)))
                  (Fft.twiddle (-1) (nth k (shape x) 0%nat) (j * m))).
Proof.
  intros Hw Hk Hv. pose proof (valid_index_length _ _ Hv) as Hl.
  unfold Fft.dft_at. apply Csum_ext. intros j Hj.
  rewrite nth_upd_same by (rewrite Hl; exact Hk).
  unfold Fft.along, Np.astype_complex. cbn [amap shape]. fold (amap RtoC x).
  destruct (j <? nth k (shape x) 0)%nat eqn:E; [|apply Nat.ltb_ge in E; lia].
  rewrite upd_upd, get_amap; [reflexivity | exact Hw |].
  now apply valid_index_upd.
Qed.

(** The coefficients of a real line at opposite frequencies are
    conjugate. *)
Lemma dft_at_real_conj (x : ndarray R) (k : nat) (idx : list nat) (m : nat) :
  wf x -> (k < ndim x)%nat -> valid_index (shape x) idx ->
  (m <= nth k (shape x) 0)%nat ->
  Cconj (Fft.dft_at (-1) (Np.astype_complex x) (nth k (shape x) 0%nat) k
           (upd idx k (nth k (shape x) 0 - m)%nat))
  = Fft.dft_at (-1) (Np.astype_complex x) (nth k (shape x) 0%nat) k (upd idx k m).
Proof.
  intros Hw Hk Hv Hm. rewrite !dft_at_real by assumption.
  rewrite Cconj_sum. apply Csum_ext. intros j Hj.
  rewrite Cconj_mul, Cconj_RtoC. f_equal.
  apply (twiddle_conj _ _ _ j); [lia | nia].
Qed.

Lemma valid_index_upd_to (s idx : list nat) (k c j : nat) :
  valid_index s idx -> (j < c)%nat -> (k < length s)%nat ->
  valid_index (upd s k c) (upd idx k j).
Proof.
  unfold valid_index. intros H. revert k.
  induction H as [|i n idx s Hi Hv IH]; intros [|k] Hj Hk; simpl in *; try lia.
  - constructor; assumption.
  - constructor; [exact Hi | apply IH; lia].
Qed.

(** The Hermitian completion of the half spectrum of a real line is its
    full spectrum. *)
Lemma hermitian_rdft (x : ndarray R) (k : nat) (idx : list nat) (c : R) (m : nat) :
  wf x -> (k < ndim x)%nat -> valid_index (shape x) idx ->
  (m < nth k (shape x) 0)%nat ->
  Fft.hermitian (Np.div_scalar (Fft.rdft x (nth k (shape x) 0%nat) k) c)
    (nth k (shape x) 0%nat) k idx m
  = Cdiv (Fft.dft_at (-1) (Np.astype_complex x) (nth k (shape x) 0%nat) k (upd idx k m)) c.
Proof.
  intros Hw Hk Hv Hm. set (n := nth k (shape x) 0%nat) in *.
  assert (Hget : forall j, (j <= n / 2)%nat ->
            Fft.along (Np.div_scalar (Fft.rdft x n k) c) k idx j
            = Cdiv (Fft.dft_at (-1) (Np.astype_complex x) n k (upd idx k j)) c).
  { intros j Hj. unfold Fft.along, Np.div_scalar. cbn [amap shape].
    fold (amap (fun z => Cdiv z c) (Fft.rdft x n k)).
    unfold Fft.rdft at 1. rewrite shape_tabulate, nth_upd_same by exact Hk.
    destruct (j <? n / 2 + 1)%nat eqn:E; [|apply Nat.ltb_ge in E; lia].
    assert (Hvj : valid_index (upd (shape x) k (n / 2 + 1)) (upd idx k j))
      by (apply valid_index_upd_to; [exact Hv | lia | exact Hk]).
    rewrite get_amap.
    - f_equal. unfold Fft.rdft. now rewrite get_tabulate.
    - apply wf_tabulate.
    - unfold Fft.rdft. now rewrite shape_tabulate. }
  unfold Fft.hermitian. destruct (m <=? n / 2)%nat eqn:E.
  - apply Nat.leb_le in E. now apply Hget.
  - apply Nat.leb_gt in E.
    assert (Hdiv : (n - m <= n / 2)%nat).
    { pose proof (Nat.div_mod_eq n 2) as H2.
      pose proof (Nat.mod_upper_bound n 2 ltac:(lia)). lia. }
    rewrite (Hget _ Hdiv), Cconj_div. f_equal.
    unfold n. apply dft_at_real_conj; (assumption || (fold n; lia)).
Qed.

(** The real inverse transform of the (scaled) half spectrum of a real
    line is the (scaled) line. *)
Lemma irfft_rdft (x : ndarray R) (k : nat) (idx : list nat) (c : R) :
  wf x -> (k < ndim x)%nat -> valid_index (shape x) idx ->
  Fft.idft_real_at (Np.div_scalar (Fft.rdft x (nth k (shape x) 0%nat) k) c)
    (nth k (shape x) 0%nat) k idx
  = get x idx / c.
Proof.
  intros Hw Hk Hv. set (n := nth k (shape x) 0%nat).
  pose proof (valid_index_nth _ _ k Hv Hk) as Hi. fold n in Hi.
  assert (Hn : (1 <= n)%nat) by lia.
  set (A := Np.astype_complex x).
  assert (HwA : wf A) by (apply wf_amap; exact Hw).
  assert (HsA : shape A = shape x) by reflexivity.
  set (F := Fft.dft (-1) A n k).
  assert (HsF : shape F = shape x).
  { unfold F, n. rewrite <- HsA. apply shape_dft_same. }
  pose proof (idft_dft_axis A k HwA Hk) as Hinv. rewrite HsA in Hinv. fold n in Hinv.
  specialize (Hinv Hn). fold F in Hinv.
  assert (Hsum : Cdiv (Csum n (fun m =>
                   Cmul (Fft.dft_at (-1) A n k (upd idx k m))
                        (Fft.twiddle 1 n (m * nth k idx 0%nat)))) (INR n)
                 = RtoC (get x idx)).
  { pose proof (get_idft_step F k idx) as G. rewrite HsF in G. fold n in G.
    assert (HkF : (k < ndim F)%nat) by (unfold ndim; rewrite HsF; exact Hk).
    specialize (G HkF Hv). rewrite Hinv in G.
    assert (HgA : get A idx = RtoC (get x idx))
      by (unfold A, Np.astype_complex; now apply get_amap).
    rewrite HgA in G. rewrite G. f_equal. apply Csum_ext. intros m Hm.
    f_equal. unfold F, Fft.dft. rewrite get_tabulate; [reflexivity|].
    rewrite HsA. unfold n. rewrite upd_same. apply valid_index_upd; assumption. }
  unfold Fft.idft_real_at.
  rewrite (Rsum_ext n _
             (fun m => Cre (Cmul (Fft.dft_at (-1) A n k (upd idx k m))
                              (Fft.twiddle 1 n (m * nth k idx 0%nat))) / c)).
  2:{ intros m Hm. unfold n. rewrite hermitian_rdft by assumption.
      apply Cre_mul_div. }
  rewrite Rsum_div, <- Cre_Csum.
  apply (f_equal Cre) in Hsum. unfold Cdiv in Hsum. cbn [Cre fst RtoC] in Hsum.
  unfold Cre at 1 in Hsum.
  set (S := Csum n _) in *. cbn [fst] in Hsum.
  rewrite <- Hsum. unfold Rdiv. unfold Cre. ring.
Qed.

Lemma fold_axes_rev (g : ndarray C -> nat -> nat -> ndarray C) (a : ndarray C)
    (ks : list nat) :
  fold_left (fun acc k => g acc (nth k (shape a) 0%nat) k) ks a
  = Spec.transform_axes g a (rev ks).
Proof. unfold Spec.transform_axes. now rewrite fold_left_rev_right. Qed.

(** X3 (the docstring example of [uirfftn]): for a [dim] between 1 and
    the rank and no empty transformed axis, [uirfftn] of [urfftn] of a
    real array, told the lengths of the transformed axes of the array,
    returns the array, whether the last axis is of even or of odd
    length. *)
Theorem uirfftn_urfftn (x : ndarray R) (dim : option Z) :
  wf x ->
  (1 <= default_dim x dim <= Z.of_nat (ndim x))%Z ->
  axes_nonempty (shape x) (default_dim x dim) ->
  (y <- urfftn x dim ;;
   uirfftn y dim (Some (Py.slice_from (- default_dim x dim) (shape x)))) = Ok x.
Proof.
  intros Hw Hd Hne. remember (default_dim x dim) as d eqn:Ed.
  unfold urfftn. rewrite <- Ed. rewrite rfftn_last_axes by assumption.
  cbn [Py.bind].
  set (len := ndim x) in *. set (last := (len - 1)%nat).
  set (ks := seq (len - Z.to_nat d) (Z.to_nat d - 1)).
  set (n := nth last (shape x) 0%nat).
  set (R0 := Fft.rdft x n last).
  set (nf := norm_factor (shape x) d).
  assert (Hlast : (last < len)%nat) by (unfold last; lia).
  assert (Hks : forall k, In k ks -> (k < last)%nat).
  { intros k Hk. unfold ks in Hk. apply in_seq in Hk. unfold last. lia. }
  assert (HsR : shape R0 = upd (shape x) last (n / 2 + 1)%nat) by apply shape_tabulate.
  assert (HwR : wf R0) by apply wf_tabulate.
  assert (HnR : forall k, In k ks -> nth k (shape R0) 0%nat = nth k (shape x) 0%nat).
  { intros k Hk. rewrite HsR. apply nth_upd_other. apply Hks in Hk. lia. }
  pose proof (axes_nonempty_nth (shape x) d Hd Hne) as Hpos.
  unfold Spec.last_axes in Hpos. change (length (shape x)) with len in Hpos.
  assert (Hseq : seq (len - Z.to_nat d) (Z.to_nat d) = ks ++ [last]).
  { unfold ks, last. replace (Z.to_nat d) with (S (Z.to_nat d - 1)) at 2 by lia.
    rewrite seq_S. do 2 f_equal. lia. }
  rewrite Hseq in Hpos. apply Forall_app in Hpos as [Hposk Hposn].
  apply Forall_inv in Hposn. fold n in Hposn.
  set (Y := fold_left (fun acc k => Fft.dft (-1) acc (nth k (shape x) 0%nat) k) ks R0).
  assert (HY : Y = Spec.dft_axes R0 (rev ks)).
  { unfold Y, Spec.dft_axes. rewrite <- fold_axes_rev.
    apply fold_left_ext_in. intros k acc Hk. now rewrite (HnR k Hk). }
  assert (HsY : shape Y = shape R0).
  { rewrite HY. apply (shape_transform_axes _ (shape_dft (-1))). }
  assert (HwY : wf Y).
  { rewrite HY. apply wf_transform_axes; [apply wf_dft | exact HwR]. }
  set (y := Np.div_scalar Y nf).
  assert (Hsy : shape y = shape R0) by exact HsY.
  assert (Hny : ndim y = len).
  { unfold ndim. rewrite Hsy, HsR, length_upd. reflexivity. }
  assert (Hdy : default_dim y dim = d).
  { rewrite Ed. unfold default_dim. destruct dim; [reflexivity|]. now rewrite Hny. }
  unfold uirfftn. rewrite Hdy.
  assert (Hshape : Py.slice_from (- d) (shape x)
                   = map (fun k => nth k (shape y) 0%nat)
                       (seq (ndim y - Z.to_nat d) (Z.to_nat d - 1)) ++ [n]).
  { rewrite slice_from_last by exact Hd.
    rewrite <- map_nth_last_axes by (change (length (shape x)) with len; lia).
    unfold Spec.last_axes. change (length (shape x)) with len.
    rewrite Hseq, map_app. cbn [map].
    fold n. rewrite Hny. fold ks. f_equal.
    apply map_ext_in. intros k Hk. rewrite Hsy. symmetry. now apply HnR. }
  rewrite Hshape, irfftn_last_axes.
  2:{ rewrite Hny. exact Hd. }
  2:{ exact Hposn. }
  2:{ rewrite Hny. fold ks. rewrite Forall_forall in Hposk |- *. intros k Hk.
      rewrite Hsy, (HnR k Hk). now apply Hposk. }
  cbn [Py.bind]. rewrite Hny. fold ks. fold last.
  assert (Ha' : fold_left (fun acc k => Spec.idft_step acc (nth k (shape y) 0%nat) k) ks y
                = Np.div_scalar R0 nf).
  { rewrite fold_axes_rev. fold (Spec.idft_axes y (rev ks)). unfold y.
    rewrite idft_axes_div_scalar by exact HwY. f_equal.
    rewrite HY. apply idft_axes_dft_axes.
    - exact HwR.
    - apply NoDup_rev. apply seq_NoDup.
    - apply Forall_forall. intros k Hk. apply in_rev in Hk.
      rewrite (HnR k Hk). split.
      + unfold ndim. rewrite HsR, length_upd. change (length (shape x)) with len.
        apply Hks in Hk. lia.
      + rewrite Forall_forall in Hposk. now apply Hposk. }
  rewrite Ha'.
  assert (Hout : upd (shape y) last n = shape x).
  { rewrite Hsy, HsR, upd_upd. apply upd_same. }
  rewrite Hout. rewrite shape_tabulate. fold nf.
  unfold Np.rmul_scalar. rewrite amap_tabulate. f_equal.
  transitivity (tabulate (shape x) (get x)); [|now apply tabulate_get].
  apply tabulate_ext. intros idx Hv.
  unfold R0, n. rewrite irfft_rdft by assumption.
  assert (Hnf : 0 < nf) by (now apply norm_factor_pos).
  field. lra.
Qed.

Lemma uirfftn_urfftn_witness :
  (y <- urfftn (mk_ndarray [2; 3]%nat [1; 2; 3; 4; 5; 6]) (Some 1%Z) ;;
   uirfftn y (Some 1%Z)
     (Some (Py.slice_from
              (- default_dim (mk_ndarray [2; 3]%nat [1; 2; 3; 4; 5; 6]) (Some 1%Z))
              (shape (mk_ndarray [2; 3]%nat [1; 2; 3; 4; 5; 6])))))
  = Ok (mk_ndarray [2; 3]%nat [1; 2; 3; 4; 5; 6]).
Proof.
  apply (uirfftn_urfftn (mk_ndarray [2; 3]%nat [1; 2; 3; 4; 5; 6]) (Some 1%Z)).
  - reflexivity.
  - simpl. lia.
  - repeat constructor.
Defined.

(* ================================================================= *)
(** ** The shape argument of [uirfftn] *)

(** X13: a [shape] argument that does not name exactly one length for
    each of the transformed axes makes [uirfftn] fail with a
    [ValueError]; so does, in particular, the shape of a whole array
    that has more axes than are transformed. *)
Theorem uirfftn_shape_mismatch (y : ndarray C) (dim : option Z) (s : list nat) :
  length s <> Z.to_nat (default_dim y dim) ->
  uirfftn y dim (Some s) = Raise ValueError.
Proof.
  intros Hs. unfold uirfftn, Fft.irfftn, Fft.cook_nd_args.
  rewrite length_range.
  destruct (length s =? Z.to_nat (default_dim y dim))%nat eqn:E;
    [apply Nat.eqb_eq in E; contradiction | reflexivity].
Qed.

Lemma uirfftn_shape_mismatch_witness :
  uirfft2 (Np.astype_complex (Np.ones [2; 3; 2]%nat)) (Some [2; 3; 3]%nat)
  = Raise ValueError.
Proof.
  apply (uirfftn_shape_mismatch (Np.astype_complex (Np.ones [2; 3; 2]%nat)) (Some 2%Z)
           [2; 3; 3]%nat).
  simpl. lia.
Defined.

(** X12 (the docstring of [uirfft2]): without a [shape] argument, for a
    [dim] between 1 and the rank and no empty transformed axis, the output
    of [uirfftn] has the shape of its input but for the last axis, of
    length [(m - 1) * 2] where the input has [m]; an input whose last axis
    holds a single sample is refused with a [ValueError]. *)
Theorem uirfftn_default_shape (y : ndarray C) (dim : option Z) :
  (1 <= default_dim y dim <= Z.of_nat (ndim y))%Z ->
  axes_nonempty (shape y) (default_dim y dim) ->
  (2 <= nth (ndim y - 1) (shape y) 0 ->
   exists out, uirfftn y dim None = Ok out
               /\ shape out
                  = upd (shape y) (ndim y - 1) ((nth (ndim y - 1) (shape y) 0 - 1) * 2))%nat
  /\ (nth (ndim y - 1) (shape y) 0%nat = 1%nat -> uirfftn y dim None = Raise ValueError).
Proof.
  intros Hd Hne. remember (default_dim y dim) as d eqn:Ed.
  pose proof (axes_nonempty_nth (shape y) d Hd Hne) as Hpos.
  unfold Spec.last_axes in Hpos. change (length (shape y)) with (ndim y) in Hpos.
  replace (Z.to_nat d) with (S (Z.to_nat d - 1)) in Hpos at 2 by lia.
  rewrite seq_S in Hpos. apply Forall_app in Hpos as [Hposk _].
  unfold uirfftn. rewrite <- Ed, irfftn_default_shape by exact Hd.
  rewrite irfftn_last_axes_checked by assumption.
  split.
  - intros Hm. destruct ((nth (ndim y - 1) (shape y) 0 - 1) * 2 <? 1)%nat eqn:E;
      [apply Nat.ltb_lt in E; lia|].
    cbn [Py.bind]. eexists. split; [reflexivity|]. reflexivity.
  - intros Hm. rewrite Hm. reflexivity.
Qed.

Lemma uirfftn_default_shape_witness :
  (exists out, uirfftn (Np.astype_complex (Np.ones [4; 3]%nat)) None None = Ok out
               /\ shape out = [4; 4]%nat)
  /\ uirfftn (Np.astype_complex (Np.ones [4; 1]%nat)) None None = Raise ValueError.
Proof.
  split.
  - destruct (uirfftn_default_shape (Np.astype_complex (Np.ones [4; 3]%nat)) None)
      as [H _].
    + simpl. lia.
    + repeat constructor.
    + apply H. simpl. lia.
  - destruct (uirfftn_default_shape (Np.astype_complex (Np.ones [4; 1]%nat)) None)
      as [_ H].
    + simpl. lia.
    + repeat constructor.
    + apply H. reflexivity.
Defined.

(* ================================================================= *)
(** ** The Parseval equality in any dimension *)

Lemma Rlsum_ext {A} (f g : A -> R) (l : list A) :
  (forall x, In x l -> f x = g x) ->
  fold_right Rplus 0 (map f l) = fold_right Rplus 0 (map g l).
Proof. intros H. f_equal. now apply map_ext_in. Qed.

Lemma Rlsum_flat_map {A B} (f : B -> R) (g : A -> list B) (l : list A) :
  fold_right Rplus 0 (map f (flat_map g l))
  = fold_right Rplus 0 (map (fun i => fold_right Rplus 0 (map f (g i))) l).
Proof.
  induction l as [|x l IH]; simpl; [reflexivity|].
  now rewrite map_app, Rlsum_app, IH.
Qed.

Lemma Rlsum_indices_cons (n : nat) (s : list nat) (g : list nat -> R) :
  fold_right Rplus 0 (map g (indices (n :: s)))
  = Rsum n (fun i => fold_right Rplus 0 (map (fun J => g (i :: J)) (indices s))).
Proof.
  cbn [indices]. rewrite Rlsum_flat_map. unfold Rsum. f_equal.
  apply map_ext. intros i. now rewrite map_map.
Qed.

Lemma Rlsum_Rsum {A} (n : nat) (h : A -> nat -> R) (l : list A) :
  fold_right Rplus 0 (map (fun x => Rsum n (h x)) l)
  = Rsum n (fun j => fold_right Rplus 0 (map (fun x => h x j) l)).
Proof.
  induction l as [|x l IH]; simpl.
  - now rewrite Rsum_zero.
  - now rewrite IH, <- Rsum_plus.
Qed.

Lemma Rlsum_scal {A} (c : R) (f : A -> R) (l : list A) :
  fold_right Rplus 0 (map (fun x => c * f x) l) = c * fold_right Rplus 0 (map f l).
Proof. induction l as [|x l IH]; simpl; [ring|]. rewrite IH. ring. Qed.

(** The sum over the indices of a shape, cut in two. *)
Lemma Rlsum_indices_app (s1 s2 : list nat) (g : list nat -> R) :
  fold_right Rplus 0 (map g (indices (s1 ++ s2)))
  = fold_right Rplus 0
      (map (fun pre => fold_right Rplus 0 (map (fun post => g (pre ++ post)) (indices s2)))
         (indices s1)).
Proof.
  revert g. induction s1 as [|n s1 IH]; intros g.
  - cbn [app indices map fold_right]. now rewrite Rplus_0_r.
  - cbn [app]. rewrite !Rlsum_indices_cons. apply Rsum_ext. intros i _.
    apply (IH (fun J => g (i :: J))).
Qed.

(** The energy of an array: the sum of the squared moduli of the samples. *)
Lemma energy_indices (a : ndarray C) :
  wf a ->
  Np.rsum (Np.square (Np.abs a))
  = fold_right Rplus 0
      (map (fun idx => Cabs (get a idx) * Cabs (get a idx)) (indices (shape a))).
Proof.
  intros Hw. unfold Np.rsum, Np.square, Np.abs, amap. cbn [data].
  rewrite <- (data_indices a Hw), !map_map. reflexivity.
Qed.

(** The transform along one axis multiplies the energy by the length of
    the axis. *)
Lemma energy_dft_axis (a : ndarray C) (k : nat) :
  wf a -> (k < ndim a)%nat ->
  fold_right Rplus 0
    (map (fun idx => Cabs (get (Fft.dft (-1) a (nth k (shape a) 0%nat) k) idx)
                     * Cabs (get (Fft.dft (-1) a (nth k (shape a) 0%nat) k) idx))
       (indices (shape a)))
  = INR (nth k (shape a) 0%nat)
    * fold_right Rplus 0
        (map (fun idx => Cabs (get a idx) * Cabs (get a idx)) (indices (shape a))).
Proof.
  intros Hw Hk. set (n := nth k (shape a) 0%nat).
  pose proof (split_at k (shape a) Hk) as Hs. fold n in Hs.
  set (s1 := firstn k (shape a)) in *. set (s3 := skipn (S k) (shape a)) in *.
  assert (Hl1 : length s1 = k) by (unfold s1; rewrite length_firstn; unfold ndim in Hk; lia).
  assert (Hline : forall pre post, valid_index s1 pre -> valid_index s3 post ->
            Rsum n (fun j => Cabs (get (Fft.dft (-1) a n k) (pre ++ j :: post))
                             * Cabs (get (Fft.dft (-1) a n k) (pre ++ j :: post)))
            = INR n * Rsum n (fun j => Cabs (get a (pre ++ j :: post))
                                       * Cabs (get a (pre ++ j :: post)))).
  { intros pre post Hpre Hpost.
    pose proof (valid_index_length _ _ Hpre) as Hlp.
    rewrite <- (parseval_sum n (fun j => get a (pre ++ j :: post))).
    apply Rsum_ext. intros j Hj.
    assert (Hv : valid_index (shape a) (pre ++ j :: post)).
    { rewrite Hs. apply valid_index_app; [exact Hpre|]. constructor; assumption. }
    unfold n. rewrite get_dft by assumption. fold n.
    assert (E : Csum n (fun j' => Cmul (get a (upd (pre ++ j :: post) k j'))
                                    (Fft.twiddle (-1) n (j' * nth k (pre ++ j :: post) 0%nat)))
                = Csum n (fun j' => Cmul (get a (pre ++ j' :: post))
                                      (Fft.twiddle (-1) n (j' * j)))).
    { apply Csum_ext. intros j' _.
      rewrite <- Hl1, <- Hlp, upd_middle, nth_middle. reflexivity. }
    now rewrite E. }
  replace (indices (shape a)) with (indices (s1 ++ n :: s3)) by (now rewrite <- Hs).
  rewrite !Rlsum_indices_app.
  rewrite <- Rlsum_scal. apply Rlsum_ext. intros pre Hpre. apply In_indices in Hpre.
  rewrite !Rlsum_indices_cons, <- !Rlsum_Rsum, <- Rlsum_scal.
  apply Rlsum_ext. intros post Hpost. apply In_indices in Hpost.
  now apply Hline.
Qed.

Lemma energy_dft_axes (a : ndarray C) (ks : list nat) :
  wf a -> Forall (fun k => k < ndim a)%nat ks ->
  fold_right Rplus 0
    (map (fun idx => Cabs (get (Spec.dft_axes a ks) idx)
                     * Cabs (get (Spec.dft_axes a ks) idx))
       (indices (shape a)))
  = INR (prod (map (fun k => nth k (shape a) 0%nat) ks))
    * fold_right Rplus 0
        (map (fun idx => Cabs (get a idx) * Cabs (get a idx)) (indices (shape a))).
Proof.
  intros Hw Hks. induction Hks as [|k ks Hk _ IH].
  - cbn [map prod fold_right]. change (INR 1) with 1. now rewrite Rmult_1_l.
  - unfold Spec.dft_axes. cbn [Spec.transform_axes fold_right].
    fold (Spec.transform_axes (Fft.dft (-1)) a ks). fold (Spec.dft_axes a ks).
    set (Y := Spec.dft_axes a ks) in *.
    assert (HsY : shape Y = shape a) by apply (shape_transform_axes _ (shape_dft (-1))).
    assert (HwY : wf Y) by (apply wf_transform_axes; [apply wf_dft | exact Hw]).
    assert (HkY : (k < ndim Y)%nat) by (unfold ndim; rewrite HsY; exact Hk).
    pose proof (energy_dft_axis Y k HwY HkY) as H. rewrite HsY in H.
    rewrite H, IH. cbn [map]. unfold prod. cbn [fold_right]. fold (prod (map (fun k => nth k (shape a) 0%nat) ks)).
    rewrite mult_INR. ring.
Qed.

(** X4 (the Parseval equality of the module docstring): for a [dim]
    between 1 and the rank and no empty transformed axis, the transform
    [ufftn] has the energy of its input: the sums of the squared moduli
    of all samples are equal. *)
Theorem ufftn_parseval (x : ndarray C) (dim : option Z) :
  wf x ->
  (1 <= default_dim x dim <= Z.of_nat (ndim x))%Z ->
  axes_nonempty (shape x) (default_dim x dim) ->
  exists y, ufftn x dim = Ok y
            /\ Np.rsum (Np.square (Np.abs y)) = Np.rsum (Np.square (Np.abs x)).
Proof.
  intros Hw Hd Hne. remember (default_dim x dim) as d eqn:Ed.
  unfold ufftn. rewrite <- Ed, fftn_last_axes by assumption. cbn [Py.bind].
  set (ks := Spec.last_axes (ndim x) (Z.to_nat d)).
  set (Y := Spec.dft_axes x ks). set (nf := norm_factor (shape x) d).
  exists (Np.div_scalar Y nf). split; [reflexivity|].
  assert (HsY : shape Y = shape x) by apply (shape_transform_axes _ (shape_dft (-1))).
  assert (HwY : wf Y) by (apply wf_transform_axes; [apply wf_dft | exact Hw]).
  assert (Hwy : wf (Np.div_scalar Y nf)) by (apply wf_amap; exact HwY).
  assert (Hnf : 0 < nf) by (now apply norm_factor_pos).
  assert (Hnf2 : nf * nf = INR (prod (map (fun k => nth k (shape x) 0%nat) ks))).
  { unfold nf, norm_factor, ks, ndim.
    rewrite map_nth_last_axes by (unfold ndim in Hd; lia).
    rewrite <- slice_from_last by exact Hd.
    apply sqrt_sqrt. apply pos_INR. }
  rewrite (energy_indices _ Hwy), (energy_indices x Hw).
  change (shape (Np.div_scalar Y nf)) with (shape Y). rewrite HsY.
  rewrite (Rlsum_ext _ (fun idx => / (nf * nf) * (Cabs (get Y idx) * Cabs (get Y idx)))).
  2:{ intros idx Hidx. apply In_indices in Hidx.
      unfold Np.div_scalar. rewrite get_amap by (rewrite ?HsY; assumption).
      rewrite Cabs_div_sqr by lra. unfold Rdiv. ring. }
  assert (Hks : Forall (fun k => k < ndim x)%nat ks).
  { apply Forall_forall. intros k Hk. unfold ks, Spec.last_axes in Hk.
    apply in_seq in Hk. lia. }
  rewrite Rlsum_scal. unfold Y. rewrite (energy_dft_axes x ks Hw Hks), <- Hnf2.
  field. lra.
Qed.

Lemma ufftn_parseval_witness :
  exists y, ufftn (mk_ndarray [2; 3]%nat [(1, 2); (3, 4); (5, 6); (7, 8); (9, 1); (2, 3)])
              (Some 1%Z) = Ok y
            /\ Np.rsum (Np.square (Np.abs y))
               = Np.rsum (Np.square (Np.abs
                   (mk_ndarray [2; 3]%nat [(1, 2); (3, 4); (5, 6); (7, 8); (9, 1); (2, 3)]))).
Proof.
  apply (ufftn_parseval
           (mk_ndarray [2; 3]%nat [(1, 2); (3, 4); (5, 6); (7, 8); (9, 1); (2, 3)])
           (Some 1%Z)).
  - reflexivity.
  - simpl. lia.
  - repeat constructor.
Defined.

(* ================================================================= *)
(** ** The forward transform undoes the inverse transform *)

Lemma twiddle_orthogonal_inv (n i j : nat) :
  (i < n)%nat -> (j < n)%nat ->
  Csum n (fun m => Cmul (Fft.twiddle 1 n (j * m)) (Fft.twiddle (-1) n (m * i)))
  = if (j =? i)%nat then (INR n, 0) else zero.
Proof.
  intros Hi Hj.
  transitivity (Csum n (fun m => Cmul (Fft.twiddle (-1) n (i * m)) (Fft.twiddle 1 n (m * j)))).
  - apply Csum_ext. intros m _. rewrite Cmul_comm.
    now rewrite (Nat.mul_comm m i), (Nat.mul_comm j m).
  - rewrite twiddle_orthogonal by assumption. now rewrite Nat.eqb_sym.
Qed.

Lemma dft_idft_axis (a : ndarray C) (k : nat) :
  wf a -> (k < ndim a)%nat -> (1 <= nth k (shape a) 0)%nat ->
  Fft.dft (-1) (Spec.idft_step a (nth k (shape a) 0%nat) k) (nth k (shape a) 0%nat) k = a.
Proof.
  intros Hw Hk Hn. set (n := nth k (shape a) 0%nat) in *.
  set (F := Spec.idft_step a n k).
  assert (HsF : shape F = shape a) by apply shape_idft_step_same.
  assert (HkF : (k < ndim F)%nat) by (unfold ndim; rewrite HsF; exact Hk).
  apply array_ext.
  - apply wf_dft.
  - exact Hw.
  - rewrite shape_dft, HsF. apply upd_same.
  - rewrite shape_dft, HsF. unfold n at 1. rewrite upd_same. intros idx Hv.
    pose proof (valid_index_length _ _ Hv) as Hlen.
    pose proof (valid_index_nth _ _ k Hv Hk) as Hi. fold n in Hi.
    pose proof (get_dft (-1) F k idx HkF) as G. rewrite HsF in G. fold n in G.
    rewrite (G Hv). clear G.
    rewrite (Csum_ext n _
               (fun j => Csum n (fun m =>
                  Cdiv (Cmul (get a (upd idx k m))
                          (Cmul (Fft.twiddle 1 n (m * j))
                                (Fft.twiddle (-1) n (j * nth k idx 0%nat)))) (INR n)))).
    2:{ intros j Hj. unfold F, n. rewrite get_idft_step.
        - fold n. rewrite <- Cdiv_mul_l, <- Csum_div. f_equal.
          rewrite Csum_mul_l. apply Csum_ext. intros m Hm.
          rewrite upd_upd, nth_upd_same by (rewrite Hlen; exact Hk).
          now rewrite Cmul_assoc.
        - exact Hk.
        - apply valid_index_upd; [exact Hv | exact Hj]. }
    rewrite Csum_swap.
    rewrite (Csum_ext n _
               (fun m => if (m =? nth k idx 0)%nat
                         then get a (upd idx k m) else zero)).
    2:{ intros m Hm. rewrite <- Csum_div, <- Csum_mul_r.
        rewrite twiddle_orthogonal_inv by assumption.
        assert (Hn0 : INR n <> 0) by (apply not_0_INR; lia).
        destruct (m =? nth k idx 0)%nat.
        - destruct (get a (upd idx k m)) as [re im].
          unfold Cdiv, Cmul, Cre, Cim. simpl. f_equal; field; exact Hn0.
        - rewrite Cmul_zero_r. unfold Cdiv, zero, Zero_C, Cre, Cim. simpl.
          f_equal; field; exact Hn0. }
    rewrite Csum_delta by exact Hi. now rewrite upd_same.
Qed.

Lemma dft_axes_idft_commute (t : ndarray C) (k : nat) (ks : list nat) :
  wf t -> (k < ndim t)%nat -> ~ In k ks -> Forall (fun k' => k' < ndim t)%nat ks ->
  Spec.dft_axes (Spec.idft_step t (nth k (shape t) 0%nat) k) ks
  = Spec.idft_step (Spec.dft_axes t ks) (nth k (shape t) 0%nat) k.
Proof.
  intros Hw Hk Hnin Hks. induction ks as [|k' ks IH].
  - reflexivity.
  - inversion Hks as [|? ? Hk' Hks']; subst.
    rewrite !dft_axes_cons, IH by (try assumption; intros Hin; apply Hnin; now right).
    rewrite shape_idft_step_same.
    set (t' := Spec.dft_axes t ks).
    assert (Hs' : shape t' = shape t) by apply shape_dft_axes.
    rewrite <- Hs'. symmetry. apply idft_dft_commute.
    + now apply wf_dft_axes.
    + unfold ndim. now rewrite Hs'.
    + unfold ndim. now rewrite Hs'.
    + intros E. apply Hnin. now left.
Qed.

Lemma dft_axes_idft_axes (x : ndarray C) (ks : list nat) :
  wf x -> NoDup ks ->
  Forall (fun k => k < ndim x /\ 1 <= nth k (shape x) 0)%nat ks ->
  Spec.dft_axes (Spec.idft_axes x ks) ks = x.
Proof.
  intros Hw Hnd Hks. induction ks as [|k ks IH].
  - reflexivity.
  - inversion Hnd as [|? ? Hnin Hnd']; subst.
    inversion Hks as [|? ? [Hk Hn] Hks']; subst.
    rewrite idft_axes_cons.
    set (t := Spec.idft_axes x ks).
    assert (Hst : shape t = shape x) by apply shape_idft_axes.
    rewrite <- Hst. rewrite dft_axes_cons, shape_idft_step_same.
    rewrite dft_axes_idft_commute.
    + assert (Hinv : Spec.dft_axes t ks = x) by (unfold t; now apply IH).
      rewrite Hinv, Hst. now apply dft_idft_axis.
    + now apply wf_idft_axes.
    + unfold ndim. now rewrite Hst.
    + exact Hnin.
    + unfold ndim. rewrite Hst. apply Forall_forall. intros k' Hin.
      rewrite Forall_forall in Hks'. now apply Hks'.
Qed.

Lemma mul_scalar_div (a : ndarray C) (r : R) :
  Np.mul_scalar a r = Np.div_scalar a (/ r).
Proof.
  unfold Np.mul_scalar, Np.div_scalar, amap. f_equal. apply map_ext. intros z.
  unfold Cscale, Cdiv, Rdiv. now rewrite Rinv_inv.
Qed.

Lemma dft_axes_div_scalar (a : ndarray C) (c : R) (ks : list nat) :
  wf a ->
  Spec.dft_axes (Np.div_scalar a c) ks = Np.div_scalar (Spec.dft_axes a ks) c.
Proof.
  intros Hw. unfold Spec.dft_axes. induction ks as [|k ks IH]; simpl.
  - reflexivity.
  - rewrite IH. apply dft_div_scalar.
    apply wf_transform_axes; [apply wf_dft | exact Hw].
Qed.

Lemma last_axes_valid (x : ndarray C) (d : Z) :
  (1 <= d <= Z.of_nat (ndim x))%Z -> axes_nonempty (shape x) d ->
  Forall (fun k => k < ndim x /\ 1 <= nth k (shape x) 0)%nat
    (Spec.last_axes (ndim x) (Z.to_nat d)).
Proof.
  intros Hd Hne.
  pose proof (axes_nonempty_nth (shape x) d Hd Hne) as Hn. fold (ndim x) in Hn.
  rewrite Forall_forall in Hn |- *. intros k Hk.
  split; [|now apply Hn]. unfold Spec.last_axes in Hk. apply in_seq in Hk. lia.
Qed.

(** X2: for a [dim] between 1 and the rank and no empty transformed
    axis, [ufftn] after [uifftn] returns the array: [uifftn] is the
    inverse of [ufftn] on both sides. *)
Theorem ufftn_uifftn_exact (x : ndarray C) (dim : option Z) :
  wf x ->
  (1 <= default_dim x dim <= Z.of_nat (ndim x))%Z ->
  axes_nonempty (shape x) (default_dim x dim) ->
  (y <- uifftn x dim ;; ufftn y dim) = Ok x.
Proof.
  intros Hw Hd Hne. remember (default_dim x dim) as d eqn:Ed.
  unfold uifftn. rewrite <- Ed, ifftn_last_axes by assumption. cbn [Py.bind].
  set (ks := Spec.last_axes (ndim x) (Z.to_nat d)).
  set (I := Spec.idft_axes x ks). set (nf := norm_factor (shape x) d).
  set (y := Np.mul_scalar I nf).
  assert (HsI : shape I = shape x) by apply shape_idft_axes.
  assert (HwI : wf I) by (now apply wf_idft_axes).
  assert (Hsy : shape y = shape x) by exact HsI.
  assert (Hdy : default_dim y dim = d).
  { rewrite Ed. unfold default_dim, ndim. now rewrite Hsy. }
  unfold ufftn. rewrite Hdy, fftn_last_axes.
  2:{ unfold ndim. rewrite Hsy. exact Hd. }
  2:{ now rewrite Hsy. }
  cbn [Py.bind]. f_equal. unfold ndim. rewrite Hsy. fold (ndim x). fold ks. fold nf.
  unfold y. rewrite mul_scalar_div, dft_axes_div_scalar by exact HwI.
  unfold I. rewrite dft_axes_idft_axes;
    [| exact Hw | apply seq_NoDup | now apply last_axes_valid].
  rewrite <- mul_scalar_div. now apply div_mul_scalar.
Qed.

Lemma ufftn_uifftn_exact_witness :
  (y <- uifftn (mk_ndarray [2; 2]%nat [(1, 2); (3, 4); (5, 6); (7, 8)]) None ;;
   ufftn y None)
  = Ok (mk_ndarray [2; 2]%nat [(1, 2); (3, 4); (5, 6); (7, 8)]).
Proof.
  apply (ufftn_uifftn_exact
           (mk_ndarray [2; 2]%nat [(1, 2); (3, 4); (5, 6); (7, 8)]) None).
  - reflexivity.
  - simpl. lia.
  - repeat constructor.
Defined.

Lemma Cabs_scale_sqr (z : C) (r : R) :
  Cabs (Cscale z r) * Cabs (Cscale z r) = r * r * (Cabs z * Cabs z).
Proof. rewrite !Cabs_sqr. unfold Cscale, Cre, Cim. cbn [fst snd]. ring. Qed.

(** X5: for a [dim] between 1 and the rank and no empty transformed
    axis, the inverse transform [uifftn] has the energy of its input. *)
Theorem uifftn_parseval (x : ndarray C) (dim : option Z) :
  wf x ->
  (1 <= default_dim x dim <= Z.of_nat (ndim x))%Z ->
  axes_nonempty (shape x) (default_dim x dim) ->
  exists y, uifftn x dim = Ok y
            /\ Np.rsum (Np.square (Np.abs y)) = Np.rsum (Np.square (Np.abs x)).
Proof.
  intros Hw Hd Hne. remember (default_dim x dim) as d eqn:Ed.
  unfold uifftn. rewrite <- Ed, ifftn_last_axes by assumption. cbn [Py.bind].
  set (ks := Spec.last_axes (ndim x) (Z.to_nat d)).
  set (I := Spec.idft_axes x ks). set (nf := norm_factor (shape x) d).
  exists (Np.mul_scalar I nf). split; [reflexivity|].
  assert (HsI : shape I = shape x) by apply shape_idft_axes.
  assert (HwI : wf I) by (now apply wf_idft_axes).
  assert (Hwy : wf (Np.mul_scalar I nf)) by (apply wf_amap; exact HwI).
  assert (Hnf2 : nf * nf = INR (prod (map (fun k => nth k (shape x) 0%nat) ks))).
  { unfold nf, norm_factor, ks, ndim.
    rewrite map_nth_last_axes by (unfold ndim in Hd; lia).
    rewrite <- slice_from_last by exact Hd.
    apply sqrt_sqrt. apply pos_INR. }
  assert (Hks : Forall (fun k => k < ndim I)%nat ks).
  { apply Forall_forall. intros k Hk. unfold ks, Spec.last_axes in Hk.
    apply in_seq in Hk. unfold ndim. rewrite HsI. fold (ndim x). lia. }
  pose proof (energy_dft_axes I ks HwI Hks) as HE. rewrite HsI in HE.
  unfold I in HE at 1 2.
  rewrite dft_axes_idft_axes in HE;
    [| exact Hw | apply seq_NoDup | now apply last_axes_valid].
  rewrite (energy_indices _ Hwy), (energy_indices x Hw), HE, <- Hnf2.
  change (shape (Np.mul_scalar I nf)) with (shape I). rewrite HsI.
  rewrite <- Rlsum_scal. apply Rlsum_ext. intros idx Hidx. apply In_indices in Hidx.
  unfold Np.mul_scalar. rewrite get_amap by (rewrite ?HsI; assumption).
  apply Cabs_scale_sqr.
Qed.

Lemma uifftn_parseval_witness :
  exists y, uifftn (mk_ndarray [2; 3]%nat [(1, 2); (3, 4); (5, 6); (7, 8); (9, 1); (2, 3)])
              (Some 1%Z) = Ok y
            /\ Np.rsum (Np.square (Np.abs y))
               = Np.rsum (Np.square (Np.abs
                   (mk_ndarray [2; 3]%nat [(1, 2); (3, 4); (5, 6); (7, 8); (9, 1); (2, 3)]))).
Proof.
  apply (uifftn_parseval
           (mk_ndarray [2; 3]%nat [(1, 2); (3, 4); (5, 6); (7, 8); (9, 1); (2, 3)])
           (Some 1%Z)).
  - reflexivity.
  - simpl. lia.
  - repeat constructor.
Defined.

(* ================================================================= *)
(** ** The zero-frequency coefficient of every image *)

Lemma slice_from_images (A : Type) (batch img : list A) :
  (1 <= length img)%nat ->
  Py.slice_from (- Z.of_nat (length img)) (batch ++ img) = img.
Proof.
  intros Hl. rewrite slice_from_last by (rewrite length_app; lia).
  rewrite Nat2Z.id, length_app.
  replace (length batch + length img - length img)%nat with (length batch) by lia.
  rewrite skipn_app, Nat.sub_diag, skipn_all. reflexivity.
Qed.

Lemma norm_factor_images (batch img : list nat) :
  (1 <= length img)%nat ->
  norm_factor (batch ++ img) (Z.of_nat (length img)) = sqrt (INR (prod img)).
Proof. intros Hl. unfold norm_factor. now rewrite slice_from_images. Qed.

Lemma axes_nonempty_images (batch img : list nat) :
  (1 <= length img)%nat -> Forall (fun n => 1 <= n)%nat img ->
  axes_nonempty (batch ++ img) (Z.of_nat (length img)).
Proof. intros Hl Hpos. unfold axes_nonempty. now rewrite slice_from_images. Qed.

Lemma last_axes_images {A} (x : ndarray A) (batch img : list nat) :
  shape x = batch ++ img ->
  Spec.last_axes (ndim x) (Z.to_nat (Z.of_nat (length img)))
  = seq (length batch) (length img).
Proof.
  intros Hs. unfold Spec.last_axes, ndim. rewrite Hs, length_app, Nat2Z.id.
  f_equal. lia.
Qed.

(** X8 (the docstring examples of [ufftn] and [ufft2]): when the axes
    of an array are batch axes followed by the [dim] transformed axes,
    none of these empty, the coefficient of [ufftn] at frequency zero of
    the image at any batch index is the sum of the samples of this image
    divided by the square root of their number. *)
Theorem ufftn_zero_frequency (x : ndarray C) (dim : option Z) (batch img pre : list nat) :
  wf x ->
  shape x = batch ++ img ->
  default_dim x dim = Z.of_nat (length img) ->
  (1 <= length img)%nat ->
  Forall (fun n => 1 <= n)%nat img ->
  valid_index batch pre ->
  exists y, ufftn x dim = Ok y
            /\ get y (pre ++ repeat 0%nat (length img))
               = Cdiv (fold_right Cadd zero (map (fun J => get x (pre ++ J)) (indices img)))
                   (sqrt (INR (prod img))).
Proof.
  intros Hw Hs Hdim Hl Hpos Hpre.
  assert (Hd : (1 <= Z.of_nat (length img) <= Z.of_nat (ndim x))%Z).
  { unfold ndim. rewrite Hs, length_app. lia. }
  unfold ufftn. rewrite Hdim, fftn_last_axes;
    [| exact Hd | rewrite Hs; now apply axes_nonempty_images].
  cbn [Py.bind]. eexists. split; [reflexivity|].
  rewrite (last_axes_images x batch img Hs), Hs, norm_factor_images by exact Hl.
  unfold Np.div_scalar. rewrite get_amap.
  - f_equal. now apply dft_axes_zero_frequency.
  - now apply wf_dft_axes.
  - rewrite shape_dft_axes, Hs. apply valid_index_app; [exact Hpre|].
    now apply valid_index_zeros.
Qed.

Lemma ufftn_zero_frequency_witness :
  exists y, ufft2 (Np.astype_complex (Np.ones [2; 3; 3]%nat)) = Ok y
            /\ get y [1; 0; 0]%nat
               = Cdiv (fold_right Cadd zero
                         (map (fun J => get (Np.astype_complex (Np.ones [2; 3; 3]%nat))
                                          ([1%nat] ++ J))
                            (indices [3; 3]%nat)))
                   (sqrt (INR (prod [3; 3]%nat))).
Proof.
  apply (ufftn_zero_frequency (Np.astype_complex (Np.ones [2; 3; 3]%nat)) (Some 2%Z)
           [2%nat] [3; 3]%nat [1%nat]).
  - reflexivity.
  - reflexivity.
  - reflexivity.
  - simpl. lia.
  - repeat constructor.
  - repeat constructor.
Defined.

(** X9 (the docstring examples of [uifftn] and [uifft2]): when the axes
    of an array are batch axes followed by the [dim] transformed axes,
    none of these empty, the coefficient of [uifftn] at index zero of the
    image at any batch index is the sum of the samples of this image
    divided by the square root of their number. *)
Theorem uifftn_zero_frequency (x : ndarray C) (dim : option Z) (batch img pre : list nat) :
  wf x ->
  shape x = batch ++ img ->
  default_dim x dim = Z.of_nat (length img) ->
  (1 <= length img)%nat ->
  Forall (fun n => 1 <= n)%nat img ->
  valid_index batch pre ->
  exists y, uifftn x dim = Ok y
            /\ get y (pre ++ repeat 0%nat (length img))
               = Cdiv (fold_right Cadd zero (map (fun J => get x (pre ++ J)) (indices img)))
                   (sqrt (INR (prod img))).
Proof.
  intros Hw Hs Hdim Hl Hpos Hpre.
  assert (Hd : (1 <= Z.of_nat (length img) <= Z.of_nat (ndim x))%Z).
  { unfold ndim. rewrite Hs, length_app. lia. }
  unfold uifftn. rewrite Hdim, ifftn_last_axes;
    [| exact Hd | rewrite Hs; now apply axes_nonempty_images].
  cbn [Py.bind]. eexists. split; [reflexivity|].
  rewrite (last_axes_images x batch img Hs), Hs, norm_factor_images by exact Hl.
  unfold Np.mul_scalar. rewrite get_amap.
  - rewrite (idft_axes_zero_frequency x Hw img batch pre Hs Hpre Hpos).
    assert (Hsz : 0 < INR (prod img)).
    { apply (lt_INR 0). apply prod_pos in Hpos. lia. }
    pose proof (sqrt_lt_R0 _ Hsz) as Hsq.
    pose proof (sqrt_sqrt (INR (prod img)) (Rlt_le _ _ Hsz)) as Hss.
    destruct (fold_right Cadd zero (map (fun J => get x (pre ++ J)) (indices img)))
      as [re im].
    unfold Cscale, Cdiv, Cre, Cim. simpl.
    set (r := sqrt (INR (prod img))) in *. rewrite <- Hss.
    f_equal; field; lra.
  - now apply wf_idft_axes.
  - rewrite shape_idft_axes, Hs. apply valid_index_app; [exact Hpre|].
    now apply valid_index_zeros.
Qed.

Lemma uifftn_zero_frequency_witness :
  exists y, uifft2 (Np.astype_complex (Np.ones [2; 3; 3]%nat)) = Ok y
            /\ get y [1; 0; 0]%nat
               = Cdiv (fold_right Cadd zero
                         (map (fun J => get (Np.astype_complex (Np.ones [2; 3; 3]%nat))
                                          ([1%nat] ++ J))
                            (indices [3; 3]%nat)))
                   (sqrt (INR (prod [3; 3]%nat))).
Proof.
  apply (uifftn_zero_frequency (Np.astype_complex (Np.ones [2; 3; 3]%nat)) (Some 2%Z)
           [2%nat] [3; 3]%nat [1%nat]).
  - reflexivity.
  - reflexivity.
  - reflexivity.
  - simpl. lia.
  - repeat constructor.
  - repeat constructor.
Defined.

Lemma rfftn_images_zero_frequency (a : ndarray R) (batch img pre : list nat) :
  wf a -> shape a = batch ++ img -> (1 <= length img)%nat ->
  Forall (fun n => 1 <= n)%nat img -> valid_index batch pre ->
  exists y, Fft.rfftn a (Py.range (- Z.of_nat (length img)) 0) = Ok y
            /\ wf y
            /\ valid_index (shape y) (pre ++ repeat 0%nat (length img))
            /\ get y (pre ++ repeat 0%nat (length img))
               = fold_right Cadd zero
                   (map (fun J => RtoC (get a (pre ++ J))) (indices img)).
Proof.
  intros Hw Hs Hl Hpos Hpre.
  assert (Hd : (1 <= Z.of_nat (length img) <= Z.of_nat (ndim a))%Z).
  { unfold ndim. rewrite Hs, length_app. lia. }
  assert (Hne : axes_nonempty (shape a) (Z.of_nat (length img)))
    by (rewrite Hs; now apply axes_nonempty_images).
  destruct (rfftn_shape a _ Hd Hne) as (y & Hy & Hsy).
  exists y. split; [exact Hy|]. split; [exact (rfftn_ok_wf _ _ _ Hy)|].
  pose proof (valid_index_length _ _ Hpre) as Hlpre.
  destruct (exists_last (l := img)) as (front & n & Himg).
  { intros E. rewrite E in Hl. simpl in Hl. lia. }
  assert (Hlimg : length img = S (length front))
    by (rewrite Himg, length_app; simpl; lia).
  assert (Hnd : ndim a = (length batch + S (length front))%nat)
    by (unfold ndim; rewrite Hs, length_app; lia).
  assert (Hsa : shape a = (batch ++ front) ++ [n]) by (rewrite Hs, Himg; apply app_assoc).
  assert (Hlast : (ndim a - 1)%nat = length (batch ++ front))
    by (rewrite Hnd, length_app; lia).
  assert (Hnth : nth (ndim a - 1) (shape a) 0%nat = n)
    by (rewrite Hlast, Hsa; apply nth_middle).
  rewrite Himg in Hpos. apply Forall_app in Hpos as [Hfront Hn].
  apply Forall_inv in Hn.
  assert (Hzero : pre ++ repeat 0%nat (length img)
                  = pre ++ repeat 0%nat (length front) ++ [0%nat]).
  { rewrite Hlimg. f_equal. rewrite <- repeat_cons. reflexivity. }
  split.
  - rewrite Hsy, Hnth, Hlast, Hsa, upd_middle, Hzero, app_assoc.
    apply valid_index_app; [|apply valid_index_single; lia].
    apply valid_index_app; [exact Hpre | now apply valid_index_zeros].
  - rewrite rfftn_last_axes in Hy by assumption. injection Hy as <-.
    rewrite Nat2Z.id, Hnth, Hlast.
    replace (ndim a - length img)%nat with (length batch) by lia.
    replace (length img - 1)%nat with (length front) by lia.
    set (a' := Fft.rdft a n (length (batch ++ front))).
    assert (Hsa' : shape a' = batch ++ front ++ [(n / 2 + 1)%nat]).
    { unfold a', Fft.rdft. rewrite shape_tabulate, Hsa, upd_middle.
      now rewrite <- app_assoc. }
    rewrite (fold_left_ext_in _
               (fun acc k => Fft.dft (-1) acc (nth k (shape a') 0%nat) k)).
    2:{ intros k acc Hk. apply in_seq in Hk. f_equal.
        rewrite Hsa', Hsa, (app_assoc batch front).
        assert (Hkl : (k < length (batch ++ front))%nat) by (rewrite length_app; lia).
        now rewrite !(app_nth1 (batch ++ front)) by exact Hkl. }
    assert (Hz : (0 < n / 2 + 1)%nat) by lia.
    rewrite Hzero.
    rewrite (fold_dft_zero_frequency a' (wf_tabulate _ _) front batch [(n / 2 + 1)%nat]
               pre [0%nat] Hsa' Hpre (valid_index_single _ _ Hz) Hfront).
    rewrite Himg, Clsum_indices_snoc, <- Clsum_Csum.
    apply Clsum_ext. intros J HJ. apply In_indices in HJ.
    unfold a'. rewrite app_assoc.
    rewrite (get_rdft_zero a (batch ++ front) (pre ++ J) n Hw Hsa).
    + apply Csum_ext. intros j _. now rewrite <- !app_assoc.
    + now apply valid_index_app.
    + exact Hn.
Qed.

(** X10 (the docstring examples of [urfftn] and [urfft2]): when the
    axes of a real array are batch axes followed by the [dim] transformed
    axes, none of these empty, the coefficient of [urfftn] at frequency
    zero of the image at any batch index is the sum of the samples of
    this image divided by the square root of their number. *)
Theorem urfftn_zero_frequency (x : ndarray R) (dim : option Z) (batch img pre : list nat) :
  wf x ->
  shape x = batch ++ img ->
  default_dim x dim = Z.of_nat (length img) ->
  (1 <= length img)%nat ->
  Forall (fun n => 1 <= n)%nat img ->
  valid_index batch pre ->
  exists y, urfftn x dim = Ok y
            /\ get y (pre ++ repeat 0%nat (length img))
               = Cdiv (fold_right Cadd zero
                         (map (fun J => RtoC (get x (pre ++ J))) (indices img)))
                   (sqrt (INR (prod img))).
Proof.
  intros Hw Hs Hdim Hl Hpos Hpre.
  destruct (rfftn_images_zero_frequency x batch img pre Hw Hs Hl Hpos Hpre)
    as (y & Hy & Hwy & Hv & H0).
  unfold urfftn. rewrite Hdim, Hy. cbn [Py.bind].
  eexists. split; [reflexivity|].
  rewrite Hs, norm_factor_images by exact Hl.
  unfold Np.div_scalar. rewrite get_amap by assumption.
  now rewrite H0.
Qed.

Lemma urfftn_zero_frequency_witness :
  exists y, urfft2 (Np.ones [2; 3; 3]%nat) = Ok y
            /\ get y [1; 0; 0]%nat
               = Cdiv (fold_right Cadd zero
                         (map (fun J => RtoC (get (Np.ones [2; 3; 3]%nat) ([1%nat] ++ J)))
                            (indices [3; 3]%nat)))
                   (sqrt (INR (prod [3; 3]%nat))).
Proof.
  apply (urfftn_zero_frequency (Np.ones [2; 3; 3]%nat) (Some 2%Z)
           [2%nat] [3; 3]%nat [1%nat]).
  - reflexivity.
  - reflexivity.
  - reflexivity.
  - simpl. lia.
  - repeat constructor.
  - repeat constructor.
Defined.

(* ================================================================= *)
(** ** The real transform is one half of the complex transform *)

(** Transforms along two different axes commute. *)
Lemma dft_dft_commute (a : ndarray C) (k k' : nat) :
  wf a -> (k < ndim a)%nat -> (k' < ndim a)%nat -> k <> k' ->
  Fft.dft (-1) (Fft.dft (-1) a (nth k (shape a) 0%nat) k) (nth k' (shape a) 0%nat) k'
  = Fft.dft (-1) (Fft.dft (-1) a (nth k' (shape a) 0%nat) k') (nth k (shape a) 0%nat) k.
Proof.
  intros Hw Hk Hk' Hne.
  set (n := nth k (shape a) 0%nat). set (n' := nth k' (shape a) 0%nat).
  set (D := Fft.dft (-1) a n k). set (D' := Fft.dft (-1) a n' k').
  assert (HsD : shape D = shape a) by apply shape_dft_same.
  assert (HsD' : shape D' = shape a) by apply shape_dft_same.
  replace (Fft.dft (-1) D n' k') with (Fft.dft (-1) D (nth k' (shape D) 0%nat) k')
    by (now rewrite HsD).
  replace (Fft.dft (-1) D' n k) with (Fft.dft (-1) D' (nth k (shape D') 0%nat) k)
    by (now rewrite HsD').
  apply array_ext.
  - apply wf_dft.
  - apply wf_dft.
  - now rewrite !shape_dft_same, HsD, HsD'.
  - rewrite shape_dft_same. intros idx HvD.
    assert (Hv : valid_index (shape a) idx) by now rewrite <- HsD.
    pose proof (valid_index_length _ _ Hv) as Hlen.
    rewrite !get_dft by (unfold ndim; try rewrite HsD; try rewrite HsD'; assumption).
    rewrite HsD, HsD'. fold n n'.
    rewrite (Csum_ext n' _
               (fun m => Csum n (fun j =>
                  Cmul (Cmul (get a (upd (upd idx k j) k' m))
                             (Fft.twiddle (-1) n (j * nth k idx 0%nat)))
                       (Fft.twiddle (-1) n' (m * nth k' idx 0%nat))))).
    2:{ intros m Hm. unfold D, n. rewrite get_dft.
        - fold n. rewrite Csum_mul_l. apply Csum_ext. intros j Hj.
          rewrite nth_upd_other by exact Hne.
          now rewrite (upd_comm idx k k') by exact Hne.
        - exact Hk.
        - apply valid_index_upd; [exact Hv | exact Hm]. }
    rewrite Csum_swap. apply Csum_ext. intros j Hj.
    unfold D', n'. rewrite get_dft.
    + fold n'. rewrite Csum_mul_l. apply Csum_ext. intros m Hm.
      rewrite nth_upd_other by (intros E; apply Hne; now symmetry).
      rewrite <- !Cmul_assoc. f_equal. apply Cmul_comm.
    + exact Hk'.
    + apply valid_index_upd; [exact Hv | exact Hj].
Qed.

Lemma dft_axes_dft_commute (t : ndarray C) (k : nat) (ks : list nat) :
  wf t -> (k < ndim t)%nat -> ~ In k ks -> Forall (fun k' => k' < ndim t)%nat ks ->
  Spec.dft_axes (Fft.dft (-1) t (nth k (shape t) 0%nat) k) ks
  = Fft.dft (-1) (Spec.dft_axes t ks) (nth k (shape t) 0%nat) k.
Proof.
  intros Hw Hk Hnin Hks. induction ks as [|k' ks IH].
  - reflexivity.
  - inversion Hks as [|? ? Hk' Hks']; subst.
    rewrite !dft_axes_cons, IH by (try assumption; intros Hin; apply Hnin; now right).
    rewrite shape_dft_same.
    set (t' := Spec.dft_axes t ks).
    assert (Hs' : shape t' = shape t) by apply shape_dft_axes.
    rewrite <- Hs'. apply dft_dft_commute.
    + now apply wf_dft_axes.
    + unfold ndim. now rewrite Hs'.
    + unfold ndim. now rewrite Hs'.
    + intros E. apply Hnin. left. now symmetry.
Qed.

Lemma dft_axes_snoc (a : ndarray C) (ks : list nat) (k : nat) :
  Spec.dft_axes a (ks ++ [k])
  = Spec.dft_axes (Fft.dft (-1) a (nth k (shape a) 0%nat) k) ks.
Proof.
  unfold Spec.dft_axes, Spec.transform_axes. rewrite fold_right_app. cbn [fold_right].
  now rewrite shape_dft_same.
Qed.

(** The order of the axes does not matter. *)
Lemma dft_axes_rev (ks : list nat) :
  NoDup ks ->
  forall a : ndarray C,
    wf a -> Forall (fun k => k < ndim a)%nat ks ->
    Spec.dft_axes a (rev ks) = Spec.dft_axes a ks.
Proof.
  induction 1 as [|k ks Hnin Hnd IH]; intros a Hw Hks.
  - reflexivity.
  - inversion Hks as [|? ? Hk Hks']; subst.
    cbn [rev]. rewrite dft_axes_snoc, IH.
    + rewrite dft_axes_dft_commute by assumption. reflexivity.
    + apply wf_dft.
    + unfold ndim. now rewrite shape_dft_same.
Qed.

Lemma valid_index_upd_le (s idx : list nat) (k c : nat) :
  valid_index (upd s k c) idx -> (c <= nth k s 0)%nat -> valid_index s idx.
Proof.
  unfold valid_index. revert idx k.
  induction s as [|m s IH]; intros idx k Hv Hc.
  - destruct k; exact Hv.
  - destruct k as [|k]; simpl in *; inversion Hv as [|i ? idx' ? Hi Hv']; subst.
    + constructor; [lia | exact Hv'].
    + constructor; [exact Hi | now apply (IH idx' k)].
Qed.

(** Two arrays that agree on the region of the shorter one keep agreeing
    there after transforms along other axes than the shortened one. *)
Lemma dft_axes_agree (R0 F : ndarray C) (last c : nat) (ks : list nat) :
  wf R0 -> wf F ->
  shape R0 = upd (shape F) last c -> (c <= nth last (shape F) 0)%nat ->
  ~ In last ks -> Forall (fun k => k < ndim F)%nat ks ->
  (forall idx, valid_index (shape R0) idx -> get R0 idx = get F idx) ->
  forall idx, valid_index (shape R0) idx ->
    get (Spec.dft_axes R0 ks) idx = get (Spec.dft_axes F ks) idx.
Proof.
  intros HwR HwF Hs Hc Hnin Hks Hagree.
  induction ks as [|k ks IH]; intros idx Hv.
  - now apply Hagree.
  - inversion Hks as [|? ? Hk Hks']; subst.
    assert (Hkl : k <> last) by (intros E; apply Hnin; now left).
    assert (Hnin' : ~ In last ks) by (intros Hin; apply Hnin; now right).
    specialize (IH Hnin' Hks').
    rewrite !dft_axes_cons.
    set (YR := Spec.dft_axes R0 ks) in *. set (YF := Spec.dft_axes F ks) in *.
    assert (HsYR : shape YR = shape R0) by apply shape_dft_axes.
    assert (HsYF : shape YF = shape F) by apply shape_dft_axes.
    assert (Hnk : nth k (shape R0) 0%nat = nth k (shape F) 0%nat)
      by (rewrite Hs; now apply nth_upd_other).
    assert (HvF : valid_index (shape F) idx)
      by (apply (valid_index_upd_le _ _ last c); [now rewrite <- Hs | exact Hc]).
    assert (HkR : (k < ndim R0)%nat) by (unfold ndim; rewrite Hs, length_upd; exact Hk).
    rewrite Hnk.
    pose proof (get_dft (-1) YR k idx) as GR. rewrite HsYR, Hnk in GR.
    pose proof (get_dft (-1) YF k idx) as GF. rewrite HsYF in GF.
    rewrite GR, GF; try assumption.
    + apply Csum_ext. intros j Hj. f_equal. apply IH.
      apply valid_index_upd; [exact Hv | now rewrite Hnk].
    + unfold ndim. now rewrite HsYF.
    + unfold ndim. rewrite HsYR. exact HkR.
Qed.

Lemma norm_factor_pos_nonzero (s : list nat) (d : Z) :
  axes_nonempty s d -> norm_factor s d <> 0.
Proof. intros H. pose proof (norm_factor_pos s d H). lra. Qed.

(** X20: on a real array, for a [dim] between 1 and the rank and no empty
    transformed axis, [urfftn] returns the coefficients of [ufftn] (of
    the array taken as complex) whose index along the last axis is at
    most half the length of this axis: the other half is left out, not
    changed. *)
Theorem urfftn_half_of_ufftn (x : ndarray R) (dim : option Z) :
  wf x ->
  (1 <= default_dim x dim <= Z.of_nat (ndim x))%Z ->
  axes_nonempty (shape x) (default_dim x dim) ->
  exists yr yc,
    urfftn x dim = Ok yr
    /\ ufftn (Np.astype_complex x) dim = Ok yc
    /\ shape yc = shape x
    /\ shape yr = upd (shape x) (ndim x - 1) (nth (ndim x - 1) (shape x) 0 / 2 + 1)%nat
    /\ forall idx, valid_index (shape yr) idx -> get yr idx = get yc idx.
Proof.
  intros Hw Hd Hne. remember (default_dim x dim) as d eqn:Ed.
  set (A := Np.astype_complex x).
  assert (HsA : shape A = shape x) by reflexivity.
  assert (HwA : wf A) by (apply wf_amap; exact Hw).
  assert (HdA : default_dim A dim = d) by (rewrite Ed; reflexivity).
  unfold urfftn, ufftn. rewrite <- Ed, HdA.
  rewrite rfftn_last_axes by assumption.
  rewrite fftn_last_axes by assumption.
  cbn [Py.bind].
  set (len := ndim x) in *. change (ndim A) with len. set (last := (len - 1)%nat).
  set (ks := seq (len - Z.to_nat d) (Z.to_nat d - 1)).
  set (n := nth last (shape x) 0%nat).
  set (R0 := Fft.rdft x n last).
  set (nf := norm_factor (shape x) d). change (norm_factor (shape A) d) with nf.
  assert (Hlast : (last < len)%nat) by (unfold last; lia).
  assert (Hks : forall k, In k ks -> (k < last)%nat).
  { intros k Hk. unfold ks in Hk. apply in_seq in Hk. unfold last. lia. }
  assert (HsR : shape R0 = upd (shape x) last (n / 2 + 1)%nat) by apply shape_tabulate.
  assert (HwR : wf R0) by apply wf_tabulate.
  assert (HnR : forall k, In k ks -> nth k (shape R0) 0%nat = nth k (shape x) 0%nat).
  { intros k Hk. rewrite HsR. apply nth_upd_other. apply Hks in Hk. lia. }
  assert (Hseq : Spec.last_axes len (Z.to_nat d) = ks ++ [last]).
  { unfold Spec.last_axes, ks, last.
    replace (Z.to_nat d) with (S (Z.to_nat d - 1)) at 2 by lia.
    rewrite seq_S. do 2 f_equal. lia. }
  set (Y := fold_left (fun acc k => Fft.dft (-1) acc (nth k (shape x) 0%nat) k) ks R0).
  assert (HksR : Forall (fun k => k < ndim R0)%nat ks).
  { apply Forall_forall. intros k Hk. unfold ndim. rewrite HsR, length_upd.
    change (length (shape x)) with len. apply Hks in Hk. lia. }
  assert (HY : Y = Spec.dft_axes R0 ks).
  { unfold Y. rewrite <- (dft_axes_rev ks (seq_NoDup _ _) R0 HwR HksR).
    unfold Spec.dft_axes. rewrite <- fold_axes_rev.
    apply fold_left_ext_in. intros k acc Hk. now rewrite (HnR k Hk). }
  set (F := Fft.dft (-1) A n last).
  assert (HsF : shape F = shape x).
  { unfold F, n. rewrite <- HsA. apply shape_dft_same. }
  assert (HC : Spec.dft_axes A (Spec.last_axes len (Z.to_nat d)) = Spec.dft_axes F ks).
  { rewrite Hseq, dft_axes_snoc. reflexivity. }
  rewrite HC. fold Y.
  exists (Np.div_scalar Y nf), (Np.div_scalar (Spec.dft_axes F ks) nf).
  assert (HsY : shape Y = shape R0) by (rewrite HY; apply shape_dft_axes).
  assert (HsC : shape (Spec.dft_axes F ks) = shape x)
    by (rewrite shape_dft_axes; exact HsF).
  split; [reflexivity|]. split; [reflexivity|]. split; [exact HsC|].
  split; [exact (eq_trans HsY HsR)|].
  intros idx Hv. change (shape (Np.div_scalar Y nf)) with (shape Y) in Hv.
  assert (HvR : valid_index (shape R0) idx) by (now rewrite <- HsY).
  assert (Hhalf : (n / 2 + 1 <= n)%nat).
  { pose proof (axes_nonempty_nth (shape x) d Hd Hne) as Hpos.
    change (length (shape x)) with len in Hpos. rewrite Hseq in Hpos.
    apply Forall_app in Hpos as [_ Hposn]. apply Forall_inv in Hposn. fold n in Hposn.
    pose proof (Nat.div_mod_eq n 2) as H2.
    pose proof (Nat.mod_upper_bound n 2 ltac:(lia)).
    destruct (Nat.eq_dec n 1) as [->|]; [reflexivity|]. lia. }
  assert (HvF : valid_index (shape F) idx).
  { apply (valid_index_upd_le _ _ last (n / 2 + 1)).
    - rewrite HsF, <- HsR. exact HvR.
    - rewrite HsF. exact Hhalf. }
  unfold Np.div_scalar. rewrite !get_amap.
  - f_equal. rewrite HY.
    apply (dft_axes_agree R0 F last (n / 2 + 1)%nat ks); try assumption.
    + apply wf_dft.
    + rewrite HsR. f_equal. symmetry. exact HsF.
    + replace (shape F) with (shape x) by (symmetry; exact HsF). exact Hhalf.
    + intros Hin. apply Hks in Hin. lia.
    + apply Forall_forall. intros k Hk. unfold ndim. rewrite HsF.
      change (length (shape x)) with len. apply Hks in Hk. lia.
    + intros j Hj. unfold R0, F, Fft.rdft, Fft.dft.
      rewrite !get_tabulate; [reflexivity | | exact Hj].
      rewrite HsA. unfold n. rewrite upd_same.
      apply (valid_index_upd_le _ _ last (n / 2 + 1)); [exact Hj | exact Hhalf].
  - now apply wf_dft_axes, wf_dft.
  - now rewrite HsC, <- HsF.
  - rewrite HY. now apply wf_dft_axes.
  - exact Hv.
Qed.

Lemma urfftn_half_of_ufftn_witness :
  exists yr yc,
    urfftn (mk_ndarray [2; 3]%nat [1; 2; 3; 4; 5; 6]) None = Ok yr
    /\ ufftn (Np.astype_complex (mk_ndarray [2; 3]%nat [1; 2; 3; 4; 5; 6])) None = Ok yc
    /\ shape yc = [2; 3]%nat
    /\ shape yr = [2; 2]%nat
    /\ forall idx, valid_index (shape yr) idx -> get yr idx = get yc idx.
Proof.
  apply (urfftn_half_of_ufftn (mk_ndarray [2; 3]%nat [1; 2; 3; 4; 5; 6]) None).
  - reflexivity.
  - simpl. lia.
  - repeat constructor.
Defined.
